(** * yamlTraversal: outline tree, key occurrences and scoped property values

    A shallow embedding of [language-service/src/services/yamlTraversal.ts]
    (class [YAMLTraversal]) and the properties of its three operations:
    [getObjectTree] with its flatten pass [_flattenArrays], [findNodes] and
    [getNodePropertyValues]. *)

From Stdlib Require Import ZArith List Lia.
From stdpp Require Import base option list gmap strings.

Open Scope string_scope.
Open Scope list_scope.

#[local] Set Warnings "-register-all".
#[local] Set Warnings "-automation".
#[local] Set Warnings "-future-coercion-class-field".
#[local] Set Warnings "-deprecated-syntactic-definition".
#[local] Set Default Proof Using "Type".

(** ** JavaScript values and completions *)

(** What [getValue()] hands back and what the [value] field of an outline
    node holds: TypeScript declares it [string], at run time it is whatever
    the value node reads out to. [VNull] is JavaScript's [null]. *)
Inductive Value : Type :=
| VNull
| VBool (b : bool)
| VNum (n : Z)
| VStr (s : string)
| VArr (items : list Value)
| VObj (fields : list (string * Value)).

(** A call either returns or throws. The only exception the three
    operations can raise is the [TypeError] of reading a member of [null]
    or [undefined]. *)
Inductive JSError : Type := TypeError.

Inductive Completion (A : Type) : Type :=
| Returns (a : A)
| Throws (e : JSError).
Arguments Returns {A} a.
Arguments Throws {A} e.

(** ** The collaborators: positions, text document, AST *)

Record Position : Type := mkPosition { line : nat; character : nat }.

(** [TextDocument] of vscode-languageserver-types, through the two
    conversions the service uses. *)
Record TextDocument : Type := mkTextDocument {
  positionAt : Z -> Position;
  offsetAt : Position -> Z
}.

(** [Json.Segment]: the name of the field a node populates, or its index in
    an array. *)
Inductive Segment : Type :=
| Field (name : string)
| Index (i : nat).

(** Modelled from the spec: the parser's AST ([../parser/jsonParser], which
    this file only imports). Nodes have kinds Object, Array, Property and
    Value; every node has start and end offsets; an Object exposes its
    Property list, an Array its [location] tag and items, a Property its key
    name and value node. The key of a property is kept as a name, not as a
    node of its own. *)
Inductive ASTNode : Type :=
| ObjectASTNode (start end_ : Z) (properties : list PropertyASTNode)
| ArrayASTNode (start end_ : Z) (location : Segment) (items : list ASTNode)
| ValueASTNode (start end_ : Z) (v : Value)
with PropertyASTNode : Type :=
| Property (start end_ : Z) (key : string) (value : ASTNode).

(** What a visitor or a [parent] reference can point at. *)
Inductive Node : Type :=
| NodeOf (n : ASTNode)
| PropOf (p : PropertyASTNode).

Definition prop_key (p : PropertyASTNode) : string :=
  match p with Property _ _ k _ => k end.

Definition prop_value (p : PropertyASTNode) : ASTNode :=
  match p with Property _ _ _ v => v end.

Definition ast_start (n : ASTNode) : Z :=
  match n with
  | ObjectASTNode s _ _ | ArrayASTNode s _ _ _ | ValueASTNode s _ _ => s
  end.

Definition ast_end (n : ASTNode) : Z :=
  match n with
  | ObjectASTNode _ e _ | ArrayASTNode _ e _ _ | ValueASTNode _ e _ => e
  end.

Definition node_start (n : Node) : Z :=
  match n with
  | NodeOf a => ast_start a
  | PropOf (Property s _ _ _) => s
  end.

Definition node_end (n : Node) : Z :=
  match n with
  | NodeOf a => ast_end a
  | PropOf (Property _ e _ _) => e
  end.

(** Modelled from the spec: [getValue()], the scalar or structured read-out
    of a value node. *)
Fixpoint getValue (n : ASTNode) : Value :=
  match n with
  | ObjectASTNode _ _ ps =>
      VObj ((fix fields (l : list PropertyASTNode) : list (string * Value) :=
               match l with
               | [] => []
               | Property _ _ k v :: l' => (k, getValue v) :: fields l'
               end) ps)
  | ArrayASTNode _ _ _ items => VArr (List.map getValue items)
  | ValueASTNode _ _ v => v
  end.

(** A node is referred to by the child indices leading to it, innermost
    first: the head is the node's index in its parent, the tail is the
    reference of [node.parent], and [[]] is the root, whose parent is
    [null]. *)
Abbreviation NodeRef := (list nat).

Definition child (n : Node) (i : nat) : option Node :=
  match n with
  | NodeOf (ObjectASTNode _ _ ps) => PropOf <$> ps !! i
  | NodeOf (ArrayASTNode _ _ _ items) => NodeOf <$> items !! i
  | NodeOf (ValueASTNode _ _ _) => None
  | PropOf (Property _ _ _ v) => match i with 0 => Some (NodeOf v) | _ => None end
  end.

Fixpoint node_at (root : ASTNode) (r : NodeRef) : option Node :=
  match r with
  | [] => Some (NodeOf root)
  | i :: par => node_at root par ≫= fun n => child n i
  end.

(** Modelled from the spec: a parsed document with its root node, and the
    parse result with its zero or more top-level documents. *)
Record JSONDocument : Type := mkJSONDocument { root : ASTNode }.

Record YAMLDocument : Type := mkYAMLDocument { documents : list JSONDocument }.

(** The children of a node are walked left to right; the [i]-th child of
    the node at [r] is referred to as [i :: r]. *)
Section EachChild.
Context {A S : Type} (f : NodeRef -> A -> S -> S) (r : NodeRef).

Fixpoint eachChild (i : nat) (l : list A) (s : S) : S :=
  match l with
  | [] => s
  | c :: l' => eachChild (Datatypes.S i) l' (f (i :: r) c s)
  end.
End EachChild.

(** Modelled from the spec: [visit], the exhaustive depth-first traversal in
    document (pre-)order. Every visitor of this file returns [true], so the
    walk never stops early and the visitor is a state transformer. *)
Section Visit.
Context {S : Type} (visitor : NodeRef -> Node -> S -> S).

Fixpoint visit (r : NodeRef) (n : ASTNode) (s : S) : S :=
  let s1 := visitor r (NodeOf n) s in
  match n with
  | ObjectASTNode _ _ ps => eachChild visitProperty r 0%nat ps s1
  | ArrayASTNode _ _ _ items => eachChild visit r 0%nat items s1
  | ValueASTNode _ _ _ => s1
  end
with visitProperty (r : NodeRef) (p : PropertyASTNode) (s : S) : S :=
  match p with
  | Property _ _ _ v => visit (0%nat :: r) v (visitor r (PropOf p) s)
  end.
End Visit.

Definition parentRef (r : NodeRef) : option NodeRef :=
  match r with
  | [] => None
  | _ :: par => Some par
  end.

(** [node.parent], as a node. *)
Definition parentNode (root : ASTNode) (r : NodeRef) : option Node :=
  parentRef r ≫= node_at root.

(** [(node as Parser.ObjectASTNode).properties]: the property list of an
    Object, [undefined] on every other kind. *)
Definition propertiesOf (n : ASTNode) : option (list PropertyASTNode) :=
  match n with
  | ObjectASTNode _ _ ps => Some ps
  | _ => None
  end.

Definition isObjectNode (n : Node) : bool :=
  match n with
  | NodeOf (ObjectASTNode _ _ _) => true
  | _ => false
  end.

(** The first child, from left to right, for which [f] has an answer. *)
Section FirstChild.
Context {A : Type} (f : NodeRef -> A -> option NodeRef) (r : NodeRef).

Fixpoint firstChild (i : nat) (l : list A) : option NodeRef :=
  match l with
  | [] => None
  | c :: l' =>
      match f (i :: r) c with
      | Some hit => Some hit
      | None => firstChild (S i) l'
      end
  end.
End FirstChild.

Definition covers (s e offset : Z) : bool :=
  ((s <=? offset) && (offset <? e))%Z.

(** Modelled from the spec: [getNodeFromOffset], the innermost AST node
    covering an offset, [null] when the root does not cover it. *)
Fixpoint nodeFromOffset (offset : Z) (r : NodeRef) (n : ASTNode)
    : option NodeRef :=
  if covers (ast_start n) (ast_end n) offset then
    match n with
    | ObjectASTNode _ _ ps =>
        Some (default r (firstChild (propertyFromOffset offset) r 0%nat ps))
    | ArrayASTNode _ _ _ items =>
        Some (default r (firstChild (nodeFromOffset offset) r 0%nat items))
    | ValueASTNode _ _ _ => Some r
    end
  else None
with propertyFromOffset (offset : Z) (r : NodeRef) (p : PropertyASTNode)
    : option NodeRef :=
  match p with
  | Property s e _ v =>
      if covers s e offset then
        Some (default r (nodeFromOffset offset (0%nat :: r) v))
      else None
  end.

Definition getNodeFromOffset (jsonDocument : JSONDocument) (offset : Z)
    : option NodeRef :=
  nodeFromOffset offset [] (root jsonDocument).

(** ** The result types of [yamlTraversal.ts] *)

Record YamlNodeInfo : Type := mkYamlNodeInfo {
  info_startPosition : Position;
  info_endPosition : Position;
  info_key : string;
  info_value : Value
}.

(** An object used as a dictionary: its own properties, all of them plain
    writable data properties, and its prototype. The order in which the own
    properties are enumerated is left out. *)
Inductive Prototype : Type :=
| ObjectPrototype
| PrototypeIs (v : Value).

Record JSObject : Type := mkJSObject {
  own : gmap string Value;
  prototype : Prototype
}.

(** The object literal [{}]: no own property, and [Object.prototype] above
    it. *)
Definition emptyObject : JSObject :=
  {| own := ∅; prototype := ObjectPrototype |}.

(** Modelled from the spec: whether the object [getValue()] builds for an
    Object node inherits from [Object.prototype]. The parser is not among
    the sources and the spec only calls the result a structured read-out;
    the object is taken as built without a prototype
    ([Object.create(null)]). *)
Definition readOutInherits : bool := false.

(** Whether an assignment to [__proto__] on an object with this prototype
    and no own property of that name reaches the accessor of
    [Object.prototype]: below an array it does, through [Array.prototype];
    below [null] nothing is inherited. *)
Definition inheritsProtoSetter (p : Prototype) : bool :=
  match p with
  | ObjectPrototype => true
  | PrototypeIs (VArr _) => true
  | PrototypeIs (VObj _) => readOutInherits
  | PrototypeIs _ => false
  end.

(** The values the [__proto__] setter takes for a prototype: objects and
    [null]. Every other value it ignores. *)
Definition isObjectOrNull (v : Value) : bool :=
  match v with
  | VNull | VArr _ | VObj _ => true
  | VBool _ | VNum _ | VStr _ => false
  end.

(** [o[k] = v] on such an object. Every property name but [__proto__]
    becomes or stays an own property: what [Object.prototype] and the
    prototypes that can be put above the object hold under other names are
    writable data properties, which an assignment shadows. [__proto__] is an
    accessor of [Object.prototype]: unless the object already has an own
    property of that name, an assignment that reaches the accessor runs its
    setter, which replaces the prototype by an object or [null] and does
    nothing for any other value. In neither case an own property appears. *)
Definition assignMember (o : JSObject) (k : string) (v : Value) : JSObject :=
  if bool_decide (k = "__proto__")
     && negb (bool_decide (is_Some (own o !! k)))
     && inheritsProtoSetter (prototype o)
  then
    if isObjectOrNull v then {| own := own o; prototype := PrototypeIs v |} else o
  else {| own := <[k := v]> (own o); prototype := prototype o |}.

(** [values] is an object used as a dictionary, or [null]. *)
Record YamlNodePropertyValues : Type := mkYamlNodePropertyValues {
  values : option JSObject
}.

(** ** [findNodes] *)

(** The visitor of [findNodes]. [nodes.push] appends; a [TypeError] raised
    in the callback ends the walk, so once the state is [Throws] it stays. *)
Definition findNodesVisitor (document : option TextDocument) (rootNode : ASTNode)
    (key : string) (r : NodeRef) (node : Node)
    (acc : Completion (list YamlNodeInfo)) : Completion (list YamlNodeInfo) :=
  match acc with
  | Throws e => Throws e
  | Returns nodes =>
      match node with
      | PropOf (Property _ _ k v) =>
          if decide (k = key) then
            match document, parentNode rootNode r with
            | Some d, Some parent =>
                Returns (nodes ++ [ {| info_startPosition := positionAt d (node_start parent);
                                       info_endPosition := positionAt d (node_end parent);
                                       info_key := k;
                                       info_value := getValue v |} ])
            | _, _ => Throws TypeError
            end
          else Returns nodes
      | NodeOf _ => Returns nodes
      end
  end.

(** [document] is [None] when the caller passes [undefined] or [null]. The
    first statement of the source, [if(!document){ this.promise.resolve([]); }],
    builds a promise and drops it: control goes on to the next statement,
    so it leaves no trace here. *)
Definition findNodes (document : option TextDocument) (yamlDocument : YAMLDocument)
    (key : string) : Completion (list YamlNodeInfo) :=
  match documents yamlDocument with
  | [] => Returns []
  | jsonDocument :: _ =>
      visit (findNodesVisitor document (root jsonDocument) key)
            [] (root jsonDocument) (Returns [])
  end.

(** ** [getNodePropertyValues] *)

(** The walk [while (node !== null && !(node instanceof ObjectASTNode))
    node = node.parent], from the node at [r]. *)
Fixpoint enclosingObject (rootNode : ASTNode) (r : NodeRef) : option ASTNode :=
  match node_at rootNode r with
  | Some (NodeOf (ObjectASTNode s e ps)) => Some (ObjectASTNode s e ps)
  | _ =>
      match r with
      | [] => None
      | _ :: par => enclosingObject rootNode par
      end
  end.

(** [p => p.key.value === propertyName] *)
Definition hasKey (name : string) (p : PropertyASTNode) : bool :=
  bool_decide (prop_key p = name).

(** [let valueMap = {}] and
    [forEach(p => { valueMap[p.key.value] = p.value.getValue(); })] *)
Definition collectValues (ps : list PropertyASTNode) : JSObject :=
  foldl (fun valueMap p => assignMember valueMap (prop_key p) (getValue (prop_value p)))
        emptyObject ps.

Definition getNodePropertyValues (document : option TextDocument)
    (yamlDocument : YAMLDocument) (position : Position) (propertyName : string)
    : YamlNodePropertyValues :=
  match document with
  | None => {| values := None |}
  | Some d =>
      let offset := offsetAt d position in
      match documents yamlDocument with
      | [] => {| values := None |}
      | jsonDocument :: _ =>
          match getNodeFromOffset jsonDocument offset
                ≫= enclosingObject (root jsonDocument) with
          | None => {| values := None |}
          | Some node =>
              let propertiesArray :=
                List.filter (hasKey propertyName) (default [] (propertiesOf node)) in
              match propertiesArray with
              | [single] =>
                  let valueMap :=
                    match propertiesOf (prop_value single) with
                    | Some parameterValueArray => collectValues parameterValueArray
                    | None => emptyObject
                    end in
                  {| values := Some valueMap |}
              | _ => {| values := None |}
              end
          end
      end
  end.

(** ** [YamlObjectNode] and the flatten pass *)

(** The scalar members of a [YamlObjectNode]. [isArray?: boolean] is only
    ever written as [true] and only tested for truthiness, so a missing
    member is [false]. [origin] is not a member of the JavaScript object: it
    names the AST node the outline node was made from ([None] for the
    synthetic root) and stands for the identity of the object. *)
Record Fields : Type := mkFields {
  origin : option NodeRef;
  f_key : string;
  f_value : Value;
  f_startPosition : Position;
  f_endPosition : Position;
  f_isArray : bool
}.

Inductive YamlObjectNode : Type :=
| mkYamlObjectNode (fields : Fields) (children : list YamlObjectNode).

Definition fields (node : YamlObjectNode) : Fields :=
  match node with mkYamlObjectNode f _ => f end.
Definition children (node : YamlObjectNode) : list YamlObjectNode :=
  match node with mkYamlObjectNode _ cs => cs end.
Definition key (node : YamlObjectNode) : string := f_key (fields node).
Definition value (node : YamlObjectNode) : Value := f_value (fields node).
Definition startPosition (node : YamlObjectNode) : Position :=
  f_startPosition (fields node).
Definition endPosition (node : YamlObjectNode) : Position :=
  f_endPosition (fields node).
Definition isArray (node : YamlObjectNode) : bool := f_isArray (fields node).

(** [node.children = cs] *)
Definition setChildren (node : YamlObjectNode) (cs : list YamlObjectNode)
    : YamlObjectNode :=
  mkYamlObjectNode (fields node) cs.

(** One turn of [for (let i = 0; i < node.children.length; ++i)]. The state
    is the array [node.children], whose elements the loop mutates, and
    [newChildren], kept as indices into that array because it holds
    references to the same objects: a child pushed at turn [i] still
    receives the children appended to it at turn [i + 1]. *)
Definition mergeStep (st : list YamlObjectNode * list nat) (i : nat)
    : list YamlObjectNode * list nat :=
  let '(cs, newChildren) := st in
  match cs !! i with
  | None => st
  | Some ci =>
      if isArray ci && negb (i =? 0)%nat then
        match cs !! (i - 1)%nat with
        | Some prev =>
            (<[(i - 1)%nat := setChildren prev (children prev ++ children ci)]> cs,
             newChildren)
        | None => st
        end
      else (cs, newChildren ++ [i])
  end.

Definition mergeLoop (cs : list YamlObjectNode) : list YamlObjectNode :=
  let '(cs', newChildren) := foldl mergeStep (cs, []) (seq 0 (length cs)) in
  omap (fun i => cs' !! i) newChildren.

(** [_flattenArrays]: the children are flattened first
    ([node.children.forEach(this._flattenArrays)]), then a single array
    child is replaced by its children, and otherwise the merge loop runs.
    The outline is a tree (no object is the child of two nodes), so the
    in-place update of the source is the rebuilding of the node here. *)
Fixpoint _flattenArrays (node : YamlObjectNode) : YamlObjectNode :=
  match node with
  | mkYamlObjectNode f cs =>
      let flattened := List.map _flattenArrays cs in
      let newChildren :=
        match flattened with
        | [only] => if isArray only then children only else mergeLoop flattened
        | _ => mergeLoop flattened
        end in
      mkYamlObjectNode f newChildren
  end.

(** ** [getObjectTree], pass 1 *)

(** The outline objects while they are built: [nodeMap] holds each object
    under its id, and an object's [children] array holds references to
    other objects, here their ids. *)
Record OutlineObject : Type := mkOutlineObject {
  o_fields : Fields;
  o_children : list nat
}.

(** The mutable state of one build: the [tempId] tags written on the AST
    nodes of the document (keyed by node), [nodeMap], the [children] of
    [root] and [currentId]. *)
Record BuildState : Type := mkBuildState {
  tempId : gmap NodeRef nat;
  nodeMap : gmap nat OutlineObject;
  rootChildren : list nat;
  currentId : nat
}.

(** [parentObject = node.parent; while (parentObject &&
    !nodeMap[parentObject.tempId]) parentObject = parentObject.parent]: the
    result is [parentObject.tempId] of the ancestor the loop stops at. *)
Fixpoint recognizedAncestor (tags : gmap NodeRef nat)
    (objects : gmap nat OutlineObject) (r : NodeRef) : option nat :=
  match r with
  | [] => None
  | _ :: par =>
      match tags !! par with
      | Some t =>
          match objects !! t with
          | Some _ => Some t
          | None => recognizedAncestor tags objects par
          end
      | None => recognizedAncestor tags objects par
      end
  end.

(** [nodeMap[id].children.push(yamlNode)] *)
Definition pushChild (id yamlNode : nat) (objects : gmap nat OutlineObject)
    : gmap nat OutlineObject :=
  match objects !! id with
  | Some o => <[id := mkOutlineObject (o_fields o) (o_children o ++ [yamlNode])]> objects
  | None => objects
  end.

(** The common tail of both branches: take the next id, tag the AST node,
    record the new object and push it onto its parent or onto [root]. *)
Definition attach (r : NodeRef) (parentObject : option nat) (f : Fields)
    (st : BuildState) : BuildState :=
  let nodeId := currentId st in
  let objects := <[nodeId := mkOutlineObject f []]> (nodeMap st) in
  {| tempId := <[r := nodeId]> (tempId st);
     nodeMap := match parentObject with
                | Some t => pushChild t nodeId objects
                | None => objects
                end;
     rootChildren := match parentObject with
                     | Some _ => rootChildren st
                     | None => rootChildren st ++ [nodeId]
                     end;
     currentId := S nodeId |}.

Definition recognizedKey (k : string) : bool :=
  bool_decide (k = "stage") || bool_decide (k = "task") || bool_decide (k = "script")
  || bool_decide (k = "job") || bool_decide (k = "deployment").

Definition recognizedLocation (location : Segment) : option string :=
  match location with
  | Field name =>
      if bool_decide (name = "stages") || bool_decide (name = "steps")
         || bool_decide (name = "jobs")
      then Some name else None
  | Index _ => None
  end.

(** [nodeMap[parentObject.tempId].key === "task"], false when the walk found
    no ancestor. *)
Definition underTask (objects : gmap nat OutlineObject) (parentObject : option nat)
    : bool :=
  match parentObject ≫= (objects !!.) with
  | Some o => bool_decide (f_key (o_fields o) = "task")
  | None => false
  end.

(** The callback handed to [jsonDocument.visit]. *)
Definition outlineVisitor (document : TextDocument) (rootNode : ASTNode)
    (r : NodeRef) (node : Node) (st : BuildState) : BuildState :=
  match node with
  | PropOf (Property s e primaryKey v) =>
      if negb (recognizedKey primaryKey) then st
      else
        let parentObject := recognizedAncestor (tempId st) (nodeMap st) r in
        if underTask (nodeMap st) parentObject then st
        else
          let parentObject2 := parentRef r ≫= enclosingObject rootNode in
          let '(from, to) :=
            match parentObject2 with
            | Some o => (ast_start o, ast_end o)
            | None => (s, e)
            end in
          attach r parentObject
            {| origin := Some r;
               f_key := primaryKey;
               f_value := getValue v;
               f_startPosition := positionAt document from;
               f_endPosition := positionAt document to;
               f_isArray := false |} st
  | NodeOf (ArrayASTNode s e location _) =>
      match recognizedLocation location with
      | None => st
      | Some name =>
          let parentObject := recognizedAncestor (tempId st) (nodeMap st) r in
          attach r parentObject
            {| origin := Some r;
               f_key := name;
               f_value := VNull;
               f_startPosition := positionAt document s;
               f_endPosition := positionAt document e;
               f_isArray := true |} st
      end
  | NodeOf _ => st
  end.

(** The outline object with id [id] and everything below it, read off the
    store as a tree. [fuel] bounds the depth; [None] when it runs out or a
    reference dangles. *)
Fixpoint objectTree (fuel : nat) (objects : gmap nat OutlineObject) (id : nat)
    : option YamlObjectNode :=
  match fuel with
  | 0 => None
  | S fuel' =>
      o ← objects !! id;
      cs ← mapM (objectTree fuel' objects) (o_children o);
      Some (mkYamlObjectNode (o_fields o) cs)
  end.

Definition rootFields (document : TextDocument) (rootNode : ASTNode) : Fields :=
  {| origin := None;
     f_key := "root";
     f_value := VStr "root";
     f_startPosition := positionAt document (ast_start rootNode);
     f_endPosition := positionAt document (ast_end rootNode);
     f_isArray := false |}.

Definition initialState (tags : gmap NodeRef nat) : BuildState :=
  {| tempId := tags; nodeMap := ∅; rootChildren := []; currentId := 0 |}.

(** Pass 1: the state after [jsonDocument.visit(...)]. *)
Definition buildState (document : TextDocument) (jsonDocument : JSONDocument)
    (tags : gmap NodeRef nat) : BuildState :=
  visit (outlineVisitor document (root jsonDocument)) [] (root jsonDocument)
        (initialState tags).

(** [root] as pass 1 leaves it. *)
Definition provisionalTree (document : TextDocument) (jsonDocument : JSONDocument)
    (st : BuildState) : option YamlObjectNode :=
  mkYamlObjectNode (rootFields document (root jsonDocument))
    <$> mapM (objectTree (S (currentId st)) (nodeMap st)) (rootChildren st).

(** [getObjectTree]. [tags] are the [tempId] members found on the AST nodes
    of the first document when the call starts (none on a tree fresh from
    the parser); the call returns the outline together with the tags it
    leaves behind. With no document in [yamlDocument.documents],
    [jsonDocument] is [null] and [jsonDocument.root] throws; so does
    [document.positionAt] on a missing [document]. The last [Throws] stands
    for a store that is no tree, which [provisionalTree_is_Some] excludes. *)
Definition getObjectTree (document : option TextDocument)
    (yamlDocument : YAMLDocument) (tags : gmap NodeRef nat)
    : Completion (YamlObjectNode * gmap NodeRef nat) :=
  match documents yamlDocument with
  | [] => Throws TypeError
  | jsonDocument :: _ =>
      match document with
      | None => Throws TypeError
      | Some d =>
          let st := buildState d jsonDocument tags in
          match provisionalTree d jsonDocument st with
          | Some root => Returns (_flattenArrays root, tempId st)
          | None => Throws TypeError
          end
      end
  end.

(** ** Vocabulary of the statements *)

(** Some property at or below the node has the key. *)
Fixpoint mentions (key : string) (n : ASTNode) : bool :=
  match n with
  | ObjectASTNode _ _ ps => existsb (mentionsProperty key) ps
  | ArrayASTNode _ _ _ items => existsb (mentions key) items
  | ValueASTNode _ _ _ => false
  end
with mentionsProperty (key : string) (p : PropertyASTNode) : bool :=
  match p with
  | Property _ _ k v => bool_decide (k = key) || mentions key v
  end.

(** Without a document the walk of [findNodes] throws at the first property
    with the requested key, and otherwise changes nothing. *)
Definition throwsOn (hit : bool) (acc : Completion (list YamlNodeInfo))
    : Completion (list YamlNodeInfo) :=
  match acc with
  | Throws e => Throws e
  | Returns nodes => if hit then Throws TypeError else Returns nodes
  end.

(** The scalar members of every node of an outline, in pre-order. *)
Fixpoint labels (node : YamlObjectNode) : list Fields :=
  match node with
  | mkYamlObjectNode f cs => f :: flat_map labels cs
  end.

(** The nodes strictly below the top of an outline. *)
Definition below (node : YamlObjectNode) : list Fields :=
  flat_map labels (children node).

(** What the merge loop computes, by recursion on the array: a child that
    is an array wrapper and not the first is dropped; every other child is
    kept and receives the children of the wrapper right after it. *)
Fixpoint absorb (first : bool) (cs : list YamlObjectNode) : list YamlObjectNode :=
  match cs with
  | [] => []
  | c :: rest =>
      let c' := match rest with
                | w :: _ => if isArray w then setChildren c (children c ++ children w) else c
                | [] => c
                end in
      if isArray c && negb first then absorb false rest
      else c' :: absorb false rest
  end.

(** No node of the outline is an array wrapper. *)
Definition wrapperFree (node : YamlObjectNode) : bool :=
  forallb (fun f => negb (f_isArray f)) (labels node).

(** The node is no array wrapper. *)
Definition plain (f : Fields) : Prop := f_isArray f = false.

(** Every array wrapper below the top is the first of two or more
    siblings: no node has a wrapper as its only child, and none has a
    wrapper after its first child. *)
Fixpoint settled (node : YamlObjectNode) : bool :=
  match node with
  | mkYamlObjectNode _ cs =>
      match cs with
      | [only] => negb (isArray only)
      | _ => true
      end
      && forallb (fun c => negb (isArray c)) (drop 1 cs)
      && forallb settled cs
  end.

(** [pickChild f j l]: the list has a [j]-th element, and it satisfies [f]. *)
Section PickChild.
Context {A : Type} (f : A -> bool).

Fixpoint pickChild (j : nat) (l : list A) : bool :=
  match l, j with
  | [], _ => false
  | c :: _, 0 => f c
  | _ :: l', S j' => pickChild j' l'
  end.
End PickChild.

(** An array of a recognized location gets an outline node of its own, so
    below it the nearest outline node is no task. *)
Definition sealedBelowArray (sealed : bool) (location : Segment) : bool :=
  match recognizedLocation location with
  | Some _ => false
  | None => sealed
  end.

(** [shielded sealed n path]: following [path] (outermost index first) down
    from [n] ends at a property with a recognized key, and on the way a
    property with key [task] was entered with no array of a recognized
    location after it. [sealed] says whether that already holds of the way
    to [n]. *)
Fixpoint shielded (sealed : bool) (n : ASTNode) (path : list nat) : bool :=
  match n, path with
  | ObjectASTNode _ _ ps, i :: rest =>
      pickChild (fun p => shieldedProperty sealed p rest) i ps
  | ArrayASTNode _ _ location items, i :: rest =>
      pickChild (fun c => shielded (sealedBelowArray sealed location) c rest) i items
  | _, _ => false
  end
with shieldedProperty (sealed : bool) (p : PropertyASTNode) (rest : list nat) : bool :=
  match p with
  | Property _ _ k v =>
      match rest with
      | [] => sealed && recognizedKey k
      | 0 :: rest' => shielded (sealed || bool_decide (k = "task")) v rest'
      | S _ :: _ => false
      end
  end.

(** The node at [q] is a property with a recognized key. *)
Definition recognizedProperty (rootNode : ASTNode) (q : NodeRef) : Prop :=
  exists s e k v,
    node_at rootNode q = Some (PropOf (Property s e k v)) /\ recognizedKey k = true.

(** The node at [t] is a property with key [task]. *)
Definition taskProperty (rootNode : ASTNode) (t : NodeRef) : Prop :=
  exists s e v, node_at rootNode t = Some (PropOf (Property s e "task" v)).

(** None of the nodes from [t] down to [q] is an array of a recognized
    location. *)
Definition noRecognizedArray (rootNode : ASTNode) (t q : NodeRef) : Prop :=
  forall a s e location items,
    t `suffix_of` a -> a `suffix_of` q ->
    node_at rootNode a = Some (NodeOf (ArrayASTNode s e location items)) ->
    recognizedLocation location = None.

(** [q] lies strictly below a task property that is at or below [r], with
    no array of a recognized location between the two. *)
Definition insideTask (rootNode : ASTNode) (r q : NodeRef) : Prop :=
  exists t, r `suffix_of` t /\ t `suffix_of` q /\ t <> q
            /\ taskProperty rootNode t /\ noRecognizedArray rootNode t q.

(** Every tag on the AST names an object of [nodeMap]. *)
Definition tagsSound (st : BuildState) : Prop :=
  forall x t, tempId st !! x = Some t -> is_Some (nodeMap st !! t).

(** No node at or below [r] carries a tag. *)
Definition untagged (r : NodeRef) (st : BuildState) : Prop :=
  forall x, r `suffix_of` x -> tempId st !! x = None.

(** The ancestor walk from [r] ends at an object with key [task]. *)
Definition sealedAt (st : BuildState) (r : NodeRef) : Prop :=
  underTask (nodeMap st) (recognizedAncestor (tempId st) (nodeMap st) r) = true.

(** [nodeMap] only grows, and an object keeps its scalar members. *)
Definition objectsKept (objects objects' : gmap nat OutlineObject) : Prop :=
  forall id o, objects !! id = Some o ->
    exists o', objects' !! id = Some o' /\ o_fields o' = o_fields o.

(** The objects made between two states come from AST nodes at or below
    [r]. *)
Definition madeBelow (r : NodeRef) (st st' : BuildState) : Prop :=
  forall id o', nodeMap st' !! id = Some o' ->
    (exists o, nodeMap st !! id = Some o /\ o_fields o = o_fields o')
    \/ (exists x, origin (o_fields o') = Some x /\ r `suffix_of` x).

(** The tags written between two states are on nodes at or below [r]. *)
Definition taggedBelow (r : NodeRef) (st st' : BuildState) : Prop :=
  forall x, ~ r `suffix_of` x -> tempId st' !! x = tempId st !! x.

(** Ids are handed out in order: every object of [nodeMap] and every
    reference to one lies below [currentId], and a child has a larger id
    than its parent. *)
Definition idsOrdered (st : BuildState) : Prop :=
  (forall id, is_Some (nodeMap st !! id) <-> id < currentId st)
  /\ (forall id o c, nodeMap st !! id = Some o -> c ∈ o_children o ->
        id < c < currentId st)
  /\ (forall c, c ∈ rootChildren st -> c < currentId st).

(** What an outline node says about the AST node it comes from: a wrapper
    has no value and an Array behind it, every other node has the key and
    the read-out of the Property behind it. *)
Definition faithful (rootNode : ASTNode) (f : Fields) : Prop :=
  exists r, origin f = Some r /\
    if f_isArray f then
      f_value f = VNull /\
      exists s e items, node_at rootNode r
                        = Some (NodeOf (ArrayASTNode s e (Field (f_key f)) items))
    else
      exists s e v, node_at rootNode r = Some (PropOf (Property s e (f_key f) v))
                    /\ f_value f = getValue v.

(** Every object of [nodeMap] is faithful to its AST node. *)
Definition objectsFaithful (rootNode : ASTNode) (st : BuildState) : Prop :=
  forall id o, nodeMap st !! id = Some o -> faithful rootNode (o_fields o).

(** The AST node behind every object of [nodeMap] carries a tag. *)
Definition originsTagged (st : BuildState) : Prop :=
  forall id o, nodeMap st !! id = Some o ->
    exists x, origin (o_fields o) = Some x /\ is_Some (tempId st !! x).

(** How the state after visiting at or below [r] relates to the state
    before. *)
Record grown (rootNode : ASTNode) (r : NodeRef) (st st' : BuildState) : Prop := {
  grown_ids : idsOrdered st';
  grown_currentId : currentId st <= currentId st';
  grown_kept : objectsKept (nodeMap st) (nodeMap st');
  grown_made : madeBelow r st st';
  grown_tagged : taggedBelow r st st';
  grown_sound : tagsSound st -> tagsSound st';
  grown_faithful : objectsFaithful rootNode st -> objectsFaithful rootNode st';
  grown_origins : originsTagged st -> originsTagged st'
}.

Definition grows (rootNode : ASTNode) (r : NodeRef) (st st' : BuildState) : Prop :=
  idsOrdered st -> grown rootNode r st st'.

(** The state after visiting the children of [r] whose index satisfies
    [among]: tags are written and objects made only at or below those
    children. *)
Record grownAmong (rootNode : ASTNode) (r : NodeRef) (among : nat -> Prop)
    (st st' : BuildState) : Prop := {
  among_grown : grown rootNode r st st';
  among_tagged : forall x, (forall j, among j -> ~ (j :: r) `suffix_of` x) ->
                           tempId st' !! x = tempId st !! x;
  among_made : forall id o', nodeMap st' !! id = Some o' ->
    (exists o, nodeMap st !! id = Some o /\ o_fields o = o_fields o')
    \/ (exists x j, among j /\ origin (o_fields o') = Some x /\ (j :: r) `suffix_of` x)
}.

(** Between the two states no object was made from the AST node [q]. *)
Definition noneMadeAt (q : NodeRef) (st st' : BuildState) : Prop :=
  forall id o', nodeMap st' !! id = Some o' -> origin (o_fields o') = Some q ->
    is_Some (nodeMap st !! id).

(** With [tags] put in place of the tags of the state. *)
Definition withTags (tags : gmap NodeRef nat) (st : BuildState) : BuildState :=
  {| tempId := tags; nodeMap := nodeMap st;
     rootChildren := rootChildren st; currentId := currentId st |}.

(** ** Vocabulary of the further statements *)

(** The properties at or below a node in document order, each with the start
    and end of the Object that holds it. *)
Fixpoint propertiesIn (n : ASTNode) : list (Z * Z * PropertyASTNode) :=
  match n with
  | ObjectASTNode s e ps => flat_map (fun p => (s, e, p) :: propertiesBelow p) ps
  | ArrayASTNode _ _ _ items => flat_map propertiesIn items
  | ValueASTNode _ _ _ => []
  end
with propertiesBelow (p : PropertyASTNode) : list (Z * Z * PropertyASTNode) :=
  match p with
  | Property _ _ _ v => propertiesIn v
  end.

(** The entry [findNodes] makes for a property held by an Object from [s]
    to [e]. *)
Definition occurrence (d : TextDocument) (held : Z * Z * PropertyASTNode)
    : YamlNodeInfo :=
  let '(s, e, p) := held in
  {| info_startPosition := positionAt d s;
     info_endPosition := positionAt d e;
     info_key := prop_key p;
     info_value := getValue (prop_value p) |}.

(** The property held has the key. *)
Definition named (key : string) (held : Z * Z * PropertyASTNode) : bool :=
  hasKey key held.2.

(** The children the merge loop keeps: the first, and every later one that
    is no array wrapper. *)
Definition keptChildren (cs : list YamlObjectNode) : list YamlObjectNode :=
  take 1 cs ++ List.filter (fun c => negb (isArray c)) (drop 1 cs).

(** What a dropped wrapper hands to the child before it. *)
Definition handedOver (first : bool) (cs : list YamlObjectNode) : list Fields :=
  match cs with
  | c :: _ => if isArray c && negb first then below c else []
  | [] => []
  end.

(** No array wrapper comes right after a wrapper that the merge loop drops:
    among the children of a node, a wrapper at index 2 or more is not
    preceded by a wrapper. *)
Fixpoint wrappersApartIn (first : bool) (cs : list YamlObjectNode) : bool :=
  match cs with
  | [] => true
  | c :: rest =>
      (if isArray c && negb first
       then match rest with
            | w :: _ => negb (isArray w)
            | [] => true
            end
       else true)
      && wrappersApartIn false rest
  end.

Fixpoint wrappersApart (node : YamlObjectNode) : bool :=
  match node with
  | mkYamlObjectNode _ cs =>
      wrappersApartIn true cs && forallb wrappersApart cs
  end.

(** Every object of [nodeMap] satisfies [P]. *)
Definition objectsAll (P : Fields -> Prop) (st : BuildState) : Prop :=
  forall id o, nodeMap st !! id = Some o -> P (o_fields o).

(** [f] holds the scalar members of the object the visitor makes when it
    visits [node] at [r] and accepts it. *)
Definition madeFrom (d : TextDocument) (rootNode : ASTNode) (r : NodeRef)
    (node : Node) (f : Fields) : Prop :=
  match node with
  | PropOf (Property s e k v) =>
      recognizedKey k = true
      /\ exists from to,
           (from, to) = match parentRef r ≫= enclosingObject rootNode with
                        | Some o => (ast_start o, ast_end o)
                        | None => (s, e)
                        end
           /\ f = {| origin := Some r;
                     f_key := k;
                     f_value := getValue v;
                     f_startPosition := positionAt d from;
                     f_endPosition := positionAt d to;
                     f_isArray := false |}
  | NodeOf (ArrayASTNode s e location _) =>
      exists name,
        recognizedLocation location = Some name
        /\ f = {| origin := Some r;
                  f_key := name;
                  f_value := VNull;
                  f_startPosition := positionAt d s;
                  f_endPosition := positionAt d e;
                  f_isArray := true |}
  | NodeOf _ => False
  end.

(** The key of an outline node is of the fixed vocabulary: a location for a
    wrapper, a property key for every other node. *)
Definition keyInVocabulary (f : Fields) : Prop :=
  if f_isArray f then f_key f ∈ ["stages"; "steps"; "jobs"]
  else f_key f ∈ ["stage"; "task"; "script"; "job"; "deployment"].

(** The span of an outline node: that of the Array behind a wrapper, and
    for every other node that of the Object holding the property behind
    it. *)
Definition spanOfHolder (d : TextDocument) (rootNode : ASTNode) (f : Fields) : Prop :=
  exists r, origin f = Some r /\
    if f_isArray f then
      exists s e location items,
        node_at rootNode r = Some (NodeOf (ArrayASTNode s e location items))
        /\ f_startPosition f = positionAt d s /\ f_endPosition f = positionAt d e
    else
      exists i holder s e ps,
        r = i :: holder
        /\ node_at rootNode holder = Some (NodeOf (ObjectASTNode s e ps))
        /\ f_startPosition f = positionAt d s /\ f_endPosition f = positionAt d e.

(** The node at [x] is a property with a recognized key or an array of a
    recognized location. *)
Definition recognizedNode (rootNode : ASTNode) (x : NodeRef) : Prop :=
  recognizedProperty rootNode x
  \/ exists s e location items,
       node_at rootNode x = Some (NodeOf (ArrayASTNode s e location items))
       /\ is_Some (recognizedLocation location).

(** No property at or below the node has a recognized key, and no array a
    recognized location. *)
Fixpoint unrecognized (n : ASTNode) : bool :=
  match n with
  | ObjectASTNode _ _ ps => forallb unrecognizedProperty ps
  | ArrayASTNode _ _ location items =>
      negb (bool_decide (is_Some (recognizedLocation location)))
      && forallb unrecognized items
  | ValueASTNode _ _ _ => true
  end
with unrecognizedProperty (p : PropertyASTNode) : bool :=
  match p with
  | Property _ _ k v => negb (recognizedKey k) && unrecognized v
  end.

(** What the children of the node at [r] contribute, left to right. *)
Section GatherChildren.
Context {A B : Type} (f : NodeRef -> A -> list B) (r : NodeRef).

Fixpoint gatherChildren (i : nat) (l : list A) : list B :=
  match l with
  | [] => []
  | c :: l' => f (i :: r) c ++ gatherChildren (S i) l'
  end.
End GatherChildren.

(** Pass 1 by recursion on the AST: the outline nodes that the nodes at or
    below [n] hang onto the nearest outline node above [n], in document
    order. [inTask] says whether that nearest outline node is a task. An
    array of a recognized location becomes a wrapper holding what its items
    contribute; a property with a recognized key that is not right inside a
    task becomes a node holding what its value contributes, with the span
    of the Object holding the property; every other node passes on what is
    below it. *)
Fixpoint sections (d : TextDocument) (inTask : bool) (r : NodeRef) (n : ASTNode)
    : list YamlObjectNode :=
  match n with
  | ObjectASTNode s e ps =>
      gatherChildren (sectionsOfProperty d inTask s e) r 0 ps
  | ArrayASTNode s e location items =>
      match recognizedLocation location with
      | Some name =>
          [ mkYamlObjectNode
              {| origin := Some r;
                 f_key := name;
                 f_value := VNull;
                 f_startPosition := positionAt d s;
                 f_endPosition := positionAt d e;
                 f_isArray := true |}
              (gatherChildren (sections d false) r 0 items) ]
      | None => gatherChildren (sections d inTask) r 0 items
      end
  | ValueASTNode _ _ _ => []
  end
with sectionsOfProperty (d : TextDocument) (inTask : bool) (from to : Z)
    (r : NodeRef) (p : PropertyASTNode) : list YamlObjectNode :=
  match p with
  | Property _ _ k v =>
      if recognizedKey k && negb inTask then
        [ mkYamlObjectNode
            {| origin := Some r;
               f_key := k;
               f_value := getValue v;
               f_startPosition := positionAt d from;
               f_endPosition := positionAt d to;
               f_isArray := false |}
            (sections d (bool_decide (k = "task")) (0 :: r) v) ]
      else sections d inTask (0 :: r) v
  end.

(** The object [c] of the store reads as the tree [t], with any fuel that
    reaches from [c] to [hi]. *)
Definition reads (objects : gmap nat OutlineObject) (hi c : nat)
    (t : YamlObjectNode) : Prop :=
  forall fuel, hi <= c + fuel -> objectTree fuel objects c = Some t.

(** [o.children.push(...top)] *)
Definition pushAll (top : list nat) (o : OutlineObject) : OutlineObject :=
  mkOutlineObject (o_fields o) (o_children o ++ top).

(** The walk from [st] to [st'] made the objects [top], which read as
    [trees], and pushed them onto [owner], or onto [root] without an owner;
    no other object that was there before has changed. *)
Record built (owner : option nat) (st st' : BuildState) (top : list nat)
    (trees : list YamlObjectNode) : Prop := {
  built_currentId : currentId st <= currentId st';
  built_old : forall id, id < currentId st ->
    nodeMap st' !! id
    = if decide (owner = Some id) then pushAll top <$> nodeMap st !! id
      else nodeMap st !! id;
  built_root : rootChildren st'
               = rootChildren st ++ match owner with Some _ => [] | None => top end;
  built_new : Forall (fun c => currentId st <= c < currentId st') top;
  built_trees : Forall2 (reads (nodeMap st') (currentId st')) top trees
}.

(** The outline node the walk from [r] hangs its objects onto, and whether
    it is a task. *)
Definition ownerAt (st : BuildState) (r : NodeRef) : option nat :=
  recognizedAncestor (tempId st) (nodeMap st) r.

Definition inTaskAt (st : BuildState) (r : NodeRef) : bool :=
  underTask (nodeMap st) (ownerAt st r).

(** The nodes of the trees come from pairwise distinct AST nodes, all at
    or below [r]. *)
Definition originsBelow (r : NodeRef) (trees : list YamlObjectNode) : Prop :=
  NoDup (origin <$> flat_map labels trees)
  /\ Forall (fun o => exists x, o = Some x /\ r `suffix_of` x)
            (origin <$> flat_map labels trees).

(** The AST node at [x] is an Object. *)
Definition objectAt (rootNode : ASTNode) (x : NodeRef) : Prop :=
  exists s e ps, node_at rootNode x = Some (NodeOf (ObjectASTNode s e ps)).

(** [holder] is the nearest Object at or above the node at [r]. *)
Definition nearestObject (rootNode : ASTNode) (r holder : NodeRef) : Prop :=
  holder `suffix_of` r
  /\ objectAt rootNode holder
  /\ forall x, x `suffix_of` r -> length holder < length x -> ~ objectAt rootNode x.

(** ** Sample documents *)

Definition sampleDocument : TextDocument :=
  {| positionAt := fun offset => {| line := 0; character := Z.to_nat offset |};
     offsetAt := fun position => Z.of_nat (character position) |}.

Definition scalar (s e : Z) (text : string) : ASTNode :=
  ValueASTNode s e (VStr text).

(** [jobs: [{job: A}]] followed by [steps: [{script: e}]] at top level. *)
Definition twoArrays : ASTNode :=
  ObjectASTNode 0 40
    [ Property 0 16 "jobs"
        (ArrayASTNode 6 16 (Field "jobs")
           [ObjectASTNode 8 14 [Property 8 14 "job" (scalar 13 14 "A")]]);
      Property 17 40 "steps"
        (ArrayASTNode 24 40 (Field "steps")
           [ObjectASTNode 26 36 [Property 26 36 "script" (scalar 34 35 "e")]]) ].

(** [jobs: [{job: A}]] followed by [stage: s] at top level. *)
Definition jobsThenStage : ASTNode :=
  ObjectASTNode 0 30
    [ Property 0 16 "jobs"
        (ArrayASTNode 6 16 (Field "jobs")
           [ObjectASTNode 8 14 [Property 8 14 "job" (scalar 13 14 "A")]]);
      Property 17 25 "stage" (scalar 24 25 "s") ].

(** [stage: s], then [jobs: [{job: A}]], then [steps: [{script: e}]]. *)
Definition stageTwoArrays : ASTNode :=
  ObjectASTNode 0 50
    [ Property 0 8 "stage" (scalar 7 8 "s");
      Property 9 25 "jobs"
        (ArrayASTNode 15 25 (Field "jobs")
           [ObjectASTNode 17 23 [Property 17 23 "job" (scalar 22 23 "A")]]);
      Property 26 50 "steps"
        (ArrayASTNode 33 50 (Field "steps")
           [ObjectASTNode 35 45 [Property 35 45 "script" (scalar 43 44 "e")]]) ].

(** [task: {steps: [{script: x}]}]: a script inside an array inside a task. *)
Definition taskWithSteps : ASTNode :=
  ObjectASTNode 0 40
    [ Property 0 40 "task"
        (ObjectASTNode 6 40
           [ Property 6 40 "steps"
               (ArrayASTNode 13 40 (Field "steps")
                  [ObjectASTNode 15 30 [Property 15 30 "script" (scalar 23 24 "x")]]) ]) ].

(** [task: {script: x}]: a script directly inside a task. *)
Definition taskWithScript : ASTNode :=
  ObjectASTNode 0 30
    [ Property 0 30 "task"
        (ObjectASTNode 6 30 [Property 6 20 "script" (scalar 14 15 "x")]) ].

(** [stage: s] with [steps: [{task: A}, {task: B}]]. *)
Definition stageWithTasks : ASTNode :=
  ObjectASTNode 0 60
    [ Property 0 8 "stage" (scalar 7 8 "s");
      Property 9 60 "steps"
        (ArrayASTNode 16 60 (Field "steps")
           [ ObjectASTNode 18 30 [Property 18 30 "task" (scalar 24 25 "A")];
             ObjectASTNode 32 44 [Property 32 44 "task" (scalar 38 39 "B")] ]) ].

(** [steps: [{task: A}, {task: B}]] at top level. *)
Definition topLevelSteps : ASTNode :=
  ObjectASTNode 0 50
    [ Property 0 50 "steps"
        (ArrayASTNode 7 50 (Field "steps")
           [ ObjectASTNode 9 20 [Property 9 20 "task" (scalar 15 16 "A")];
             ObjectASTNode 22 33 [Property 22 33 "task" (scalar 28 29 "B")] ]) ].

(** [task: T] with [inputs: {a: 1, b: 2, a: 3}]. *)
Definition taskWithInputs : ASTNode :=
  ObjectASTNode 0 50
    [ Property 0 7 "task" (scalar 6 7 "T");
      Property 8 50 "inputs"
        (ObjectASTNode 16 50
           [ Property 16 20 "a" (ValueASTNode 19 20 (VNum 1));
             Property 22 26 "b" (ValueASTNode 25 26 (VNum 2));
             Property 28 32 "a" (ValueASTNode 31 32 (VNum 3)) ]) ].

(** [task: T] with [inputs: {__proto__: x, a: 1}]. *)
Definition taskProtoInputs : ASTNode :=
  ObjectASTNode 0 50
    [ Property 0 7 "task" (scalar 6 7 "T");
      Property 8 50 "inputs"
        (ObjectASTNode 16 50
           [ Property 16 28 "__proto__" (scalar 27 28 "x");
             Property 30 34 "a" (ValueASTNode 33 34 (VNum 1)) ]) ].

(** [x: {task: T, inputs: none}]: the task one level down. *)
Definition nestedScalarInputs : ASTNode :=
  ObjectASTNode 0 40
    [ Property 0 40 "x"
        (ObjectASTNode 4 40
           [ Property 4 11 "task" (scalar 10 11 "T");
             Property 12 24 "inputs" (scalar 20 24 "none") ]) ].

(** [task: T] with a scalar [inputs: none]. *)
Definition taskScalarInputs : ASTNode :=
  ObjectASTNode 0 30
    [ Property 0 7 "task" (scalar 6 7 "T");
      Property 8 20 "inputs" (scalar 16 20 "none") ].

(** [pool: p] with [variables: {a: 1}]: nothing of the vocabulary. *)
Definition noSections : ASTNode :=
  ObjectASTNode 0 30
    [ Property 0 7 "pool" (scalar 6 7 "p");
      Property 8 30 "variables"
        (ObjectASTNode 19 30 [Property 19 23 "a" (ValueASTNode 22 23 (VNum 1))]) ].

Definition single (n : ASTNode) : YAMLDocument :=
  {| documents := [ {| root := n |} ] |}.

Definition noDocuments : YAMLDocument := {| documents := [] |}.

(** * Properties *)

(** ** Induction on the AST *)

Lemma AST_mutual_ind (P : ASTNode -> Prop) (Q : PropertyASTNode -> Prop) :
  (forall s e ps, Forall Q ps -> P (ObjectASTNode s e ps)) ->
  (forall s e location items, Forall P items -> P (ArrayASTNode s e location items)) ->
  (forall s e v, P (ValueASTNode s e v)) ->
  (forall s e k v, P v -> Q (Property s e k v)) ->
  (forall n, P n) /\ (forall p, Q p).
Proof.
  intros HO HA HV HP.
  assert (Hn : forall n, P n).
  { fix IH 1. intros [s e ps|s e location items|s e v].
    - apply HO. induction ps as [|[s' e' k v] ps IHps]; constructor.
      + apply HP, IH.
      + exact IHps.
    - apply HA. induction items as [|c items IHitems]; constructor.
      + apply IH.
      + exact IHitems.
    - apply HV. }
  split; [exact Hn|]. intros [s e k v]. apply HP, Hn.
Qed.


(** ** No top-level document, missing [document] *)

Lemma findNodes_no_documents document key :
  findNodes document noDocuments key = Returns [].
Proof. reflexivity. Qed.

Lemma getNodePropertyValues_no_documents document position propertyName :
  values (getNodePropertyValues document noDocuments position propertyName) = None.
Proof. by destruct document. Qed.

(** C1. With an empty list of top-level documents [findNodes] returns the
    empty sequence and [getNodePropertyValues] the absent map, but
    [getObjectTree] does not return a root without children: it throws a
    [TypeError], whatever the document and the tags. *)
Theorem no_documents_outcomes :
  forall (document : option TextDocument) (tags : gmap NodeRef nat)
         (key propertyName : string) (position : Position),
    getObjectTree document noDocuments tags = Throws TypeError
    /\ findNodes document noDocuments key = Returns []
    /\ values (getNodePropertyValues document noDocuments position propertyName) = None.
Proof.
  intros document tags key propertyName position. split; [reflexivity|].
  split; [apply findNodes_no_documents|apply getNodePropertyValues_no_documents].
Qed.

Lemma throwsOn_orb a b acc : throwsOn b (throwsOn a acc) = throwsOn (a || b) acc.
Proof. by destruct acc, a, b. Qed.

Lemma eachChild_throwsOn {A} (f : NodeRef -> A -> _ -> _) (hit : A -> bool) r l :
  Forall (fun c => forall r acc, f r c acc = throwsOn (hit c) acc) l ->
  forall i acc, eachChild f r i l acc = throwsOn (existsb hit l) acc.
Proof.
  induction 1 as [|c l Hc _ IH]; intros i acc; simpl.
  - by destruct acc.
  - by rewrite IH, Hc, throwsOn_orb.
Qed.

Lemma visit_without_document_mutual rootNode key :
  (forall n r acc,
      visit (findNodesVisitor None rootNode key) r n acc = throwsOn (mentions key n) acc)
  /\ (forall p r acc,
        visitProperty (findNodesVisitor None rootNode key) r p acc
        = throwsOn (mentionsProperty key p) acc).
Proof.
  apply AST_mutual_ind.
  - intros s e ps IH r acc. simpl.
    rewrite (eachChild_throwsOn _ (mentionsProperty key)) by done. by destruct acc.
  - intros s e location items IH r acc. simpl.
    rewrite (eachChild_throwsOn _ (mentions key)) by done. by destruct acc.
  - intros s e v r acc. by destruct acc.
  - intros s e k v IH r acc. simpl. rewrite IH.
    destruct acc as [nodes|err]; simpl; [|done].
    destruct (decide (k = key)) as [->|Hne].
    + by rewrite bool_decide_eq_true_2.
    + by rewrite bool_decide_eq_false_2.
Qed.

(** C6. Called without a document, [findNodes] returns the empty sequence
    only when the first top-level document is missing or has no property
    with the requested key; when it has one, the walk reaches
    [document.positionAt] and throws, as for the key [job] on the sample
    with a stage and two arrays. *)
Theorem findNodes_missing_document_throws :
  (forall jsonDocument rest key,
      findNodes None {| documents := jsonDocument :: rest |} key
      = if mentions key (root jsonDocument) then Throws TypeError else Returns [])
  /\ findNodes None (single stageTwoArrays) "job" = Throws TypeError
  /\ (forall key, findNodes None noDocuments key = Returns []).
Proof.
  split; [|split; [vm_compute; reflexivity|reflexivity]].
  intros jsonDocument rest key. unfold findNodes. simpl.
  by rewrite (proj1 (visit_without_document_mutual (root jsonDocument) key)).
Qed.

(** ** [getNodePropertyValues] *)

Lemma enclosingObject_is_object rootNode r node :
  enclosingObject rootNode r = Some node ->
  exists s e ps, node = ObjectASTNode s e ps.
Proof.
  induction r as [|i par IH]; simpl.
  - destruct rootNode; intros [= <-]; eauto.
  - destruct (node_at rootNode par ≫= _) as [[[]|]|]; eauto.
    intros [= <-]; eauto.
Qed.

Lemma enclosingObject_unfold rootNode r :
  enclosingObject rootNode r
  = match node_at rootNode r with
    | Some (NodeOf (ObjectASTNode s e ps)) => Some (ObjectASTNode s e ps)
    | _ => match r with
           | [] => None
           | _ :: par => enclosingObject rootNode par
           end
    end.
Proof. by destruct r. Qed.

Lemma suffix_cons_cases {A} (x : list A) i par :
  x `suffix_of` i :: par -> x = i :: par \/ x `suffix_of` par.
Proof.
  destruct x as [|a l]; [right; apply suffix_nil|apply suffix_cons_inv].
Qed.

Lemma enclosingObject_nearest rootNode r :
  match enclosingObject rootNode r with
  | Some node =>
      exists holder,
        nearestObject rootNode r holder
        /\ node_at rootNode holder = Some (NodeOf node)
  | None => forall x, x `suffix_of` r -> ~ objectAt rootNode x
  end.
Proof.
  induction r as [|i par IH]; rewrite enclosingObject_unfold.
  - destruct (node_at rootNode []) as [[[s e ps|s e l items|s e v]|p]|] eqn:Hn.
    1: { exists []. split; [|done]. split; [done|]. split; [by exists s, e, ps|].
         intros x Hx Hlen. apply suffix_length in Hx. simpl in *. lia. }
    all: intros x Hx (s' & e' & ps' & Hobj);
      apply suffix_nil_inv in Hx as ->; congruence.
  - destruct (node_at rootNode (i :: par)) as [[[s e ps|s e l items|s e v]|p]|] eqn:Hn.
    1: { exists (i :: par). split; [|done]. split; [done|].
         split; [by exists s, e, ps|].
         intros x Hx Hlen. apply suffix_length in Hx. lia. }
    all: destruct (enclosingObject rootNode par) as [node|];
      [ destruct IH as (holder & (Hsuffix & Hobj & Hnearest) & Hnode);
        exists holder; split; [|done];
        split; [by apply suffix_cons_r|]; split; [done|];
        intros x Hx Hlen;
        apply suffix_cons_cases in Hx as [->|Hx]; [|by apply Hnearest];
        intros (s' & e' & ps' & Hobj'); congruence
      | intros x Hx;
        apply suffix_cons_cases in Hx as [->|Hx]; [|by apply IH];
        intros (s' & e' & ps' & Hobj'); congruence ].
Qed.

(** The walk of the source stops at the nearest Object at or above the
    cursor node. *)
Lemma nearestObject_enclosingObject rootNode r holder s e ps :
  nearestObject rootNode r holder ->
  node_at rootNode holder = Some (NodeOf (ObjectASTNode s e ps)) ->
  enclosingObject rootNode r = Some (ObjectASTNode s e ps).
Proof.
  intros (Hsuffix & Hobj & Hnearest) Hnode.
  pose proof (enclosingObject_nearest rootNode r) as Hwalk.
  destruct (enclosingObject rootNode r) as [node|]; [|by destruct (Hwalk holder)].
  destruct Hwalk as (holder' & (Hsuffix' & Hobj' & Hnearest') & Hnode').
  assert (Hlen : length holder = length holder').
  { destruct (Nat.lt_trichotomy (length holder) (length holder')) as [Hlt|[Heq|Hlt]];
      [by destruct (Hnearest holder')|done|by destruct (Hnearest' holder)]. }
  destruct Hsuffix as [k Hk], Hsuffix' as [k' Hk'].
  assert (holder = holder') as <-.
  { rewrite Hk in Hk'. by apply app_inj_2 in Hk' as [_ ?]. }
  congruence.
Qed.

Lemma collectValues_snoc ps p :
  collectValues (ps ++ [p])
  = assignMember (collectValues ps) (prop_key p) (getValue (prop_value p)).
Proof. unfold collectValues. by rewrite foldl_app. Qed.

Lemma filter_snoc {A} (f : A -> bool) l x :
  List.filter f (l ++ [x]) = List.filter f l ++ (if f x then [x] else []).
Proof. by rewrite List.filter_app. Qed.

(** An assignment under another name leaves a property as it is, and an
    assignment under a name that is not [__proto__] binds it. *)
Lemma assignMember_own_ne o k v k' :
  k <> k' -> own (assignMember o k v) !! k' = own o !! k'.
Proof.
  intros Hne. unfold assignMember.
  destruct (_ && _ && _); [by destruct (isObjectOrNull v)|].
  cbn [own]. by rewrite lookup_insert_ne.
Qed.

Lemma assignMember_own_eq o k v :
  k <> "__proto__" -> own (assignMember o k v) !! k = Some v.
Proof.
  intros Hne. unfold assignMember.
  rewrite (bool_decide_eq_false_2 _ Hne). cbn [andb own].
  by rewrite lookup_insert_eq.
Qed.

(** Under every name but [__proto__], the value bound is the read-out of
    the last property carrying the name. *)
Lemma collectValues_lookup ps k :
  k <> "__proto__" ->
  own (collectValues ps) !! k
  = (fun p => getValue (prop_value p)) <$> last (List.filter (hasKey k) ps).
Proof.
  intros Hk. induction ps as [|p ps IH] using rev_ind; [done|].
  rewrite collectValues_snoc, filter_snoc. unfold hasKey at 2.
  destruct (decide (prop_key p = k)) as [->|Hne].
  - rewrite bool_decide_eq_true_2 by done.
    rewrite assignMember_own_eq by done. by rewrite last_snoc.
  - rewrite bool_decide_eq_false_2 by done.
    rewrite assignMember_own_ne by done. by rewrite app_nil_r.
Qed.

(** While every property named [__proto__] has a value the setter ignores,
    the object keeps its prototype and gets no own property of that name:
    those properties leave no trace. *)
Lemma collectValues_scalar_proto ps :
  Forall (fun p => prop_key p = "__proto__" ->
                   isObjectOrNull (getValue (prop_value p)) = false) ps ->
  prototype (collectValues ps) = ObjectPrototype
  /\ own (collectValues ps) !! "__proto__" = None
  /\ collectValues ps
     = collectValues (List.filter (fun p => negb (hasKey "__proto__" p)) ps).
Proof.
  induction ps as [|p ps IH] using rev_ind; [done|].
  rewrite Forall_app, Forall_singleton. intros [Hps Hp].
  destruct (IH Hps) as (Hproto & Hown & Heq).
  rewrite filter_snoc, collectValues_snoc. cbn beta.
  change (hasKey "__proto__" p) with (bool_decide (prop_key p = "__proto__")).
  destruct (decide (prop_key p = "__proto__")) as [Hkey|Hne].
  - rewrite bool_decide_eq_true_2 by done. cbn [negb]. rewrite app_nil_r, <- Heq.
    unfold assignMember. rewrite Hkey, Hown, Hproto, (Hp Hkey).
    rewrite bool_decide_eq_true_2 by done.
    rewrite (bool_decide_eq_false_2 (is_Some None)) by (by intros [? ?]).
    done.
  - rewrite bool_decide_eq_false_2 by done. cbn [negb].
    rewrite collectValues_snoc, <- Heq.
    unfold assignMember. rewrite (bool_decide_eq_false_2 _ Hne). cbn [andb].
    split; [done|]. split; [|done]. cbn [own]. by rewrite lookup_insert_ne.
Qed.

Lemma getNodePropertyValues_unfold d y jsonDocument rest position propertyName s e ps :
  documents y = jsonDocument :: rest ->
  getNodeFromOffset jsonDocument (offsetAt d position)
    ≫= enclosingObject (root jsonDocument) = Some (ObjectASTNode s e ps) ->
  values (getNodePropertyValues (Some d) y position propertyName)
  = match List.filter (hasKey propertyName) ps with
    | [p] => Some (match propertiesOf (prop_value p) with
                   | Some qs => collectValues qs
                   | None => emptyObject
                   end)
    | _ => None
    end.
Proof.
  intros Hdocs Hobj. unfold getNodePropertyValues. rewrite Hdocs, Hobj. simpl.
  destruct (List.filter (hasKey propertyName) ps) as [|p [|p' l]]; done.
Qed.

(** The same around a cursor on the node at [r], with [holder] the nearest
    Object at or above it. *)
Lemma getNodePropertyValues_at_nearest d y jsonDocument rest position propertyName
    r holder s e ps :
  documents y = jsonDocument :: rest ->
  getNodeFromOffset jsonDocument (offsetAt d position) = Some r ->
  nearestObject (root jsonDocument) r holder ->
  node_at (root jsonDocument) holder = Some (NodeOf (ObjectASTNode s e ps)) ->
  values (getNodePropertyValues (Some d) y position propertyName)
  = match List.filter (hasKey propertyName) ps with
    | [p] => Some (match propertiesOf (prop_value p) with
                   | Some qs => collectValues qs
                   | None => emptyObject
                   end)
    | _ => None
    end.
Proof.
  intros Hdocs Hr Hnearest Hnode.
  eapply getNodePropertyValues_unfold; [exact Hdocs|].
  rewrite Hr. exact (nearestObject_enclosingObject _ _ _ _ _ _ Hnearest Hnode).
Qed.

(** C7. Around a cursor on a node with an Object at or above it, take the
    nearest such Object: unless exactly one of its properties is named
    [propertyName] the result is the absent map; with exactly one, whose
    value is no Object or an Object without properties, the result is the
    empty mapping, which is not the absent map. *)
Theorem getNodePropertyValues_absent_or_empty :
  forall d y jsonDocument rest position propertyName r holder s e ps,
    documents y = jsonDocument :: rest ->
    getNodeFromOffset jsonDocument (offsetAt d position) = Some r ->
    nearestObject (root jsonDocument) r holder ->
    node_at (root jsonDocument) holder = Some (NodeOf (ObjectASTNode s e ps)) ->
    let result := values (getNodePropertyValues (Some d) y position propertyName) in
    (length (List.filter (hasKey propertyName) ps) <> 1 -> result = None)
    /\ (forall p, List.filter (hasKey propertyName) ps = [p] ->
          propertiesOf (prop_value p) = None \/ propertiesOf (prop_value p) = Some [] ->
          result = Some emptyObject /\ result <> None).
Proof.
  intros d y jsonDocument rest position propertyName r holder s e ps
    Hdocs Hr Hnearest Hnode result.
  subst result.
  rewrite (getNodePropertyValues_at_nearest _ _ _ _ _ _ _ _ _ _ _
             Hdocs Hr Hnearest Hnode).
  split.
  - destruct (List.filter (hasKey propertyName) ps) as [|p [|p' l]]; simpl; done.
  - intros p -> [-> | ->]; done.
Qed.

(** In [x: {task: T, inputs: none}] the cursor is on the key [task]: the
    nearest Object is the value of [x], not the root. *)
Lemma getNodePropertyValues_absent_or_empty_witness :
  values (getNodePropertyValues (Some sampleDocument) (single nestedScalarInputs)
            {| line := 0; character := 6 |} "pool") = None
  /\ values (getNodePropertyValues (Some sampleDocument) (single nestedScalarInputs)
               {| line := 0; character := 6 |} "inputs") = Some emptyObject.
Proof.
  assert (Hnearest : nearestObject nestedScalarInputs [0; 0; 0] [0; 0]).
  { split; [by exists [0]|]. split; [by eexists _, _, _|].
    intros x Hx Hlen (s & e & ps & Hobj).
    repeat (apply suffix_cons_cases in Hx as [->|Hx]; [try discriminate Hobj|]);
      try (simpl in Hlen; lia).
    apply suffix_nil_inv in Hx as ->. simpl in Hlen. lia. }
  split.
  - eapply (getNodePropertyValues_absent_or_empty sampleDocument
              (single nestedScalarInputs) _ _ {| line := 0; character := 6 |} "pool"
              _ _ _ _ _ eq_refl eq_refl Hnearest eq_refl).
    vm_compute. lia.
  - eapply (getNodePropertyValues_absent_or_empty sampleDocument
              (single nestedScalarInputs) _ _ {| line := 0; character := 6 |} "inputs"
              _ _ _ _ _ eq_refl eq_refl Hnearest eq_refl); [reflexivity|].
    left. reflexivity.
Defined.

(** C10. For [task: T] with [inputs: {__proto__: x, a: 1}] the value of the
    single matched property has properties under two distinct keys, but the
    mapping returned has one entry: the assignment under [__proto__] runs
    the setter of [Object.prototype], which ignores the string, and binds
    nothing. *)
Theorem getNodePropertyValues_proto_key_lost :
  exists (p : PropertyASTNode) (qs : list PropertyASTNode) (valueMap : JSObject),
    List.filter (hasKey "inputs") (default [] (propertiesOf taskProtoInputs)) = [p]
    /\ propertiesOf (prop_value p) = Some qs
    /\ prop_key <$> qs = ["__proto__"; "a"]
    /\ values (getNodePropertyValues (Some sampleDocument) (single taskProtoInputs)
                 {| line := 0; character := 3 |} "inputs") = Some valueMap
    /\ own valueMap = {[ "a" := VNum 1 ]}
    /\ own valueMap !! "__proto__" = None
    /\ size (own valueMap) = 1.
Proof.
  eexists _, _, (collectValues
                   [ Property 16 28 "__proto__" (scalar 27 28 "x");
                     Property 30 34 "a" (ValueASTNode 33 34 (VNum 1)) ]).
  split; [reflexivity|]. split; [reflexivity|].
  split; [reflexivity|]. split; [reflexivity|].
  assert (Hown : own (collectValues
                        [ Property 16 28 "__proto__" (scalar 27 28 "x");
                          Property 30 34 "a" (ValueASTNode 33 34 (VNum 1)) ])
                 = {[ "a" := VNum 1 ]}).
  { unfold collectValues. cbn [foldl prop_key prop_value getValue scalar].
    unfold assignMember at 2. cbn. unfold assignMember. cbn.
    by rewrite insert_empty. }
  split; [exact Hown|]. rewrite Hown.
  split; [done|]. apply map_size_singleton.
Qed.

(** ** The flatten pass *)

Lemma YamlObjectNode_forall_ind (P : YamlObjectNode -> Prop) :
  (forall f cs, Forall P cs -> P (mkYamlObjectNode f cs)) ->
  forall node, P node.
Proof.
  intros Hnode. fix IH 1. intros [f cs]. apply Hnode.
  induction cs as [|c cs IHcs]; constructor; [apply IH|apply IHcs].
Qed.

Lemma fields_flattenArrays node : fields (_flattenArrays node) = fields node.
Proof. by destruct node. Qed.

Lemma isArray_flattenArrays node : isArray (_flattenArrays node) = isArray node.
Proof. by destruct node. Qed.

Lemma labels_unfold node : labels node = fields node :: below node.
Proof. by destruct node. Qed.

Lemma omap_ext_in {A B} (f g : A -> option B) (l : list A) :
  (forall x, x ∈ l -> f x = g x) -> omap f l = omap g l.
Proof.
  induction l as [|x l IH]; intros Hfg; [done|].
  assert (Hl : omap f l = omap g l).
  { apply IH. intros y Hy. apply Hfg. by apply list_elem_of_further. }
  cbn. rewrite (Hfg x) by apply list_elem_of_here.
  destruct (g x); by rewrite Hl.
Qed.

(** The state of the loop once it has passed [pre0 ++ [l]]: what is still
    to come can only change [l], the last child passed. *)
Lemma mergeStep_from suf : forall pre0 l kept,
  Forall (fun j => j <= length pre0) kept ->
  let st := foldl mergeStep (pre0 ++ l :: suf, kept)
                  (seq (S (length pre0)) (length suf)) in
  let l' := match suf with
            | w :: _ => if isArray w then setChildren l (children l ++ children w) else l
            | [] => l
            end in
  omap (fun i => st.1 !! i) st.2
  = omap (fun i => (pre0 ++ [l']) !! i) kept ++ absorb false suf.
Proof.
  induction suf as [|c suf IH]; intros pre0 l kept Hkept; simpl.
  { by rewrite app_nil_r. }
  assert (Hc : (pre0 ++ l :: c :: suf) !! S (length pre0) = Some c).
  { rewrite lookup_app_r by lia. by replace (S (length pre0) - length pre0) with 1 by lia. }
  assert (Hl : (pre0 ++ l :: c :: suf) !! length pre0 = Some l).
  { rewrite lookup_app_r by lia. by rewrite Nat.sub_diag. }
  rewrite Hc. replace (length pre0 - 0) with (length pre0) by lia. rewrite Hl.
  destruct (isArray c) eqn:Harr; simpl.
  - set (l'' := setChildren l (children l ++ children c)).
    assert (Hins : <[length pre0 := l'']> (pre0 ++ l :: c :: suf)
                   = (pre0 ++ [l'']) ++ c :: suf).
    { rewrite insert_app_r_alt by lia. rewrite Nat.sub_diag. simpl.
      by rewrite <- app_assoc. }
    rewrite Hins.
    specialize (IH (pre0 ++ [l'']) c kept).
    rewrite length_app in IH. simpl in IH.
    replace (length pre0 + 1) with (S (length pre0)) in IH by lia.
    rewrite IH.
    + f_equal. apply omap_ext_in. intros j Hj.
      rewrite Forall_forall in Hkept. specialize (Hkept j Hj).
      rewrite lookup_app_l; [done|]. rewrite length_app. simpl. lia.
    + eapply Forall_impl; [exact Hkept|]. simpl. lia.
  - specialize (IH (pre0 ++ [l]) c (kept ++ [S (length pre0)])).
    rewrite length_app in IH. simpl in IH.
    replace (length pre0 + 1) with (S (length pre0)) in IH by lia.
    rewrite <- app_assoc in IH. simpl in IH. rewrite IH.
    + rewrite omap_app. simpl.
      rewrite lookup_app_r by (rewrite length_app; simpl; lia).
      rewrite length_app. simpl.
      replace (S (length pre0) - (length pre0 + 1)) with 0 by lia. simpl.
      rewrite <- app_assoc. simpl. f_equal.
      apply omap_ext_in. intros j Hj.
      rewrite Forall_forall in Hkept. specialize (Hkept j Hj).
      rewrite lookup_app_l; [done|]. rewrite length_app. simpl. lia.
    + apply Forall_app. split.
      * eapply Forall_impl; [exact Hkept|]. simpl. lia.
      * constructor; [lia|constructor].
Qed.

(** The index loop of the source computes [absorb]. *)
Lemma mergeLoop_absorb cs : mergeLoop cs = absorb true cs.
Proof.
  unfold mergeLoop. destruct cs as [|c suf]; [done|].
  change (seq 0 (length (c :: suf))) with (0 :: seq 1 (length suf)).
  simpl foldl. rewrite andb_false_r.
  pose proof (mergeStep_from suf [] c [0]) as H. simpl in H.
  destruct (foldl mergeStep (c :: suf, [0]) (seq 1 (length suf))) as [cs' kept'].
  simpl in H. rewrite H; [|by repeat constructor].
  simpl. rewrite andb_false_r. done.
Qed.

Lemma flattenArrays_unfold f cs :
  _flattenArrays (mkYamlObjectNode f cs)
  = mkYamlObjectNode f
      match List.map _flattenArrays cs with
      | [only] => if isArray only then children only
                  else absorb true (List.map _flattenArrays cs)
      | flattened => absorb true flattened
      end.
Proof.
  simpl. f_equal.
  destruct (List.map _flattenArrays cs) as [|only [|second rest]];
    by rewrite ?mergeLoop_absorb.
Qed.

Lemma flat_map_labels_incl (cs cs' : list YamlObjectNode) :
  Forall2 (fun c' c => labels c' ⊆ labels c) cs' cs ->
  flat_map labels cs' ⊆ flat_map labels cs.
Proof.
  induction 1 as [|c' c cs' cs Hc _ IH]; [done|].
  intros x. simpl. rewrite !elem_of_app. intros [?|?]; [left|right]; auto.
Qed.

Lemma absorb_labels cs : forall first,
  flat_map labels (absorb first cs) ⊆ flat_map labels cs.
Proof.
  induction cs as [|c rest IH]; intros first x; [done|]. simpl.
  destruct (isArray c && negb first).
  - intros Hx. apply elem_of_app. right. by apply (IH false).
  - simpl. rewrite !elem_of_app. intros [Hx|Hx]; [|right; by apply (IH false)].
    destruct rest as [|w rest']; [by left|].
    destruct (isArray w); [|by left].
    unfold setChildren in Hx. simpl in Hx. rewrite flat_map_app in Hx.
    apply elem_of_cons in Hx as [->|Hx].
    { left. rewrite labels_unfold. apply list_elem_of_here. }
    apply elem_of_app in Hx as [Hx|Hx].
    + left. rewrite labels_unfold. by apply list_elem_of_further.
    + right. simpl. apply elem_of_app. left.
      rewrite labels_unfold. by apply list_elem_of_further.
Qed.

(** The flatten pass creates no node: every node of the result carries the
    scalar members of a node of the input, and below the top only of nodes
    below the top. *)
Lemma flattenArrays_below node : below (_flattenArrays node) ⊆ below node.
Proof.
  induction node as [f cs IH] using YamlObjectNode_forall_ind.
  rewrite flattenArrays_unfold. unfold below. simpl.
  assert (Hmap : flat_map labels (List.map _flattenArrays cs) ⊆ flat_map labels cs).
  { apply flat_map_labels_incl. induction IH as [|c cs Hc _ IHcs]; constructor; [|done].
    rewrite !labels_unfold, fields_flattenArrays.
    intros x. rewrite !elem_of_cons. intros [->|?]; [by left|right; by apply Hc]. }
  assert (Habs : flat_map labels (absorb true (List.map _flattenArrays cs))
                 ⊆ flat_map labels cs).
  { etrans; [apply absorb_labels|apply Hmap]. }
  destruct (List.map _flattenArrays cs) as [|only [|second rest]] eqn:Hcs; try exact Habs.
  destruct (isArray only); [|exact Habs].
  etrans; [|apply Hmap]. simpl. rewrite app_nil_r, labels_unfold.
  intros x Hx. by apply list_elem_of_further.
Qed.

Lemma flattenArrays_labels node : labels (_flattenArrays node) ⊆ labels node.
Proof.
  rewrite !labels_unfold, fields_flattenArrays. intros x.
  rewrite !elem_of_cons. intros [->|Hx]; [by left|right].
  by apply flattenArrays_below.
Qed.

(** C5. A node whose only child is an array wrapper takes over the
    (flattened) wrapper's children, its own members unchanged; and when the
    nodes of the tree are pairwise distinct, the wrapper is no node of the
    result. *)
Theorem flattenArrays_single_wrapper :
  forall (f : Fields) (wrapper : YamlObjectNode),
    isArray wrapper = true ->
    _flattenArrays (mkYamlObjectNode f [wrapper])
    = mkYamlObjectNode f (children (_flattenArrays wrapper))
    /\ (NoDup (origin <$> labels (mkYamlObjectNode f [wrapper])) ->
        origin (fields wrapper)
          ∉ origin <$> labels (_flattenArrays (mkYamlObjectNode f [wrapper]))).
Proof.
  intros f wrapper Harr.
  assert (Heq : _flattenArrays (mkYamlObjectNode f [wrapper])
                = mkYamlObjectNode f (children (_flattenArrays wrapper))).
  { rewrite flattenArrays_unfold. simpl. by rewrite isArray_flattenArrays, Harr. }
  split; [exact Heq|]. rewrite Heq. simpl. rewrite app_nil_r, labels_unfold.
  rewrite !fmap_cons. intros Hnodup.
  apply NoDup_cons in Hnodup as [Hf Hnodup].
  apply NoDup_cons in Hnodup as [Hw _].
  rewrite not_elem_of_cons. split.
  - intros Heq'. apply Hf. rewrite <- Heq'. apply list_elem_of_here.
  - intros Hin. apply Hw. apply list_elem_of_fmap in Hin as (x & -> & Hx).
    apply list_elem_of_fmap. exists x. split; [done|].
    by apply flattenArrays_below.
Qed.

Lemma flattenArrays_single_wrapper_witness :
  exists f wrapper,
    provisionalTree sampleDocument {| root := topLevelSteps |}
      (buildState sampleDocument {| root := topLevelSteps |} ∅)
    = Some (mkYamlObjectNode f [wrapper])
    /\ f_key <$> labels (mkYamlObjectNode f [wrapper]) = ["root"; "steps"; "task"; "task"]
    /\ _flattenArrays (mkYamlObjectNode f [wrapper])
       = mkYamlObjectNode f (children (_flattenArrays wrapper))
    /\ f_key <$> labels (_flattenArrays (mkYamlObjectNode f [wrapper]))
       = ["root"; "task"; "task"]
    /\ origin (fields wrapper)
         ∉ origin <$> labels (_flattenArrays (mkYamlObjectNode f [wrapper])).
Proof.
  eexists _, _. split; [vm_compute; reflexivity|]. split; [reflexivity|].
  match goal with
  | |- _flattenArrays (mkYamlObjectNode ?f [?w]) = _ /\ _ =>
      destruct (flattenArrays_single_wrapper f w eq_refl) as [Heq Hnot]
  end.
  split; [exact Heq|]. split; [reflexivity|].
  apply Hnot. apply (bool_decide_unpack _). vm_compute. exact I.
Defined.

(** Two array wrappers in a row after a kept child: the children of the
    first wrapper reach the kept child, those of the second are appended to
    the first wrapper, which is dropped, and are in the result no more. *)
Lemma flattenArrays_consecutive_wrappers f a w1 w2 :
  isArray w1 = true -> isArray w2 = true ->
  _flattenArrays (mkYamlObjectNode f [a; w1; w2])
  = mkYamlObjectNode f
      [setChildren (_flattenArrays a)
         (children (_flattenArrays a) ++ children (_flattenArrays w1))].
Proof.
  intros H1 H2. rewrite flattenArrays_unfold. simpl.
  rewrite !isArray_flattenArrays, H1, H2. simpl.
  by rewrite andb_false_r.
Qed.

(** C4. For [stage: s] followed by the arrays [jobs] and [steps], pass 1
    gives the root the children stage, jobs wrapper, steps wrapper. The
    flatten pass keeps the stage and appends the job to it, but the script
    of the second wrapper is not appended to the stage, the previous kept
    child: it is in the outline no more. *)
Theorem flattenArrays_second_wrapper_lost :
  exists provisional tree tags,
    provisionalTree sampleDocument {| root := stageTwoArrays |}
      (buildState sampleDocument {| root := stageTwoArrays |} ∅) = Some provisional
    /\ f_key <$> labels provisional = ["root"; "stage"; "jobs"; "job"; "steps"; "script"]
    /\ (f_key ∘ fields) <$> children provisional = ["stage"; "jobs"; "steps"]
    /\ getObjectTree (Some sampleDocument) (single stageTwoArrays) ∅
       = Returns (tree, tags)
    /\ tree = _flattenArrays provisional
    /\ f_key <$> labels tree = ["root"; "stage"; "job"].
Proof.
  eexists _, _, _. split; [vm_compute; reflexivity|].
  repeat split; vm_compute; reflexivity.
Qed.

(** C2, counterexample. Idempotence fails on the tree pass 1 builds for two
    top-level arrays: the first wrapper survives one application as the only
    child of the root, and the second application removes it. *)
Lemma flattenArrays_not_idempotent :
  ~ (forall d jsonDocument tags provisional,
        provisionalTree d jsonDocument (buildState d jsonDocument tags)
        = Some provisional ->
        _flattenArrays (_flattenArrays provisional) = _flattenArrays provisional).
Proof.
  intros Hidem.
  destruct (provisionalTree sampleDocument {| root := twoArrays |}
              (buildState sampleDocument {| root := twoArrays |} ∅))
    as [provisional|] eqn:Hprov; [|vm_compute in Hprov; discriminate].
  specialize (Hidem _ _ _ _ Hprov).
  vm_compute in Hprov. injection Hprov as <-.
  vm_compute in Hidem. discriminate.
Qed.

Lemma Forall_map_id {A} (f : A -> A) (l : list A) :
  Forall (fun x => f x = x) l -> List.map f l = l.
Proof. induction 1 as [|x l Hx _ IH]; simpl; congruence. Qed.

Lemma absorb_no_wrapper cs : forall first,
  Forall (fun c => isArray c = false) cs -> absorb first cs = cs.
Proof.
  induction cs as [|c rest IH]; intros first Hcs; [done|].
  apply Forall_cons in Hcs as [Hc Hrest]. simpl. rewrite Hc. simpl.
  rewrite (IH false Hrest). destruct Hrest as [|w rest' Hw _]; [done|].
  by rewrite Hw.
Qed.

Lemma wrapperFree_unfold f cs :
  wrapperFree (mkYamlObjectNode f cs)
  = negb (f_isArray f) && forallb wrapperFree cs.
Proof.
  unfold wrapperFree. simpl. f_equal.
  induction cs as [|c cs IH]; [done|]. simpl.
  by rewrite forallb_app, IH.
Qed.

(** On an outline without array wrappers the flatten pass changes nothing. *)
Lemma flattenArrays_wrapperFree node :
  wrapperFree node = true -> _flattenArrays node = node.
Proof.
  induction node as [f cs IH] using YamlObjectNode_forall_ind.
  rewrite wrapperFree_unfold, andb_true_iff, forallb_forall.
  intros [_ Hcs]. rewrite flattenArrays_unfold.
  assert (Hmap : List.map _flattenArrays cs = cs).
  { apply Forall_map_id. rewrite Forall_forall in IH |- *.
    intros c Hc. apply IH; [done|]. apply Hcs. by apply list_elem_of_In. }
  assert (Hnone : Forall (fun c => isArray c = false) cs).
  { rewrite Forall_forall. intros c Hc.
    specialize (Hcs c (proj1 (list_elem_of_In _ _) Hc)).
    destruct c as [fc ccs]. rewrite wrapperFree_unfold in Hcs.
    apply andb_true_iff in Hcs as [Hfc _]. by apply negb_true_iff in Hfc. }
  rewrite Hmap. f_equal.
  pose proof (absorb_no_wrapper cs true Hnone) as Habs.
  destruct Hnone as [|only [|second rest] Honly _]; [done| |exact Habs].
  rewrite Honly. exact Habs.
Qed.

Lemma labels_setChildren_app c w :
  labels (setChildren c (children c ++ children w)) = labels c ++ below w.
Proof.
  destruct c as [fc ccs]. unfold setChildren, below. simpl.
  by rewrite flat_map_app.
Qed.

(** The nodes the merge loop keeps, with what each dropped wrapper hands
    over, are nodes of its input, each as often as there. *)
Lemma absorb_submseteq cs : forall first,
  handedOver first cs ++ flat_map labels (absorb first cs) ⊆+ flat_map labels cs.
Proof.
  induction cs as [|c rest IH]; intros first; [done|].
  cbn [absorb handedOver flat_map].
  destruct (isArray c && negb first).
  - apply submseteq_app.
    + rewrite labels_unfold. by apply submseteq_cons.
    + etrans; [|apply (IH false)]. by apply submseteq_inserts_l.
  - cbn [app flat_map].
    assert (Hkept : labels (match rest with
                            | [] => c
                            | w :: _ => if isArray w
                                        then setChildren c (children c ++ children w)
                                        else c
                            end) = labels c ++ handedOver false rest).
    { destruct rest as [|w rest']; simpl; [by rewrite app_nil_r|].
      rewrite andb_true_r. destruct (isArray w).
      - apply labels_setChildren_app.
      - by rewrite app_nil_r. }
    rewrite Hkept, <- app_assoc. apply submseteq_skips_l, IH.
Qed.

Lemma flat_map_submseteq {A B} (f g : A -> list B) l :
  Forall (fun x => f x ⊆+ g x) l -> flat_map f l ⊆+ flat_map g l.
Proof.
  induction 1 as [|x l Hx _ IH]; [done|]. simpl. by apply submseteq_app.
Qed.

Lemma flattenArrays_submseteq node : labels (_flattenArrays node) ⊆+ labels node.
Proof.
  induction node as [f cs IH] using YamlObjectNode_forall_ind.
  rewrite flattenArrays_unfold. simpl. apply submseteq_skip.
  assert (Hmap : flat_map labels (List.map _flattenArrays cs) ⊆+ flat_map labels cs).
  { rewrite flat_map_concat_map, map_map, <- flat_map_concat_map.
    by apply flat_map_submseteq. }
  assert (Habs : flat_map labels (absorb true (List.map _flattenArrays cs))
                 ⊆+ flat_map labels cs).
  { etrans; [|exact Hmap]. etrans; [|apply (absorb_submseteq _ true)].
    by apply submseteq_inserts_l. }
  destruct (List.map _flattenArrays cs) as [|only [|second rest]] eqn:Hcs; try exact Habs.
  destruct (isArray only); [|exact Habs].
  etrans; [|exact Hmap]. simpl. rewrite app_nil_r, labels_unfold.
  by apply submseteq_cons.
Qed.

(** Where no child after the first is a wrapper, the merge loop returns
    its input. *)
Lemma absorb_settled_tail cs :
  Forall (fun c => isArray c = false) (drop 1 cs) -> absorb true cs = cs.
Proof.
  destruct cs as [|c rest]; [done|]. rewrite skipn_cons, drop_0. intros Hrest.
  cbn [absorb negb]. rewrite andb_false_r, (absorb_no_wrapper rest false Hrest).
  destruct Hrest as [|w rest' Hw _]; [done|]. by rewrite Hw.
Qed.

Lemma absorb_length cs : forall first, length (absorb first cs) <= length cs.
Proof.
  induction cs as [|c rest IH]; intros first; [done|]. cbn [absorb].
  specialize (IH false). destruct (isArray c && negb first); simpl; lia.
Qed.

(** The merge loop returns as many children as it got only when it dropped
    none. *)
Lemma absorb_length_eq cs : forall first,
  length (absorb first cs) = length cs ->
  Forall (fun c => isArray c = false) (if first then drop 1 cs else cs).
Proof.
  induction cs as [|c rest IH]; intros first Hlen.
  { destruct first; constructor. }
  cbn [absorb] in Hlen. pose proof (absorb_length rest false) as Hle.
  destruct (isArray c && negb first) eqn:Hdrop; simpl in Hlen; [lia|].
  assert (Hrest : Forall (fun c => isArray c = false) rest).
  { apply (IH false). lia. }
  destruct first; [by rewrite skipn_cons, drop_0|].
  constructor; [|exact Hrest]. by rewrite andb_true_r in Hdrop.
Qed.

Lemma map_id_Forall {A} (f : A -> A) (l : list A) :
  List.map f l = l -> Forall (fun x => f x = x) l.
Proof.
  induction l as [|x l IH]; [constructor|]. simpl. intros [= Hx Hl]. by constructor; [|apply IH].
Qed.

Lemma flattenArrays_size node :
  length (labels (_flattenArrays node)) <= length (labels node).
Proof. apply submseteq_length, flattenArrays_submseteq. Qed.

(** The trees the flatten pass leaves as they are: those in which every
    wrapper below the top is the first of two or more siblings. *)
Lemma flattenArrays_fixed_iff_settled node :
  _flattenArrays node = node <-> settled node = true.
Proof.
  induction node as [f cs IH] using YamlObjectNode_forall_ind.
  rewrite flattenArrays_unfold. simpl settled.
  rewrite !andb_true_iff, !forallb_forall. split.
  - intros [= Hchildren].
    assert (Hkept : absorb true (List.map _flattenArrays cs) = cs
                    /\ match cs with
                       | [only] => negb (isArray only) = true
                       | _ => True
                       end).
    { destruct cs as [|only [|second rest]]; cbn [List.map] in Hchildren |- *;
        [done| |done].
      rewrite isArray_flattenArrays in Hchildren.
      destruct (isArray only) eqn:Harr; [|by split].
      pose proof (flattenArrays_size only) as Hsize.
      rewrite (labels_unfold (_flattenArrays only)) in Hsize. unfold below in Hsize.
      rewrite Hchildren in Hsize. simpl in Hsize. rewrite app_nil_r in Hsize. lia. }
    destruct Hkept as [Habs Hlone].
    assert (Htail : Forall (fun c => isArray c = false)
                           (drop 1 (List.map _flattenArrays cs))).
    { apply (absorb_length_eq _ true). by rewrite Habs, length_map. }
    rewrite (absorb_settled_tail _ Htail) in Habs.
    apply map_id_Forall in Habs as Hfixed. rewrite Habs in Htail.
    rewrite Forall_forall in IH, Hfixed, Htail.
    split; [split; [by destruct cs as [|only [|second rest]]|]|].
    + intros c Hc. apply negb_true_iff, Htail. by apply list_elem_of_In.
    + intros c Hc. apply list_elem_of_In in Hc. by apply IH, Hfixed.
  - intros [[Hlone Htail] Hcs].
    assert (Hmap : List.map _flattenArrays cs = cs).
    { apply Forall_map_id. rewrite Forall_forall in IH |- *.
      intros c Hc. apply IH; [done|]. apply Hcs. by apply list_elem_of_In. }
    assert (Habs : absorb true cs = cs).
    { apply absorb_settled_tail, Forall_forall. intros c Hc.
      by apply negb_true_iff, Htail, list_elem_of_In. }
    rewrite Hmap, Habs. f_equal.
    destruct cs as [|only [|second rest]]; [done| |done].
    apply negb_true_iff in Hlone. by rewrite Hlone.
Qed.

(** C2, as the flatten pass has it. Applying the pass a second time
    returns the tree of the first application exactly when, after the first,
    every node with [isArray = true] below the top is the first of two or
    more siblings. *)
Theorem flattenArrays_idempotent_iff_settled :
  forall node : YamlObjectNode,
    _flattenArrays (_flattenArrays node) = _flattenArrays node
    <-> settled (_flattenArrays node) = true.
Proof.
  intros node. split; intros Hnode.
  - by apply flattenArrays_fixed_iff_settled.
  - by apply flattenArrays_fixed_iff_settled.
Qed.

(** For [jobs: [{job: A}]] followed by [stage: s] the wrapper stays, first
    of two siblings, and the second application changes nothing. *)
Lemma flattenArrays_idempotent_iff_settled_witness :
  exists provisional,
    provisionalTree sampleDocument {| root := jobsThenStage |}
      (buildState sampleDocument {| root := jobsThenStage |} ∅) = Some provisional
    /\ f_key <$> labels (_flattenArrays provisional) = ["root"; "jobs"; "job"; "stage"]
    /\ (isArray <$> children (_flattenArrays provisional)) = [true; false]
    /\ settled (_flattenArrays provisional) = true
    /\ _flattenArrays (_flattenArrays provisional) = _flattenArrays provisional.
Proof.
  eexists. split; [vm_compute; reflexivity|].
  split; [vm_compute; reflexivity|]. split; [vm_compute; reflexivity|].
  match goal with
  | |- ?P /\ _ => assert (Hsettled : P) by (vm_compute; reflexivity)
  end.
  split; [exact Hsettled|].
  exact (proj2 (flattenArrays_idempotent_iff_settled _) Hsettled).
Defined.

(** ** The traversal *)

Lemma eachChild_app {A St} (f : NodeRef -> A -> St -> St) r l1 : forall i l2 s,
  eachChild f r i (l1 ++ l2) s
  = eachChild f r (i + length l1) l2 (eachChild f r i l1 s).
Proof.
  induction l1 as [|c l1 IH]; intros i l2 s; simpl.
  - by rewrite Nat.add_0_r.
  - rewrite IH. f_equal. lia.
Qed.

(** The walk over the children, split at the [j]-th child. *)
Lemma eachChild_split {A St} (f : NodeRef -> A -> St -> St) r l j c s :
  l !! j = Some c ->
  eachChild f r 0 l s
  = eachChild f r (S j) (drop (S j) l)
      (f (j :: r) c (eachChild f r 0 (take j l) s)).
Proof.
  intros Hj. rewrite <- (take_drop_middle l j c Hj) at 1.
  rewrite eachChild_app. simpl.
  by rewrite length_take_le by (apply lookup_lt_Some in Hj; lia).
Qed.

(** A relation that every step of the walk over some children satisfies is
    satisfied by the walk, when it is reflexive and transitive. *)
Lemma eachChild_rel {A St} (f : NodeRef -> A -> St -> St) r (R : St -> St -> Prop) l :
  (forall s, R s s) ->
  (forall s1 s2 s3, R s1 s2 -> R s2 s3 -> R s1 s3) ->
  forall i,
    (forall j c s, l !! j = Some c -> R s (f (i + j :: r) c s)) ->
    forall s, R s (eachChild f r i l s).
Proof.
  intros Hrefl Htrans. induction l as [|c l IH]; intros i Hstep s; simpl; [done|].
  eapply Htrans.
  - specialize (Hstep 0 c s eq_refl). rewrite Nat.add_0_r in Hstep. exact Hstep.
  - apply IH. intros j c' s' Hj.
    specialize (Hstep (S j) c' s' Hj).
    by replace (i + S j) with (S i + j) in Hstep by lia.
Qed.

(** The rule for [visit]: a relation between the states before and after,
    indexed by the node visited, that is reflexive and transitive, that
    holds of a node when it holds of a child, and that the visitor
    satisfies on the nodes of the tree, is satisfied by the walk. *)
Section VisitRule.
Context {St : Type} (visitor : NodeRef -> Node -> St -> St) (rootNode : ASTNode).
Context (R : NodeRef -> St -> St -> Prop).
Hypothesis R_refl : forall r s, R r s s.
Hypothesis R_trans : forall r s1 s2 s3, R r s1 s2 -> R r s2 s3 -> R r s1 s3.
Hypothesis R_lift : forall i r s s', R (i :: r) s s' -> R r s s'.
Hypothesis R_visitor : forall r node s,
  node_at rootNode r = Some node -> R r s (visitor r node s).

Lemma visit_rule_mutual :
  (forall n r s, node_at rootNode r = Some (NodeOf n) -> R r s (visit visitor r n s))
  /\ (forall p r s, node_at rootNode r = Some (PropOf p) ->
        R r s (visitProperty visitor r p s)).
Proof using R_refl R_trans R_lift R_visitor.
  apply AST_mutual_ind.
  - intros s e ps IH r st Hr. simpl. eapply R_trans; [by apply R_visitor|].
    apply eachChild_rel; [apply R_refl|apply R_trans|].
    intros j p st' Hj. apply (R_lift j). simpl.
    rewrite Forall_lookup in IH. apply (IH j p Hj).
    simpl. rewrite Hr. simpl. by rewrite Hj.
  - intros s e location items IH r st Hr. simpl.
    eapply R_trans; [by apply R_visitor|].
    apply eachChild_rel; [apply R_refl|apply R_trans|].
    intros j c st' Hj. apply (R_lift j). simpl.
    rewrite Forall_lookup in IH. apply (IH j c Hj).
    simpl. rewrite Hr. simpl. by rewrite Hj.
  - intros s e v r st Hr. simpl. by apply R_visitor.
  - intros s e k v IH r st Hr. simpl. eapply R_trans; [by apply R_visitor|].
    apply (R_lift 0), IH. simpl. by rewrite Hr.
Qed.

Lemma visit_rule n r s :
  node_at rootNode r = Some (NodeOf n) -> R r s (visit visitor r n s).
Proof using R_refl R_trans R_lift R_visitor. apply visit_rule_mutual. Qed.

Lemma visitProperty_rule p r s :
  node_at rootNode r = Some (PropOf p) -> R r s (visitProperty visitor r p s).
Proof using R_refl R_trans R_lift R_visitor. apply visit_rule_mutual. Qed.
End VisitRule.

(** ** One step of pass 1 *)

Lemma recognizedAncestor_Some tags objects r t :
  recognizedAncestor tags objects r = Some t -> is_Some (objects !! t).
Proof.
  induction r as [|i par IH]; simpl; [done|].
  destruct (tags !! par) as [t'|]; [|exact IH].
  destruct (objects !! t') eqn:Ht'; [|exact IH].
  intros [= <-]. by rewrite Ht'.
Qed.

Lemma attach_nodeMap_lookup r parentObject f st id :
  nodeMap st !! currentId st = None ->
  (forall t, parentObject = Some t -> is_Some (nodeMap st !! t)) ->
  nodeMap (attach r parentObject f st) !! id
  = if decide (id = currentId st) then Some (mkOutlineObject f [])
    else if decide (parentObject = Some id)
         then (fun o => mkOutlineObject (o_fields o) (o_children o ++ [currentId st]))
                <$> nodeMap st !! id
         else nodeMap st !! id.
Proof.
  intros Hfresh Hparent. unfold attach. simpl.
  destruct parentObject as [t|].
  - destruct (Hparent t eq_refl) as [po Hpo].
    assert (Hne : t <> currentId st) by (intros ->; congruence).
    unfold pushChild. rewrite lookup_insert_ne by done. rewrite Hpo.
    destruct (decide (id = currentId st)) as [->|Hid].
    + rewrite lookup_insert_ne by done. by rewrite lookup_insert_eq.
    + destruct (decide (Some t = Some id)) as [[= ->]|Hnt].
      * by rewrite lookup_insert_eq, Hpo.
      * rewrite !lookup_insert_ne by congruence. done.
  - destruct (decide (id = currentId st)) as [->|Hid].
    + by rewrite lookup_insert_eq.
    + rewrite lookup_insert_ne by done. by rewrite decide_False by done.
Qed.

Lemma idsOrdered_fresh st : idsOrdered st -> nodeMap st !! currentId st = None.
Proof.
  intros [Hdom _]. apply eq_None_not_Some. rewrite Hdom. lia.
Qed.

(** What [attach] does to the state. *)
Lemma attach_grown rootNode r parentObject f st :
  idsOrdered st ->
  (forall t, parentObject = Some t -> is_Some (nodeMap st !! t)) ->
  origin f = Some r ->
  faithful rootNode f ->
  grown rootNode r st (attach r parentObject f st).
Proof.
  intros Hids Hparent Horigin Hfaithful.
  pose proof (idsOrdered_fresh st Hids) as Hfresh.
  pose proof (fun id => attach_nodeMap_lookup r parentObject f st id Hfresh Hparent)
    as Hlook.
  destruct Hids as (Hdom & Hkids & Hroot).
  split.
  - repeat split.
    + rewrite Hlook. simpl. repeat case_decide; subst; simpl.
      * lia.
      * intros [o Ho]. apply fmap_Some in Ho as (o' & Ho' & _).
        assert (id < currentId st) by (apply Hdom; eauto). lia.
      * intros Ho. assert (id < currentId st) by (by apply Hdom). lia.
    + rewrite Hlook. simpl. repeat case_decide; subst; simpl; try done.
      * intros Hlt. assert (is_Some (nodeMap st !! id)) as [o ->] by (apply Hdom; lia).
        done.
      * intros Hlt. apply Hdom. lia.
    + rewrite Hlook in H. repeat case_decide; subst; simpl in *.
      * injection H as <-. simpl in H0. by apply elem_of_nil in H0.
      * apply fmap_Some in H as (o' & Ho' & ->). simpl in H0.
        apply elem_of_app in H0 as [Hc|Hc].
        -- by apply (Hkids _ _ _ Ho').
        -- apply list_elem_of_singleton in Hc as ->.
           apply Hdom. eauto.
      * by apply (Hkids _ _ _ H).
    + rewrite Hlook in H. simpl. repeat case_decide; subst; simpl in *.
      * injection H as <-. simpl in H0. by apply elem_of_nil in H0.
      * apply fmap_Some in H as (o' & Ho' & ->). simpl in H0.
        apply elem_of_app in H0 as [Hc|Hc].
        -- pose proof (Hkids _ _ _ Ho' Hc). lia.
        -- apply list_elem_of_singleton in Hc as ->. lia.
      * pose proof (Hkids _ _ _ H H0). lia.
    + intros c. simpl. destruct parentObject.
      * intros Hc. specialize (Hroot c Hc). lia.
      * rewrite elem_of_app, list_elem_of_singleton.
        intros [Hc| ->]; [specialize (Hroot c Hc)|]; lia.
  - simpl. lia.
  - intros id o Ho. rewrite Hlook.
    assert (id <> currentId st) by (intros ->; congruence).
    rewrite decide_False by done. case_decide; rewrite Ho; simpl; eauto.
  - intros id o'. rewrite Hlook. repeat case_decide; subst.
    + intros [= <-]. right. exists r. by split.
    + intros Ho. apply fmap_Some in Ho as (o & Ho & ->). left. eauto.
    + intros Ho. left. eauto.
  - intros x Hx. simpl. apply lookup_insert_ne. intros ->. by apply Hx.
  - intros Hsound x t. simpl. rewrite Hlook.
    destruct (decide (r = x)) as [->|Hne].
    + rewrite lookup_insert_eq. intros [= <-]. by rewrite decide_True.
    + rewrite lookup_insert_ne by done. intros Ht.
      destruct (Hsound x t Ht) as [o Ho].
      assert (t <> currentId st) by (intros ->; congruence).
      rewrite decide_False by done. case_decide; rewrite Ho; simpl; eauto.
  - intros Hall id o'. rewrite Hlook. repeat case_decide; subst.
    + by intros [= <-].
    + intros Ho. apply fmap_Some in Ho as (o & Ho & ->). by apply (Hall _ _ Ho).
    + apply Hall.
  - intros Hall id o'. rewrite Hlook. simpl.
    assert (Hmono : forall x, is_Some (tempId st !! x) ->
                              is_Some (<[r := currentId st]> (tempId st) !! x)).
    { intros x Hx. destruct (decide (r = x)) as [->|Hne].
      - by rewrite lookup_insert_eq.
      - by rewrite lookup_insert_ne. }
    repeat case_decide; subst.
    + intros [= <-]. exists r. split; [done|]. by rewrite lookup_insert_eq.
    + intros Ho. apply fmap_Some in Ho as (o & Ho & ->).
      destruct (Hall _ _ Ho) as (x & Hx & Htag). eauto.
    + intros Ho. destruct (Hall _ _ Ho) as (x & Hx & Htag). eauto.
Qed.

Lemma grown_refl rootNode r st : idsOrdered st -> grown rootNode r st st.
Proof.
  intros Hids. split; try done.
  - intros id o Ho. eauto.
  - intros id o Ho. left. eauto.
Qed.

Lemma grows_trans rootNode r s1 s2 s3 :
  grows rootNode r s1 s2 -> grows rootNode r s2 s3 -> grows rootNode r s1 s3.
Proof.
  intros H12 H23 Hids. specialize (H12 Hids).
  specialize (H23 (grown_ids _ _ _ _ H12)).
  destruct H12 as [_ Hc1 Hk1 Hm1 Ht1 Hs1 Hf1 Ho1], H23 as [Hi2 Hc2 Hk2 Hm2 Ht2 Hs2 Hf2 Ho2].
  split; auto.
  - lia.
  - intros id o Ho. destruct (Hk1 id o Ho) as (o' & Ho' & Hf).
    destruct (Hk2 id o' Ho') as (o'' & Ho'' & Hf'). exists o''. split; congruence.
  - intros id o'' Ho''. destruct (Hm2 id o'' Ho'') as [(o' & Ho' & Hf')|Hnew]; [|by right].
    destruct (Hm1 id o' Ho') as [(o & Ho & Hf)|(x & Hx & Hsuf)].
    + left. exists o. split; congruence.
    + right. exists x. split; congruence.
  - intros x Hx. by rewrite Ht2, Ht1.
Qed.

Lemma grows_lift rootNode i r st st' :
  grows rootNode (i :: r) st st' -> grows rootNode r st st'.
Proof.
  intros H Hids. destruct (H Hids) as [Hi Hc Hk Hm Ht Hs Hf Ho]. split; auto.
  - intros id o' Ho'. destruct (Hm id o' Ho') as [?|(x & Hx & Hsuf)]; [by left|right].
    exists x. split; [done|]. by eapply suffix_cons_l.
  - intros x Hx. apply Ht. intros Hsuf. apply Hx. by eapply suffix_cons_l.
Qed.

(** The visitor either leaves the state alone or attaches one object, made
    from the node visited and faithful to it. *)
Lemma outlineVisitor_cases d rootNode r node st :
  outlineVisitor d rootNode r node st = st
  \/ exists f,
       outlineVisitor d rootNode r node st
       = attach r (recognizedAncestor (tempId st) (nodeMap st) r) f st
       /\ origin f = Some r
       /\ (node_at rootNode r = Some node -> faithful rootNode f).
Proof.
  destruct node as [[s e ps|s e location items|s e v]|[s e k v]]; simpl; auto.
  - destruct location as [name|i]; simpl; auto.
    destruct (bool_decide (name = "stages") || bool_decide (name = "steps")
              || bool_decide (name = "jobs")); auto.
    right. eexists. split; [reflexivity|]. split; [done|].
    intros Hr. exists r. simpl. eauto 10.
  - destruct (recognizedKey k); simpl; auto.
    destruct (underTask _ _); auto.
    right. destruct (parentRef r ≫= enclosingObject rootNode);
      (eexists; split; [reflexivity|]; split; [done|]);
      intros Hr; exists r; simpl; eauto 10.
Qed.

Lemma outlineVisitor_grows d rootNode r node st :
  node_at rootNode r = Some node ->
  grows rootNode r st (outlineVisitor d rootNode r node st).
Proof.
  intros Hr Hids.
  destruct (outlineVisitor_cases d rootNode r node st) as [->|(f & -> & Horigin & Hf)].
  - by apply grown_refl.
  - apply attach_grown; auto. intros t. apply recognizedAncestor_Some.
Qed.

(** Visiting a node of the tree grows the state. *)
Lemma visit_grows d rootNode n r st :
  node_at rootNode r = Some (NodeOf n) ->
  grows rootNode r st (visit (outlineVisitor d rootNode) r n st).
Proof.
  apply (visit_rule (outlineVisitor d rootNode) rootNode (grows rootNode)).
  - intros r' s Hids. by apply grown_refl.
  - apply grows_trans.
  - apply grows_lift.
  - apply outlineVisitor_grows.
Qed.

Lemma visitProperty_grows d rootNode p r st :
  node_at rootNode r = Some (PropOf p) ->
  grows rootNode r st (visitProperty (outlineVisitor d rootNode) r p st).
Proof.
  apply (visitProperty_rule (outlineVisitor d rootNode) rootNode (grows rootNode)).
  - intros r' s Hids. by apply grown_refl.
  - apply grows_trans.
  - apply grows_lift.
  - apply outlineVisitor_grows.
Qed.

Lemma initialState_idsOrdered tags : idsOrdered (initialState tags).
Proof.
  split; [|split].
  - intros id. simpl. rewrite lookup_empty. split; [by intros [o Ho]|lia].
  - intros id o c. simpl. by rewrite lookup_empty.
  - intros c Hc. by apply elem_of_nil in Hc.
Qed.

Lemma buildState_grown d jsonDocument tags :
  grown (root jsonDocument) [] (initialState tags) (buildState d jsonDocument tags).
Proof. apply visit_grows; [done|apply initialState_idsOrdered]. Qed.

(** ** From the store to the tree *)

Lemma objectTree_is_Some st : idsOrdered st ->
  forall fuel id, id < currentId st -> currentId st <= id + fuel ->
    is_Some (objectTree fuel (nodeMap st) id).
Proof.
  intros (Hdom & Hkids & _). induction fuel as [|fuel IH]; intros id Hlt Hfuel; [lia|].
  simpl. destruct (proj2 (Hdom id) Hlt) as [o Ho]. rewrite Ho. simpl.
  assert (Hcs : is_Some (mapM (objectTree fuel (nodeMap st)) (o_children o))).
  { apply mapM_is_Some, Forall_forall. intros c Hc.
    pose proof (Hkids id o c Ho Hc). apply IH; lia. }
  destruct Hcs as [cs ->]. simpl. eauto.
Qed.

(** The store that pass 1 leaves can always be read as a tree. *)
Lemma provisionalTree_is_Some d jsonDocument tags :
  is_Some (provisionalTree d jsonDocument (buildState d jsonDocument tags)).
Proof.
  pose proof (grown_ids _ _ _ _ (buildState_grown d jsonDocument tags)) as Hids.
  unfold provisionalTree. apply fmap_is_Some, mapM_is_Some, Forall_forall.
  intros c Hc. apply objectTree_is_Some; [done| |lia].
  by apply Hids.
Qed.

(** Every node of the tree read from the store is an object of the store. *)
Lemma objectTree_labels objects : forall fuel id node,
  objectTree fuel objects id = Some node ->
  forall f, f ∈ labels node -> exists id' o, objects !! id' = Some o /\ o_fields o = f.
Proof.
  induction fuel as [|fuel IH]; intros id node; simpl; [done|].
  destruct (objects !! id) as [o|] eqn:Ho; simpl; [|done].
  destruct (mapM (objectTree fuel objects) (o_children o)) as [cs|] eqn:Hcs;
    simpl; [|done].
  intros [= <-] f. simpl. rewrite elem_of_cons. intros [->|Hf]; [eauto|].
  apply mapM_Some in Hcs.
  apply list_elem_of_In, in_flat_map in Hf as (c & Hc & Hf).
  apply list_elem_of_In in Hc, Hf.
  apply list_elem_of_lookup in Hc as [j Hj].
  destruct (Forall2_lookup_r _ _ _ _ _ Hcs Hj) as (cid & _ & Hcid).
  by apply (IH cid c Hcid).
Qed.

(** With a document and a first top-level document, [getObjectTree]
    returns: the flattened tree of the store of pass 1, with the tags of
    pass 1. The top of the tree is the synthetic root, and every node below
    it is an object pass 1 made. *)
Lemma getObjectTree_returns d y jsonDocument rest tags :
  documents y = jsonDocument :: rest ->
  exists tree,
    getObjectTree (Some d) y tags
    = Returns (tree, tempId (buildState d jsonDocument tags))
    /\ fields tree = rootFields d (root jsonDocument)
    /\ forall f, f ∈ below tree ->
         exists id o, nodeMap (buildState d jsonDocument tags) !! id = Some o
                      /\ o_fields o = f.
Proof.
  intros Hdocs. unfold getObjectTree. rewrite Hdocs.
  destruct (provisionalTree_is_Some d jsonDocument tags) as [provisional Hprov].
  rewrite Hprov. eexists. split; [reflexivity|].
  unfold provisionalTree in Hprov. apply fmap_Some in Hprov as (cs & Hcs & ->).
  split; [by rewrite fields_flattenArrays|].
  intros f Hf. apply flattenArrays_below in Hf. unfold below in Hf. simpl in Hf.
  apply mapM_Some in Hcs.
  apply list_elem_of_In, in_flat_map in Hf as (c & Hc & Hf).
  apply list_elem_of_In in Hc, Hf.
  apply list_elem_of_lookup in Hc as [j Hj].
  destruct (Forall2_lookup_r _ _ _ _ _ Hcs Hj) as (cid & _ & Hcid).
  by apply (objectTree_labels _ _ _ _ Hcid).
Qed.

(** ** The outline has the root's and the wrappers' values as written, and
    the properties' values as read *)

(** C8, counterexample. On the tree for a stage with two tasks the value
    of the root is not absent. *)
Lemma root_value_not_absent :
  ~ (forall d y tags tree tags',
        getObjectTree d y tags = Returns (tree, tags') -> value tree = VNull).
Proof.
  intros Habsent.
  destruct (getObjectTree_returns sampleDocument (single stageWithTasks) _ _ ∅ eq_refl)
    as (tree & Hret & Hfields & _).
  specialize (Habsent _ _ _ _ _ Hret). unfold value in Habsent.
  rewrite Hfields in Habsent. discriminate.
Qed.

(** C8, as the code has it. In every tree [getObjectTree] returns, the
    value of the synthetic root is the string [root]; every node below it
    comes from an AST node: an array wrapper from an Array, and its value is
    absent; every other node from a Property, and its key is the key and
    its value the read-out of that property. *)
Theorem outline_values :
  forall d y jsonDocument rest tags tree tags',
    documents y = jsonDocument :: rest ->
    getObjectTree (Some d) y tags = Returns (tree, tags') ->
    value tree = VStr "root"
    /\ forall f, f ∈ below tree -> faithful (root jsonDocument) f.
Proof.
  intros d y jsonDocument rest tags tree tags' Hdocs Hret.
  destruct (getObjectTree_returns d y jsonDocument rest tags Hdocs)
    as (tree0 & Hret0 & Hfields & Hbelow).
  rewrite Hret0 in Hret. injection Hret as <- <-.
  split; [unfold value; by rewrite Hfields|].
  intros f Hf. destruct (Hbelow f Hf) as (id & o & Ho & <-).
  eapply (grown_faithful _ _ _ _ (buildState_grown d jsonDocument tags)); [|exact Ho].
  intros id' o'. simpl. by rewrite lookup_empty.
Qed.

Lemma outline_values_witness :
  exists tree tags',
    getObjectTree (Some sampleDocument) (single stageWithTasks) ∅ = Returns (tree, tags')
    /\ value tree = VStr "root"
    /\ (f_key <$> below tree) = ["stage"; "task"; "task"]
    /\ (f_value <$> below tree) = [VStr "s"; VStr "A"; VStr "B"]
    /\ forall f, f ∈ below tree -> faithful stageWithTasks f.
Proof.
  eexists _, _. split; [vm_compute; reflexivity|].
  split; [reflexivity|]. split; [reflexivity|]. split; [reflexivity|].
  refine (proj2 (outline_values sampleDocument (single stageWithTasks) _ _ ∅ _ _
                   eq_refl _)).
  vm_compute. reflexivity.
Defined.

(** ** Walking over siblings *)

Lemma suffix_sibling (i j : nat) (r x : NodeRef) :
  (i :: r) `suffix_of` x -> (j :: r) `suffix_of` x -> i = j.
Proof.
  intros [k1 ->] [k2 Heq].
  assert (Hlen : length k1 = length k2).
  { apply (f_equal length) in Heq. rewrite !length_app in Heq. simpl in Heq. lia. }
  apply app_inj_1 in Heq as [_ Heq]; [|done]. congruence.
Qed.

Lemma suffix_not_child (i : nat) (r x : NodeRef) :
  x `suffix_of` r -> ~ (i :: r) `suffix_of` x.
Proof.
  intros H1 H2. apply suffix_length in H1, H2. simpl in H2. lia.
Qed.

Section Siblings.
Context {A : Type} (f : NodeRef -> A -> BuildState -> BuildState) (wrap : A -> Node).
Context (rootNode : ASTNode).
Hypothesis f_grows : forall c r s,
  node_at rootNode r = Some (wrap c) -> grows rootNode r s (f r c s).

Lemma eachChild_grownAmong r l : forall k s,
  (forall j c, l !! j = Some c -> node_at rootNode (k + j :: r) = Some (wrap c)) ->
  idsOrdered s ->
  grownAmong rootNode r (fun j => k <= j < k + length l) s (eachChild f r k l s).
Proof using f_grows.
  induction l as [|c l IH]; intros k s Hnodes Hids; simpl.
  { split; [by apply grown_refl|done|]. intros id o' Ho'. left. eauto. }
  assert (Hc : node_at rootNode (k :: r) = Some (wrap c)).
  { specialize (Hnodes 0 c eq_refl). by rewrite Nat.add_0_r in Hnodes. }
  pose proof (f_grows c (k :: r) s Hc Hids) as Hstep.
  destruct (IH (S k) (f (k :: r) c s)) as [Hg Ht Hm].
  { intros j c' Hj. specialize (Hnodes (S j) c' Hj).
    by replace (k + S j) with (S k + j) in Hnodes by lia. }
  { apply Hstep. }
  split.
  - eapply grows_trans; [|intros _; exact Hg|exact Hids].
    apply (grows_lift _ k). by intros _.
  - intros x Hx. rewrite Ht.
    + apply (grown_tagged _ _ _ _ Hstep). apply Hx. lia.
    + intros j Hj. apply Hx. lia.
  - intros id o' Ho'. destruct (Hm id o' Ho') as [(o1 & Ho1 & Hf1)|(x & j & Hj & Hx & Hsuf)].
    + destruct (grown_made _ _ _ _ Hstep id o1 Ho1) as [(o & Ho & Hf)|(x & Hx & Hsuf)].
      * left. exists o. split; congruence.
      * right. exists x, k. split; [lia|]. split; [congruence|done].
    + right. exists x, j. split; [lia|]. done.
Qed.
End Siblings.

(** ** A second call on the same tree *)

(** The ancestor walk reads the tags of proper ancestors only. *)
Lemma recognizedAncestor_ext tags tags' objects r :
  (forall x, x `suffix_of` r -> x <> r -> tags !! x = tags' !! x) ->
  recognizedAncestor tags objects r = recognizedAncestor tags' objects r.
Proof.
  induction r as [|i par IH]; intros Hagree; simpl; [done|].
  rewrite <- (Hagree par); [|by apply suffix_cons_r|].
  - rewrite IH; [done|]. intros x Hx Hne. apply Hagree.
    + by apply suffix_cons_r.
    + intros ->. by apply suffix_cons_not in Hx.
  - intros Heq. apply (f_equal length) in Heq. simpl in Heq. lia.
Qed.

(** The visitor with the final tags already in place does what it did
    without them. *)
Lemma outlineVisitor_withTags d rootNode r node tags st :
  (forall x, x `suffix_of` r -> x <> r -> tempId st !! x = tags !! x) ->
  tags !! r = tempId (outlineVisitor d rootNode r node st) !! r ->
  outlineVisitor d rootNode r node (withTags tags st)
  = withTags tags (outlineVisitor d rootNode r node st).
Proof.
  intros Hanc Hr.
  assert (Hwalk : recognizedAncestor tags (nodeMap st) r
                  = recognizedAncestor (tempId st) (nodeMap st) r).
  { symmetry. by apply recognizedAncestor_ext. }
  assert (Hattach : forall f,
    tags !! r = tempId (attach r (recognizedAncestor (tempId st) (nodeMap st) r) f st) !! r ->
    attach r (recognizedAncestor tags (nodeMap st) r) f (withTags tags st)
    = withTags tags (attach r (recognizedAncestor (tempId st) (nodeMap st) r) f st)).
  { intros f Hf. rewrite Hwalk. unfold attach, withTags. simpl. f_equal.
    apply insert_id. rewrite Hf. simpl. by rewrite lookup_insert_eq. }
  destruct node as [[s e ps|s e location items|s e v]|[s e k v]]; simpl in *; try done.
  - destruct (recognizedLocation location); [|done]. by apply Hattach.
  - destruct (recognizedKey k); simpl in *; [|done].
    rewrite Hwalk in Hattach |- *. destruct (underTask _ _); [done|].
    destruct (parentRef r ≫= enclosingObject rootNode); by apply Hattach.
Qed.

Section Mirror.
Context {A : Type} (f : NodeRef -> A -> BuildState -> BuildState) (wrap : A -> Node).
Context (d : TextDocument) (rootNode : ASTNode) (tags : gmap NodeRef nat).
Hypothesis f_grows : forall c r s,
  node_at rootNode r = Some (wrap c) -> grows rootNode r s (f r c s).

(** Walking from [c] with the final tags in place mirrors the walk without
    them. *)
Let mirrors (c : A) : Prop :=
  forall r s,
    idsOrdered s ->
    node_at rootNode r = Some (wrap c) ->
    (forall x, x `suffix_of` r -> x <> r -> tempId s !! x = tags !! x) ->
    (forall x, r `suffix_of` x -> tags !! x = tempId (f r c s) !! x) ->
    f r c (withTags tags s) = withTags tags (f r c s).

Lemma eachChild_mirror r l :
  Forall mirrors l ->
  forall k s,
    idsOrdered s ->
    (forall j c, l !! j = Some c -> node_at rootNode (k + j :: r) = Some (wrap c)) ->
    (forall x, x `suffix_of` r -> tempId s !! x = tags !! x) ->
    (forall j x, k <= j < k + length l -> (j :: r) `suffix_of` x ->
                 tags !! x = tempId (eachChild f r k l s) !! x) ->
    eachChild f r k l (withTags tags s) = withTags tags (eachChild f r k l s).
Proof using f_grows.
  induction 1 as [|c l Hc _ IH]; intros k s Hids Hnodes Hanc Hfin; simpl; [done|].
  assert (Hck : node_at rootNode (k :: r) = Some (wrap c)).
  { specialize (Hnodes 0 c eq_refl). by rewrite Nat.add_0_r in Hnodes. }
  assert (Hnodes' : forall j c', l !! j = Some c' ->
                      node_at rootNode (S k + j :: r) = Some (wrap c')).
  { intros j c' Hj. specialize (Hnodes (S j) c' Hj).
    by replace (k + S j) with (S k + j) in Hnodes by lia. }
  pose proof (f_grows c (k :: r) s Hck Hids) as Hstep.
  pose proof (eachChild_grownAmong f wrap rootNode f_grows r l (S k) _ Hnodes'
                (grown_ids _ _ _ _ Hstep)) as Hrest.
  simpl in Hfin. rewrite Hc; [| done | done | |].
  - apply IH; [apply Hstep|done| |].
    + intros x Hx. rewrite <- Hanc by done.
      apply (grown_tagged _ _ _ _ Hstep). by apply suffix_not_child.
    + intros j x Hj Hx. apply (Hfin j); [lia|done].
  - intros x Hx Hne. apply Hanc.
    destruct Hx as [[|i pre] Hx]; simpl in Hx; [congruence|].
    injection Hx as _ ->. by apply suffix_app_r.
  - intros x Hx. rewrite (Hfin k x) by (done || lia).
    apply (among_tagged _ _ _ _ _ Hrest). intros j Hj Hsuf.
    pose proof (suffix_sibling _ _ _ _ Hx Hsuf). lia.
Qed.

(** The same for a node and its children. *)
Lemma children_mirror node r l s :
  Forall mirrors l ->
  idsOrdered s ->
  node_at rootNode r = Some node ->
  (forall j c, l !! j = Some c -> node_at rootNode (j :: r) = Some (wrap c)) ->
  (forall x, x `suffix_of` r -> x <> r -> tempId s !! x = tags !! x) ->
  (forall x, r `suffix_of` x ->
             tags !! x = tempId (eachChild f r 0 l (outlineVisitor d rootNode r node s)) !! x) ->
  eachChild f r 0 l (outlineVisitor d rootNode r node (withTags tags s))
  = withTags tags (eachChild f r 0 l (outlineVisitor d rootNode r node s)).
Proof using f_grows.
  intros Hl Hids Hr Hnodes Hanc Hfin.
  pose proof (outlineVisitor_grows d rootNode r node s Hr Hids) as Hstep.
  pose proof (eachChild_grownAmong f wrap rootNode f_grows r l 0 _ Hnodes
                (grown_ids _ _ _ _ Hstep)) as Hrest.
  assert (Htop : tags !! r = tempId (outlineVisitor d rootNode r node s) !! r).
  { rewrite (Hfin r) by done. apply (among_tagged _ _ _ _ _ Hrest).
    intros j _. by apply suffix_not_child. }
  rewrite outlineVisitor_withTags by done.
  apply eachChild_mirror; [done|apply Hstep|done| |].
  - intros x Hx. destruct (decide (x = r)) as [->|Hne]; [done|].
    rewrite <- Hanc by done. apply (grown_tagged _ _ _ _ Hstep).
    intros Hsuf. apply Hne. by apply (anti_symm suffix).
  - intros j x _ Hx. apply Hfin. by eapply suffix_cons_l.
Qed.
End Mirror.

Lemma visit_withTags_mutual d rootNode tags :
  (forall n r s,
      idsOrdered s ->
      node_at rootNode r = Some (NodeOf n) ->
      (forall x, x `suffix_of` r -> x <> r -> tempId s !! x = tags !! x) ->
      (forall x, r `suffix_of` x ->
                 tags !! x = tempId (visit (outlineVisitor d rootNode) r n s) !! x) ->
      visit (outlineVisitor d rootNode) r n (withTags tags s)
      = withTags tags (visit (outlineVisitor d rootNode) r n s))
  /\ (forall p r s,
        idsOrdered s ->
        node_at rootNode r = Some (PropOf p) ->
        (forall x, x `suffix_of` r -> x <> r -> tempId s !! x = tags !! x) ->
        (forall x, r `suffix_of` x ->
                   tags !! x
                   = tempId (visitProperty (outlineVisitor d rootNode) r p s) !! x) ->
        visitProperty (outlineVisitor d rootNode) r p (withTags tags s)
        = withTags tags (visitProperty (outlineVisitor d rootNode) r p s)).
Proof.
  apply AST_mutual_ind.
  - intros s e ps IH r st Hids Hr Hanc Hfin.
    apply (children_mirror (visitProperty (outlineVisitor d rootNode)) PropOf d rootNode tags
             (visitProperty_grows d rootNode) (NodeOf (ObjectASTNode s e ps)) r ps st);
      try done.
    intros j p Hj. simpl. rewrite Hr. simpl. by rewrite Hj.
  - intros s e location items IH r st Hids Hr Hanc Hfin.
    apply (children_mirror (visit (outlineVisitor d rootNode)) NodeOf d rootNode tags
             (visit_grows d rootNode) (NodeOf (ArrayASTNode s e location items)) r items st);
      try done.
    intros j c Hj. simpl. rewrite Hr. simpl. by rewrite Hj.
  - intros s e v r st Hids Hr Hanc Hfin.
    apply (children_mirror (visit (outlineVisitor d rootNode)) NodeOf d rootNode tags
             (visit_grows d rootNode) (NodeOf (ValueASTNode s e v)) r [] st);
      try done.
  - intros s e k v IH r st Hids Hr Hanc Hfin.
    apply (children_mirror (visit (outlineVisitor d rootNode)) NodeOf d rootNode tags
             (visit_grows d rootNode) (PropOf (Property s e k v)) r [v] st);
      try done.
    + by repeat constructor.
    + intros [|j] c; [|done]. intros [= <-]. simpl. by rewrite Hr.
Qed.

(** Pass 1 started with the tags a build left behind reaches the state that
    build reached. *)
Lemma buildState_again d jsonDocument tags :
  buildState d jsonDocument (tempId (buildState d jsonDocument tags))
  = buildState d jsonDocument tags.
Proof.
  set (final := tempId (buildState d jsonDocument tags)).
  unfold buildState at 1.
  change (initialState final) with (withTags final (initialState tags)).
  rewrite (proj1 (visit_withTags_mutual d (root jsonDocument) final)).
  - fold (buildState d jsonDocument tags). subst final.
    by destruct (buildState d jsonDocument tags).
  - apply initialState_idsOrdered.
  - done.
  - intros x Hx Hne. apply suffix_nil_inv in Hx. congruence.
  - done.
Qed.

(** ** The tags outlive the call *)

(** C9, counterexample. After a build of the tree for a stage with two
    tasks, started without tags, the AST carries tags. *)
Lemma tags_not_discarded :
  ~ (forall document y tags tree tags',
        getObjectTree document y tags = Returns (tree, tags') -> tags' = tags).
Proof.
  intros Hdiscarded.
  destruct (getObjectTree_returns sampleDocument (single stageWithTasks) _ _ ∅ eq_refl)
    as (tree & Hret & _).
  specialize (Hdiscarded _ _ _ _ _ Hret).
  apply (f_equal (fun m => m !! [0%nat])) in Hdiscarded.
  vm_compute in Hdiscarded. discriminate.
Qed.

(** C9, as the code has it. [nodeMap] and [currentId] belong to one call,
    the tags do not: when [getObjectTree] returns, the AST node behind
    every node of the outline still carries a tag. The tags are all that a
    call leaves behind, and a later call that finds them returns the same
    outline and leaves the same tags. *)
Theorem tags_outlive_the_call :
  forall document y tags tree tags',
    getObjectTree document y tags = Returns (tree, tags') ->
    (forall f, f ∈ below tree ->
       exists x, origin f = Some x /\ is_Some (tags' !! x))
    /\ getObjectTree document y tags' = Returns (tree, tags').
Proof.
  intros [d|] [[|jsonDocument rest]] tags tree tags' Hret; try done.
  destruct (getObjectTree_returns d (mkYAMLDocument (jsonDocument :: rest))
              jsonDocument rest tags eq_refl) as (tree0 & Hret0 & _ & Hbelow).
  rewrite Hret0 in Hret. injection Hret as <- <-. split.
  - intros f Hf. destruct (Hbelow f Hf) as (id & o & Ho & <-).
    eapply (grown_origins _ _ _ _ (buildState_grown d jsonDocument tags)); [|exact Ho].
    intros id' o'. simpl. by rewrite lookup_empty.
  - rewrite <- Hret0. unfold getObjectTree. simpl.
    by rewrite buildState_again.
Qed.

Lemma tags_outlive_the_call_witness :
  exists tree tags',
    getObjectTree (Some sampleDocument) (single stageWithTasks) ∅ = Returns (tree, tags')
    /\ (tags' !! [0] = Some 0 /\ tags' !! [0; 1] = Some 1 /\ size tags' = 4)
    /\ (forall f, f ∈ below tree ->
          exists x, origin f = Some x /\ is_Some (tags' !! x))
    /\ getObjectTree (Some sampleDocument) (single stageWithTasks) tags'
       = Returns (tree, tags').
Proof.
  eexists _, _. split; [vm_compute; reflexivity|].
  split; [|refine (tags_outlive_the_call (Some sampleDocument) (single stageWithTasks)
                     ∅ _ _ _); vm_compute; reflexivity].
  repeat split; vm_compute; reflexivity.
Defined.

(** ** Inside a task *)

Lemma noneMadeAt_trans q s1 s2 s3 :
  objectsKept (nodeMap s2) (nodeMap s3) ->
  noneMadeAt q s1 s2 -> noneMadeAt q s2 s3 -> noneMadeAt q s1 s3.
Proof.
  intros Hkept H12 H23 id o3 Ho3 Hq.
  destruct (H23 id o3 Ho3 Hq) as [o2 Ho2].
  destruct (Hkept id o2 Ho2) as (o3' & Ho3' & Hf).
  apply (H12 id o2 Ho2). congruence.
Qed.

Lemma grownAmong_noneMadeAt rootNode r among q s s' :
  grownAmong rootNode r among s s' ->
  (forall j, among j -> ~ (j :: r) `suffix_of` q) ->
  noneMadeAt q s s'.
Proof.
  intros Hg Hq id o' Ho' Horigin.
  destruct (among_made _ _ _ _ _ Hg id o' Ho') as [(o & Ho & _)|(x & j & Hj & Hx & Hsuf)];
    [eauto|].
  exfalso. apply (Hq j Hj). congruence.
Qed.

Lemma grown_noneMadeAt rootNode r q s s' :
  grown rootNode r s s' -> ~ r `suffix_of` q -> noneMadeAt q s s'.
Proof.
  intros Hg Hq id o' Ho' Horigin.
  destruct (grown_made _ _ _ _ Hg id o' Ho') as [(o & Ho & _)|(x & Hx & Hsuf)]; [eauto|].
  exfalso. apply Hq. congruence.
Qed.

(** The visitor makes an object from the node it visits, if any. *)
Lemma outlineVisitor_noneMadeAt d rootNode r node q s :
  idsOrdered s -> q <> r ->
  noneMadeAt q s (outlineVisitor d rootNode r node s).
Proof.
  intros Hids Hq id o'.
  destruct (outlineVisitor_cases d rootNode r node s) as [->|(f & -> & Horigin & _)];
    [eauto|].
  rewrite attach_nodeMap_lookup;
    [|by apply idsOrdered_fresh|intros t; apply recognizedAncestor_Some].
  repeat case_decide.
  - intros [= <-]. simpl. congruence.
  - intros Ho. apply fmap_Some in Ho as (o & Ho & _). eauto.
  - eauto.
Qed.

Lemma recognizedAncestor_stable tags tags' objects objects' r :
  (forall x, x `suffix_of` r -> x <> r -> tags' !! x = tags !! x) ->
  (forall x t, tags !! x = Some t -> is_Some (objects !! t)) ->
  objectsKept objects objects' ->
  recognizedAncestor tags' objects' r = recognizedAncestor tags objects r.
Proof.
  intros Hagree Hsound Hkept. induction r as [|i par IH]; simpl; [done|].
  rewrite (Hagree par);
    [|by apply suffix_cons_r
     |intros Heq; apply (f_equal length) in Heq; simpl in Heq; lia].
  rewrite IH.
  - destruct (tags !! par) as [t|] eqn:Ht; [|done].
    destruct (Hsound par t Ht) as [o Ho].
    destruct (Hkept t o Ho) as (o' & Ho' & _). by rewrite Ho, Ho'.
  - intros x Hx Hne. apply Hagree; [by apply suffix_cons_r|].
    intros ->. by apply suffix_cons_not in Hx.
Qed.

Lemma underTask_kept objects objects' parentObject :
  (forall t, parentObject = Some t -> is_Some (objects !! t)) ->
  objectsKept objects objects' ->
  underTask objects' parentObject = underTask objects parentObject.
Proof.
  intros Hin Hkept. destruct parentObject as [t|]; [|done].
  destruct (Hin t eq_refl) as [o Ho]. destruct (Hkept t o Ho) as (o' & Ho' & Hf).
  unfold underTask. simpl. by rewrite Ho, Ho', Hf.
Qed.

(** What the ancestor walk finds does not change while other nodes are
    visited. *)
Lemma sealedAt_stable rootNode r0 s s' r :
  tagsSound s ->
  grown rootNode r0 s s' ->
  (forall x, x `suffix_of` r -> x <> r -> tempId s' !! x = tempId s !! x) ->
  sealedAt s r -> sealedAt s' r.
Proof.
  intros Hsound Hg Hagree. unfold sealedAt.
  rewrite (recognizedAncestor_stable (tempId s) (tempId s') (nodeMap s) (nodeMap s'));
    [|done|done|apply Hg].
  rewrite (underTask_kept (nodeMap s) (nodeMap s')); [done| |apply Hg].
  intros t. apply recognizedAncestor_Some.
Qed.

Lemma sealedAt_child s i r :
  tempId s !! r = None -> sealedAt s r -> sealedAt s (i :: r).
Proof.
  unfold sealedAt. simpl. intros ->. destruct r; done.
Qed.

Lemma pickChild_true {A} (f : A -> bool) l : forall j,
  pickChild f j l = true -> exists c, l !! j = Some c /\ f c = true.
Proof.
  induction l as [|c l IH]; intros [|j]; simpl; try done; eauto.
Qed.

Lemma outlineVisitor_tags d rootNode r node s x :
  x <> r -> tempId (outlineVisitor d rootNode r node s) !! x = tempId s !! x.
Proof.
  intros Hx.
  destruct (outlineVisitor_cases d rootNode r node s) as [->|(f & -> & _)]; [done|].
  simpl. by rewrite lookup_insert_ne.
Qed.

Section Excluded.
Context {A : Type} (f : NodeRef -> A -> BuildState -> BuildState) (wrap : A -> Node).
Context (rootNode : ASTNode) (shield : bool -> A -> list nat -> bool).
Hypothesis f_grows : forall c r s,
  node_at rootNode r = Some (wrap c) -> grows rootNode r s (f r c s).

(** Walking from [c], no object is made from a shielded node. *)
Let excludes (c : A) : Prop :=
  forall sealed rest r s,
    idsOrdered s -> tagsSound s -> untagged r s ->
    node_at rootNode r = Some (wrap c) ->
    (sealed = true -> sealedAt s r) ->
    shield sealed c rest = true ->
    noneMadeAt (rev rest ++ r) s (f r c s).

Lemma children_excluded r l i rest sealed s :
  Forall excludes l ->
  pickChild (fun c => shield sealed c rest) i l = true ->
  idsOrdered s -> tagsSound s ->
  (forall j x, (j :: r) `suffix_of` x -> tempId s !! x = None) ->
  (forall j c, l !! j = Some c -> node_at rootNode (j :: r) = Some (wrap c)) ->
  (sealed = true -> sealedAt s (i :: r)) ->
  noneMadeAt (rev rest ++ i :: r) s (eachChild f r 0 l s).
Proof using f_grows.
  intros Hl Hpick Hids Hsound Hfresh Hnodes Hsealed.
  apply pickChild_true in Hpick as (c & Hi & Hshield).
  rewrite Forall_lookup in Hl. pose proof (Hl i c Hi) as Hc.
  rewrite (eachChild_split f r l i c s Hi).
  set (pre := eachChild f r 0 (take i l) s).
  assert (Htarget : (i :: r) `suffix_of` rev rest ++ i :: r) by by apply suffix_app_r.
  assert (Hpre : grownAmong rootNode r (fun j => 0 <= j < 0 + length (take i l)) s pre).
  { apply (eachChild_grownAmong f wrap rootNode f_grows); [|done].
    intros j c' Hj. apply Hnodes. simpl.
    apply lookup_take_Some in Hj. tauto. }
  assert (Hlen : length (take i l) = i).
  { apply length_take_le. apply lookup_lt_Some in Hi. lia. }
  rewrite Hlen in Hpre.
  pose proof (grown_ids _ _ _ _ (among_grown _ _ _ _ _ Hpre)) as Hids_pre.
  assert (Hci : node_at rootNode (i :: r) = Some (wrap c)) by by apply Hnodes.
  pose proof (f_grows c (i :: r) pre Hci Hids_pre) as Hmid.
  assert (Hpost : grownAmong rootNode r
                    (fun j => S i <= j < S i + length (drop (S i) l))
                    (f (i :: r) c pre)
                    (eachChild f r (S i) (drop (S i) l) (f (i :: r) c pre))).
  { apply (eachChild_grownAmong f wrap rootNode f_grows); [|apply Hmid].
    intros j c' Hj. apply Hnodes. by rewrite lookup_drop in Hj. }
  eapply noneMadeAt_trans; [apply Hpost| |].
  - eapply noneMadeAt_trans; [apply Hmid| |].
    + eapply grownAmong_noneMadeAt; [exact Hpre|].
      intros j Hj Hsuf. pose proof (suffix_sibling _ _ _ _ Htarget Hsuf).
      simpl in Hj. lia.
    + apply (Hc sealed rest (i :: r) pre); try done.
      * by apply (grown_sound _ _ _ _ (among_grown _ _ _ _ _ Hpre)).
      * intros x Hx. rewrite (among_tagged _ _ _ _ _ Hpre); [by eapply Hfresh|].
        intros j Hj Hsuf. pose proof (suffix_sibling _ _ _ _ Hx Hsuf).
        simpl in Hj. lia.
      * intros Hs. eapply sealedAt_stable; [done|apply Hpre| |by apply Hsealed].
        intros x Hx Hne. apply (among_tagged _ _ _ _ _ Hpre).
        intros j _. apply suffix_not_child.
        destruct Hx as [[|i' pre'] Hx]; simpl in Hx; [congruence|].
        injection Hx as _ ->. by apply suffix_app_r.
  - eapply grownAmong_noneMadeAt; [exact Hpost|].
    intros j Hj Hsuf. pose proof (suffix_sibling _ _ _ _ Htarget Hsuf).
      simpl in Hj. lia.
Qed.
End Excluded.

Lemma target_not_here (rest : list nat) (i : nat) (r : NodeRef) :
  rev rest ++ i :: r <> r.
Proof.
  intros Heq. apply (f_equal length) in Heq. rewrite length_app in Heq.
  simpl in Heq. lia.
Qed.

Lemma underTask_Some objects t :
  underTask objects (Some t)
  = match objects !! t with
    | Some o => bool_decide (f_key (o_fields o) = "task")
    | None => false
    end.
Proof. reflexivity. Qed.

(** A task that got its outline node seals what is below it. *)
Lemma attach_task_sealedAt r parentObject f st :
  idsOrdered st ->
  (forall t, parentObject = Some t -> is_Some (nodeMap st !! t)) ->
  f_key f = "task" ->
  sealedAt (attach r parentObject f st) (0 :: r).
Proof.
  intros Hids Hparent Hkey. unfold sealedAt.
  assert (Hnew : nodeMap (attach r parentObject f st) !! currentId st
                 = Some (mkOutlineObject f [])).
  { rewrite attach_nodeMap_lookup; [|by apply idsOrdered_fresh|done].
    by rewrite decide_True. }
  change (recognizedAncestor (tempId (attach r parentObject f st))
            (nodeMap (attach r parentObject f st)) (0 :: r))
    with (match tempId (attach r parentObject f st) !! r with
          | Some t => match nodeMap (attach r parentObject f st) !! t with
                      | Some _ => Some t
                      | None => recognizedAncestor (tempId (attach r parentObject f st))
                                  (nodeMap (attach r parentObject f st)) r
                      end
          | None => recognizedAncestor (tempId (attach r parentObject f st))
                      (nodeMap (attach r parentObject f st)) r
          end).
  replace (tempId (attach r parentObject f st) !! r) with (Some (currentId st))
    by (simpl; by rewrite lookup_insert_eq).
  rewrite Hnew, underTask_Some, Hnew. simpl.
  by apply bool_decide_eq_true_2.
Qed.

(** Pass 1 makes no object from a shielded property. *)
Lemma shielded_excluded_mutual d rootNode :
  (forall n sealed path r s,
      idsOrdered s -> tagsSound s -> untagged r s ->
      node_at rootNode r = Some (NodeOf n) ->
      (sealed = true -> sealedAt s r) ->
      shielded sealed n path = true ->
      noneMadeAt (rev path ++ r) s (visit (outlineVisitor d rootNode) r n s))
  /\ (forall p sealed rest r s,
        idsOrdered s -> tagsSound s -> untagged r s ->
        node_at rootNode r = Some (PropOf p) ->
        (sealed = true -> sealedAt s r) ->
        shieldedProperty sealed p rest = true ->
        noneMadeAt (rev rest ++ r) s (visitProperty (outlineVisitor d rootNode) r p s)).
Proof.
  apply AST_mutual_ind.
  - (* Object *)
    intros s e ps IH sealed [|i rest] r st Hids Hsound Hfresh Hr Hsealed Hshield;
      [done|].
    simpl in Hshield. simpl rev. rewrite <- app_assoc. simpl.
    apply (children_excluded (visitProperty (outlineVisitor d rootNode)) PropOf rootNode
             shieldedProperty (visitProperty_grows d rootNode) r ps i rest sealed st);
      try done.
    + intros j x Hx. apply Hfresh. by eapply suffix_cons_l.
    + intros j p Hj. simpl. rewrite Hr. simpl. by rewrite Hj.
    + intros Hs. apply sealedAt_child; [by apply Hfresh|by apply Hsealed].
  - (* Array *)
    intros s e location items IH sealed [|i rest] r st Hids Hsound Hfresh Hr Hsealed
      Hshield; [done|].
    simpl in Hshield. simpl rev. rewrite <- app_assoc.
    change (visit (outlineVisitor d rootNode) r (ArrayASTNode s e location items) st)
      with (eachChild (visit (outlineVisitor d rootNode)) r 0 items
              (outlineVisitor d rootNode r (NodeOf (ArrayASTNode s e location items)) st)).
    set (st1 := outlineVisitor d rootNode r (NodeOf (ArrayASTNode s e location items)) st).
    pose proof (outlineVisitor_grows d rootNode r _ st Hr Hids) as Hstep. fold st1 in Hstep.
    assert (Hfresh1 : forall j x, (j :: r) `suffix_of` x -> tempId st1 !! x = None).
    { intros j x Hx. unfold st1. rewrite outlineVisitor_tags.
      - apply Hfresh. by eapply suffix_cons_l.
      - intros ->. by apply suffix_cons_not in Hx. }
    assert (Hitems : noneMadeAt (rev rest ++ [i] ++ r) st1
                       (eachChild (visit (outlineVisitor d rootNode)) r 0 items st1)).
    { apply (children_excluded (visit (outlineVisitor d rootNode)) NodeOf rootNode
               shielded (visit_grows d rootNode) r items i rest
               (sealedBelowArray sealed location) st1); try done.
      - apply Hstep.
      - by apply (grown_sound _ _ _ _ Hstep).
      - intros j c Hj. simpl. rewrite Hr. simpl. by rewrite Hj.
      - unfold sealedBelowArray. intros Hs. unfold st1. simpl.
        destruct (recognizedLocation location); [done|].
        apply sealedAt_child; [by apply Hfresh|by apply Hsealed]. }
    apply (noneMadeAt_trans _ st st1);
      [|apply (outlineVisitor_noneMadeAt d rootNode r _ _ st Hids (target_not_here rest i r))
       |exact Hitems].
    apply (among_grown rootNode r (fun j => 0 <= j < 0 + length items)).
    apply (eachChild_grownAmong _ NodeOf rootNode (visit_grows d rootNode));
      [|apply Hstep].
    intros j c Hj. simpl. rewrite Hr. simpl. by rewrite Hj.
  - (* Value *)
    intros s e v sealed [|i rest]; done.
  - (* Property *)
    intros s e k v IH sealed rest r st Hids Hsound Hfresh Hr Hsealed Hshield.
    assert (Hv : node_at rootNode (0 :: r) = Some (NodeOf v)) by (simpl; by rewrite Hr).
    change (visitProperty (outlineVisitor d rootNode) r (Property s e k v) st)
      with (visit (outlineVisitor d rootNode) (0 :: r) v
              (outlineVisitor d rootNode r (PropOf (Property s e k v)) st)).
    set (st1 := outlineVisitor d rootNode r (PropOf (Property s e k v)) st).
    pose proof (outlineVisitor_grows d rootNode r _ st Hr Hids) as Hstep. fold st1 in Hstep.
    pose proof (visit_grows d rootNode v (0 :: r) st1 Hv (grown_ids _ _ _ _ Hstep))
      as Hvalue.
    destruct rest as [|[|i] rest]; simpl in Hshield; [| |done].
    + (* the property itself is the target *)
      apply andb_true_iff in Hshield as [-> Hkey].
      assert (Hsame : st1 = st).
      { unfold st1. simpl. rewrite Hkey. simpl.
        specialize (Hsealed eq_refl). unfold sealedAt in Hsealed. by rewrite Hsealed. }
      rewrite Hsame in Hvalue |- *. simpl.
      eapply grown_noneMadeAt; [exact Hvalue|]. apply suffix_cons_not.
    + (* the target is below the value *)
      simpl rev. rewrite <- app_assoc.
      apply (noneMadeAt_trans _ st st1);
        [apply Hvalue
        |apply (outlineVisitor_noneMadeAt d rootNode r _ _ st Hids (target_not_here rest 0 r))|].
      apply (IH (sealed || bool_decide (k = "task")) rest (0 :: r) st1); try done.
      * apply Hstep.
      * by apply (grown_sound _ _ _ _ Hstep).
      * intros x Hx. unfold st1. rewrite outlineVisitor_tags.
        -- apply Hfresh. by eapply suffix_cons_l.
        -- intros ->. by apply suffix_cons_not in Hx.
      * intros Hs. unfold st1. simpl.
        assert (Hchild : sealedAt st r -> sealedAt st (0 :: r)).
        { apply sealedAt_child. by apply Hfresh. }
        destruct (recognizedKey k) eqn:Hkey; simpl.
        -- destruct (underTask (nodeMap st)
                       (recognizedAncestor (tempId st) (nodeMap st) r)) eqn:Hunder.
           ++ by apply Hchild.
           ++ destruct sealed.
              { specialize (Hsealed eq_refl). unfold sealedAt in Hsealed. congruence. }
              simpl in Hs. apply bool_decide_eq_true_1 in Hs.
              destruct (parentRef r ≫= enclosingObject rootNode);
                (apply attach_task_sealedAt;
                 [done|intros t; apply recognizedAncestor_Some|done]).
        -- apply Hchild, Hsealed. destruct sealed; [done|]. simpl in Hs.
           apply bool_decide_eq_true_1 in Hs. subst k. done.
Qed.

Lemma shielded_not_in_outline d y jsonDocument rest tree tags' q :
  documents y = jsonDocument :: rest ->
  getObjectTree (Some d) y ∅ = Returns (tree, tags') ->
  shielded false (root jsonDocument) (rev q) = true ->
  forall f, f ∈ labels tree -> origin f <> Some q.
Proof.
  intros Hdocs Hret Hshield f Hf Horigin.
  destruct (getObjectTree_returns d y jsonDocument rest ∅ Hdocs)
    as (tree0 & Hret0 & Hfields & Hbelow).
  rewrite Hret0 in Hret. injection Hret as <- <-.
  rewrite labels_unfold in Hf. apply elem_of_cons in Hf as [->|Hf].
  { by rewrite Hfields in Horigin. }
  destruct (Hbelow f Hf) as (id & o & Ho & <-).
  pose proof (proj1 (shielded_excluded_mutual d (root jsonDocument))
                (root jsonDocument) false (rev q) [] (initialState ∅)) as Hnone.
  rewrite rev_involutive, app_nil_r in Hnone.
  destruct (Hnone (initialState_idsOrdered ∅)) with (id := id) (o' := o)
    as [o0 Ho0]; done.
Qed.

(** ** Shielded, said with ancestors *)

Lemma pickChild_intro {A} (f : A -> bool) l j c :
  l !! j = Some c -> f c = true -> pickChild f j l = true.
Proof.
  revert j. induction l as [|c' l IH]; intros [|j]; simpl; try done.
  - by intros [= ->].
  - apply IH.
Qed.

Lemma node_at_app rootNode k r :
  is_Some (node_at rootNode (k ++ r)) -> is_Some (node_at rootNode r).
Proof.
  induction k as [|i k IH]; simpl; [done|].
  intros [n Hn]. apply IH. destruct (node_at rootNode (k ++ r)); [eauto|done].
Qed.

Lemma suffix_step (r t q : NodeRef) (i : nat) :
  r `suffix_of` t -> t <> r -> t `suffix_of` q -> (i :: r) `suffix_of` q ->
  (i :: r) `suffix_of` t.
Proof.
  intros [k ->] Hne Htq Hiq.
  destruct k as [|j k] using rev_ind; [done|]. clear IHk.
  rewrite <- app_assoc in Htq |- *. simpl in *.
  assert (Hj : (j :: r) `suffix_of` q).
  { etrans; [|exact Htq]. by apply suffix_app_r. }
  rewrite (suffix_sibling _ _ _ _ Hiq Hj). by apply suffix_app_r.
Qed.

Lemma noRecognizedArray_child rootNode i r q :
  noRecognizedArray rootNode r q -> noRecognizedArray rootNode (i :: r) q.
Proof.
  intros Hfree a s e location items Ha. apply Hfree. by eapply suffix_cons_l.
Qed.

Lemma insideTask_child rootNode i r q :
  (forall t, taskProperty rootNode t -> t <> r) ->
  (i :: r) `suffix_of` q ->
  insideTask rootNode r q -> insideTask rootNode (i :: r) q.
Proof.
  intros Hnot Hq (t & Hrt & Htq & Hne & Htask & Hfree).
  exists t. repeat split; try done.
  apply (suffix_step r t q i); auto.
Qed.

Lemma shielded_intro_both rootNode : forall path,
  (forall n r sealed,
      node_at rootNode r = Some (NodeOf n) ->
      recognizedProperty rootNode (rev path ++ r) ->
      (sealed = true /\ noRecognizedArray rootNode r (rev path ++ r))
      \/ insideTask rootNode r (rev path ++ r) ->
      shielded sealed n path = true)
  /\ (forall p r sealed,
        node_at rootNode r = Some (PropOf p) ->
        recognizedProperty rootNode (rev path ++ r) ->
        (sealed = true /\ noRecognizedArray rootNode r (rev path ++ r))
        \/ insideTask rootNode r (rev path ++ r) ->
        shieldedProperty sealed p path = true).
Proof.
  induction path as [|i path [IHn IHp]]; split.
  - intros n r sealed Hr (s & e & k & v & Hq & _) _. simpl in Hq. congruence.
  - intros [s e k v] r sealed Hr (s' & e' & k' & v' & Hq & Hkey) Hcond. simpl in *.
    rewrite Hr in Hq. injection Hq as -> -> -> ->. rewrite Hkey, andb_true_r.
    destruct Hcond as [[-> _]|(t & Hrt & Htr & Hne & _)]; [done|].
    exfalso. apply Hne. by apply (anti_symm suffix).
  - intros n r sealed Hr Hprop Hcond. simpl rev in *. rewrite <- app_assoc in *.
    simpl in Hprop, Hcond.
    assert (Hq : (i :: r) `suffix_of` rev path ++ i :: r) by by apply suffix_app_r.
    assert (Hchild : is_Some (child (NodeOf n) i)).
    { destruct Hprop as (s & e & k & v & Hnode & _).
      assert (Hsome : is_Some (node_at rootNode (i :: r))).
      { apply (node_at_app _ (rev path)). by rewrite Hnode. }
      simpl in Hsome. by rewrite Hr in Hsome. }
    assert (Hnotask : forall t, taskProperty rootNode t -> t <> r).
    { intros t (s & e & v & Ht) ->. congruence. }
    destruct n as [s e ps|s e location items|s e v]; simpl in Hchild.
    + destruct (ps !! i) as [p|] eqn:Hi; [|by destruct Hchild].
      simpl. apply (pickChild_intro _ ps i p Hi).
      apply (IHp p (i :: r)); [simpl; by rewrite Hr; simpl; rewrite Hi|done|].
      destruct Hcond as [[-> Hfree]|Hin].
      * left. split; [done|by apply noRecognizedArray_child].
      * right. by apply insideTask_child.
    + destruct (items !! i) as [c|] eqn:Hi; [|by destruct Hchild].
      simpl. apply (pickChild_intro _ items i c Hi).
      apply (IHn c (i :: r)); [simpl; by rewrite Hr; simpl; rewrite Hi|done|].
      destruct Hcond as [[-> Hfree]|Hin].
      * left. split; [|by apply noRecognizedArray_child].
        unfold sealedBelowArray.
        rewrite (Hfree r s e location items); [done|done| |done].
        by apply suffix_app_r, suffix_cons_r.
      * right. by apply insideTask_child.
    + by destruct Hchild.
  - intros [s e k v] r sealed Hr Hprop Hcond. simpl rev in *. rewrite <- app_assoc in *.
    simpl in Hprop, Hcond.
    assert (Hq : (i :: r) `suffix_of` rev path ++ i :: r) by by apply suffix_app_r.
    assert (Hchild : is_Some (child (PropOf (Property s e k v)) i)).
    { destruct Hprop as (s' & e' & k' & v' & Hnode & _).
      assert (Hsome : is_Some (node_at rootNode (i :: r))).
      { apply (node_at_app _ (rev path)). by rewrite Hnode. }
      simpl in Hsome. by rewrite Hr in Hsome. }
    destruct i as [|i]; [|by destruct Hchild]. simpl.
    apply (IHn v (0 :: r)); [simpl; by rewrite Hr|done|].
    destruct Hcond as [[-> Hfree]|(t & Hrt & Htq & Hne & Htask & Hfree)].
    + left. split; [done|by apply noRecognizedArray_child].
    + destruct (decide (t = r)) as [->|Hntr].
      * left. destruct Htask as (s' & e' & v' & Ht). rewrite Hr in Ht.
        injection Ht as -> -> -> ->. split.
        -- rewrite bool_decide_eq_true_2 by done. apply orb_true_r.
        -- by apply noRecognizedArray_child.
      * right. exists t. repeat split; try done.
        apply (suffix_step r t (rev path ++ 0 :: r) 0); auto.
Qed.

(** A property with a recognized key inside a task property, with no array
    of a recognized location between them, is shielded. *)
Lemma shielded_of_ancestors rootNode t q :
  taskProperty rootNode t ->
  t `suffix_of` q -> t <> q ->
  recognizedProperty rootNode q ->
  noRecognizedArray rootNode t q ->
  shielded false rootNode (rev q) = true.
Proof.
  intros Htask Htq Hne Hprop Hfree.
  apply (proj1 (shielded_intro_both rootNode (rev q)) rootNode [] false); [done| |].
  - by rewrite rev_involutive, app_nil_r.
  - right. rewrite rev_involutive, app_nil_r. exists t.
    repeat split; try done. apply suffix_nil.
Qed.

(** C3, counterexample. For a script inside an array of steps inside a
    task, the tree [getObjectTree] returns has both the task and the
    script: a descendant of a task with a recognized key can have an
    outline node. *)
Lemma task_descendant_in_outline :
  ~ (forall d y jsonDocument rest tree tags' t q,
        documents y = jsonDocument :: rest ->
        getObjectTree (Some d) y ∅ = Returns (tree, tags') ->
        (exists f, f ∈ labels tree /\ origin f = Some t /\ f_key f = "task") ->
        t `suffix_of` q -> t <> q ->
        recognizedProperty (root jsonDocument) q ->
        forall f, f ∈ labels tree -> origin f <> Some q).
Proof.
  intros Hall.
  destruct (getObjectTree_returns sampleDocument (single taskWithSteps) _ _ ∅ eq_refl)
    as (tree & Hret & _).
  specialize (Hall sampleDocument (single taskWithSteps) _ _ tree _
                [0] [0; 0; 0; 0; 0; 0] eq_refl Hret).
  vm_compute in Hret. injection Hret as <-.
  eapply Hall.
  - eexists. split; [apply list_elem_of_further, list_elem_of_here|]. by split.
  - by exists [0; 0; 0; 0; 0].
  - done.
  - by eexists _, _, _, _.
  - apply list_elem_of_further, list_elem_of_further, list_elem_of_here.
  - reflexivity.
Qed.

(** C3, as the code has it. A property with a recognized key that lies
    inside a property with key [task], with no array of a recognized
    location (stages, steps, jobs) between the two, has no node in the tree
    [getObjectTree] returns for a tree fresh from the parser. *)
Theorem task_descendants_excluded :
  forall d y jsonDocument rest tree tags' t q,
    documents y = jsonDocument :: rest ->
    getObjectTree (Some d) y ∅ = Returns (tree, tags') ->
    taskProperty (root jsonDocument) t ->
    t `suffix_of` q -> t <> q ->
    recognizedProperty (root jsonDocument) q ->
    noRecognizedArray (root jsonDocument) t q ->
    forall f, f ∈ labels tree -> origin f <> Some q.
Proof.
  intros d y jsonDocument rest tree tags' t q Hdocs Hret Htask Htq Hne Hprop Hfree.
  apply (shielded_not_in_outline d y jsonDocument rest tree tags' q Hdocs Hret).
  by apply (shielded_of_ancestors _ t).
Qed.

Lemma task_descendants_excluded_witness :
  exists tree tags',
    getObjectTree (Some sampleDocument) (single taskWithScript) ∅ = Returns (tree, tags')
    /\ f_key <$> labels tree = ["root"; "task"]
    /\ forall f, f ∈ labels tree -> origin f <> Some [0; 0; 0].
Proof.
  eexists _, _. split; [vm_compute; reflexivity|]. split; [reflexivity|].
  eapply (task_descendants_excluded sampleDocument (single taskWithScript) _ _ _ _
            [0] [0; 0; 0] eq_refl).
  - vm_compute. reflexivity.
  - by eexists _, _, _.
  - by exists [0; 0].
  - done.
  - by eexists _, _, _, _.
  - intros a s e location items _ [k Hk] Hnode.
    destruct k as [|i1 [|i2 [|i3 [|i4 k]]]]; simpl in Hk; simplify_eq;
      vm_compute in Hnode; discriminate Hnode.
Defined.

(** * Further properties *)

(** ** [findNodes] with a document *)

Lemma eachChild_listing {A} (f : NodeRef -> A -> _ -> _)
    (listing : A -> list YamlNodeInfo) r l :
  forall i,
    (forall j c nodes, l !! j = Some c ->
       f (i + j :: r) c (Returns nodes) = Returns (nodes ++ listing c)) ->
    forall nodes,
      eachChild f r i l (Returns nodes) = Returns (nodes ++ flat_map listing l).
Proof.
  induction l as [|c l IH]; intros i Hstep nodes; simpl.
  - by rewrite app_nil_r.
  - pose proof (Hstep 0 c nodes eq_refl) as Hc. rewrite Nat.add_0_r in Hc.
    rewrite Hc, IH; [by rewrite <- app_assoc|].
    intros j c' nodes' Hj. specialize (Hstep (S j) c' nodes' Hj).
    by replace (i + S j) with (S i + j) in Hstep by lia.
Qed.

Lemma flat_map_filter_fmap {A B C} (f : A -> list B) (g : B -> C) (keep : B -> bool) l :
  flat_map (fun x => g <$> List.filter keep (f x)) l
  = g <$> List.filter keep (flat_map f l).
Proof.
  induction l as [|x l IH]; [done|]. simpl.
  by rewrite IH, List.filter_app, fmap_app.
Qed.

Lemma findNodesVisitor_property d rootNode key i r s e ps p nodes :
  node_at rootNode r = Some (NodeOf (ObjectASTNode s e ps)) ->
  findNodesVisitor (Some d) rootNode key (i :: r) (PropOf p) (Returns nodes)
  = Returns (nodes ++ (occurrence d <$> List.filter (named key) [(s, e, p)])).
Proof.
  intros Hr. destruct p as [s' e' k v]. unfold findNodesVisitor, parentNode. simpl.
  rewrite Hr. unfold named, hasKey. simpl.
  destruct (decide (k = key)) as [->|Hne].
  - by rewrite bool_decide_eq_true_2.
  - rewrite bool_decide_eq_false_2 by done. by rewrite app_nil_r.
Qed.

Lemma visit_with_document_mutual d rootNode key :
  (forall n r nodes,
      node_at rootNode r = Some (NodeOf n) ->
      visit (findNodesVisitor (Some d) rootNode key) r n (Returns nodes)
      = Returns (nodes ++ (occurrence d <$> List.filter (named key) (propertiesIn n))))
  /\ (forall p i r s e ps nodes,
        node_at rootNode r = Some (NodeOf (ObjectASTNode s e ps)) ->
        ps !! i = Some p ->
        visitProperty (findNodesVisitor (Some d) rootNode key) (i :: r) p (Returns nodes)
        = Returns (nodes ++ (occurrence d
                               <$> List.filter (named key) ((s, e, p) :: propertiesBelow p)))).
Proof.
  apply AST_mutual_ind.
  - intros s e ps IH r nodes Hr. simpl visit.
    rewrite (eachChild_listing _
               (fun p => occurrence d
                           <$> List.filter (named key) ((s, e, p) :: propertiesBelow p))).
    + simpl propertiesIn. by rewrite flat_map_filter_fmap.
    + intros j p nodes' Hj. rewrite Forall_lookup in IH.
      by apply (IH j p Hj j r s e ps).
  - intros s e location items IH r nodes Hr. simpl visit.
    rewrite (eachChild_listing _
               (fun c => occurrence d <$> List.filter (named key) (propertiesIn c))).
    + simpl propertiesIn. by rewrite flat_map_filter_fmap.
    + intros j c nodes' Hj. rewrite Forall_lookup in IH.
      apply (IH j c Hj). simpl. rewrite Hr. simpl. by rewrite Hj.
  - intros s e v r nodes Hr. simpl. by rewrite app_nil_r.
  - intros s e k v IH i r s' e' ps nodes Hr Hi.
    change (visitProperty (findNodesVisitor (Some d) rootNode key) (i :: r)
              (Property s e k v) (Returns nodes))
      with (visit (findNodesVisitor (Some d) rootNode key) (0 :: i :: r) v
              (findNodesVisitor (Some d) rootNode key (i :: r)
                 (PropOf (Property s e k v)) (Returns nodes))).
    assert (Hv : node_at rootNode (0 :: i :: r) = Some (NodeOf v)).
    { simpl. rewrite Hr. simpl. by rewrite Hi. }
    rewrite (findNodesVisitor_property d rootNode key i r s' e' ps _ nodes Hr).
    rewrite (IH _ _ Hv), <- app_assoc, <- fmap_app, <- List.filter_app. done.
Qed.

(** X1. With a document, [findNodes] never throws: it returns one entry for
    every property of the first top-level document whose key is the
    requested one, in document order and without merging repeats, with the
    span of the Object holding the property, the key and the read-out of the
    value. *)
Theorem findNodes_with_document :
  forall d jsonDocument rest key,
    findNodes (Some d) {| documents := jsonDocument :: rest |} key
    = Returns (occurrence d <$> List.filter (named key) (propertiesIn (root jsonDocument))).
Proof.
  intros d jsonDocument rest key. unfold findNodes. simpl.
  by rewrite (proj1 (visit_with_document_mutual d (root jsonDocument) key)).
Qed.

(** X2. Whatever the document, every entry [findNodes] returns carries the
    requested key. *)
Theorem findNodes_entries_keyed :
  forall document y key nodes,
    findNodes document y key = Returns nodes ->
    Forall (fun entry => info_key entry = key) nodes.
Proof.
  intros document [[|jsonDocument rest]] key nodes.
  { intros [= <-]. constructor. }
  destruct document as [d|].
  - unfold findNodes. simpl.
    rewrite (proj1 (visit_with_document_mutual d (root jsonDocument) key)) by done.
    intros [= <-].
    apply Forall_fmap, Forall_forall. intros [[s e] p] Hp.
    apply list_elem_of_In, filter_In in Hp as [_ Hp]. simpl.
    by apply bool_decide_eq_true_1 in Hp.
  - unfold findNodes. simpl.
    rewrite (proj1 (visit_without_document_mutual (root jsonDocument) key)).
    simpl. destruct (mentions key (root jsonDocument)); [done|].
    intros [= <-]. constructor.
Qed.

Lemma findNodes_entries_keyed_witness :
  exists nodes,
    findNodes (Some sampleDocument) (single stageWithTasks) "task" = Returns nodes
    /\ length nodes = 2
    /\ Forall (fun entry => info_key entry = "task") nodes.
Proof.
  eexists. split; [vm_compute; reflexivity|]. split; [reflexivity|].
  apply (findNodes_entries_keyed (Some sampleDocument) (single stageWithTasks) "task").
  vm_compute. reflexivity.
Defined.

(** ** More on the flatten pass *)

Lemma absorb_false_fields cs :
  fields <$> absorb false cs = fields <$> List.filter (fun c => negb (isArray c)) cs.
Proof.
  induction cs as [|c rest IH]; [done|].
  cbn [absorb List.filter]. rewrite andb_true_r.
  destruct (isArray c); cbn [negb]; [exact IH|].
  rewrite !fmap_cons, IH. f_equal.
  destruct rest as [|w rest']; [done|]. by destruct (isArray w).
Qed.

Lemma absorb_children cs : forall first c',
  c' ∈ absorb first cs ->
  exists c, c ∈ cs /\ fields c' = fields c /\ children c `prefix_of` children c'.
Proof.
  induction cs as [|c rest IH]; intros first c'; simpl.
  { intros Hc'. by apply elem_of_nil in Hc'. }
  assert (Hrest : c' ∈ absorb false rest ->
                  exists c0, c0 ∈ c :: rest /\ fields c' = fields c0
                             /\ children c0 `prefix_of` children c').
  { intros Hc'. destruct (IH false c' Hc') as (c0 & Hc0 & Hf & Hp).
    exists c0. split; [by apply list_elem_of_further|done]. }
  destruct (isArray c && negb first); [exact Hrest|].
  rewrite elem_of_cons. intros [->|Hc']; [|by apply Hrest].
  exists c. split; [apply list_elem_of_here|].
  destruct rest as [|w rest']; [done|].
  destruct (isArray w); [|done]. simpl. split; [done|]. by apply prefix_app_r.
Qed.

(** X3. The merge loop keeps the first child and every later child that is
    no array wrapper, in their order and with their scalar members, and
    drops the other children; a kept child keeps its own children in front
    of whatever is appended to it. *)
Theorem mergeLoop_kept_children :
  forall cs : list YamlObjectNode,
    fields <$> mergeLoop cs = fields <$> keptChildren cs
    /\ forall c', c' ∈ mergeLoop cs ->
         exists c, c ∈ cs /\ fields c' = fields c
                   /\ children c `prefix_of` children c'.
Proof.
  intros cs. rewrite mergeLoop_absorb. split; [|apply absorb_children].
  destruct cs as [|c rest]; [done|]. unfold keptChildren.
  cbn [absorb take drop app]. rewrite andb_false_r, !fmap_cons, absorb_false_fields.
  f_equal. destruct rest as [|w rest']; [done|]. by destruct (isArray w).
Qed.


Lemma NoDup_submseteq_inv {A} (l k : list A) : l ⊆+ k -> NoDup k -> NoDup l.
Proof.
  intros Hsub Hk. apply submseteq_Permutation in Hsub as [k' Hperm].
  rewrite Hperm in Hk. by apply NoDup_app in Hk as [? _].
Qed.

(** X4. The flatten pass makes no node and repeats none: the nodes of the
    result are nodes of the input, each at most as often as there. So the
    result has at most as many nodes, and when the nodes of the input are
    pairwise distinct, so are those of the result. *)
Theorem flattenArrays_no_new_nodes :
  forall node : YamlObjectNode,
    labels (_flattenArrays node) ⊆+ labels node
    /\ length (labels (_flattenArrays node)) <= length (labels node)
    /\ (NoDup (origin <$> labels node) ->
        NoDup (origin <$> labels (_flattenArrays node))).
Proof.
  intros node. pose proof (flattenArrays_submseteq node) as Hsub.
  split; [exact Hsub|]. split; [by apply submseteq_length|].
  apply NoDup_submseteq_inv. by apply fmap_submseteq.
Qed.

Lemma flattenArrays_no_new_nodes_witness :
  exists provisional,
    provisionalTree sampleDocument {| root := stageWithTasks |}
      (buildState sampleDocument {| root := stageWithTasks |} ∅) = Some provisional
    /\ length (labels provisional) = 5
    /\ NoDup (origin <$> labels provisional)
    /\ NoDup (origin <$> labels (_flattenArrays provisional)).
Proof.
  eexists. split; [vm_compute; reflexivity|]. split; [reflexivity|].
  match goal with
  | |- ?P /\ _ => assert (Hdistinct : P)
  end.
  { apply (bool_decide_unpack _). vm_compute. reflexivity. }
  split; [exact Hdistinct|].
  exact (proj2 (proj2 (flattenArrays_no_new_nodes _)) Hdistinct).
Defined.

Lemma wrappersApartIn_flattened cs : forall first,
  wrappersApartIn first (List.map _flattenArrays cs) = wrappersApartIn first cs.
Proof.
  induction cs as [|c rest IH]; intros first; [done|].
  cbn [List.map wrappersApartIn]. rewrite IH, isArray_flattenArrays.
  destruct rest as [|w rest']; [done|]. cbn [List.map].
  by rewrite isArray_flattenArrays.
Qed.

(** Where no wrapper follows a dropped wrapper, every node that is no
    wrapper is kept by the merge loop or handed over. *)
Lemma absorb_keeps_plain cs : forall first,
  wrappersApartIn first cs = true ->
  forall f, plain f -> f ∈ flat_map labels cs ->
    f ∈ handedOver first cs ++ flat_map labels (absorb first cs).
Proof.
  induction cs as [|c rest IH]; intros first Hapart f Hplain Hf; [done|].
  cbn [wrappersApartIn] in Hapart. apply andb_true_iff in Hapart as [Hnext Hrest].
  cbn [flat_map] in Hf. apply elem_of_app in Hf as [Hf|Hf].
  - cbn [absorb handedOver]. destruct (isArray c && negb first) eqn:Hdrop.
    + apply elem_of_app. left. rewrite labels_unfold in Hf.
      apply elem_of_cons in Hf as [->|Hf]; [|done].
      apply andb_true_iff in Hdrop as [Harr _]. unfold plain, isArray in *. congruence.
    + cbn [app flat_map]. apply elem_of_app. left.
      destruct rest as [|w rest']; [done|]. destruct (isArray w); [|done].
      rewrite labels_setChildren_app. apply elem_of_app. by left.
  - specialize (IH false Hrest f Hplain Hf).
    cbn [absorb handedOver]. destruct (isArray c && negb first) eqn:Hdrop.
    + apply elem_of_app. right.
      apply elem_of_app in IH as [IH|IH]; [|done].
      destruct rest as [|w rest']; [by apply elem_of_nil in IH|].
      apply negb_true_iff in Hnext. cbn [handedOver] in IH. rewrite Hnext in IH.
      by apply elem_of_nil in IH.
    + cbn [app flat_map]. apply elem_of_app.
      apply elem_of_app in IH as [IH|IH]; [left|by right].
      destruct rest as [|w rest']; [by apply elem_of_nil in IH|].
      cbn [handedOver] in IH. rewrite andb_true_r in IH.
      destruct (isArray w); [|by apply elem_of_nil in IH].
      rewrite labels_setChildren_app. apply elem_of_app. by right.
Qed.

(** X5. The flatten pass loses a node that is no array wrapper only through
    a wrapper that follows a dropped wrapper: on an outline in which, among
    the children of every node, no wrapper at index 2 or more comes right
    after a wrapper, every node that is no wrapper is a node of the
    result. *)
Theorem flattenArrays_keeps_plain_nodes :
  forall node : YamlObjectNode,
    wrappersApart node = true ->
    forall f, plain f -> f ∈ labels node -> f ∈ labels (_flattenArrays node).
Proof.
  induction node as [f0 cs IH] using YamlObjectNode_forall_ind.
  cbn [wrappersApart]. rewrite andb_true_iff, forallb_forall.
  intros [Hapart Hcs] f Hplain Hf.
  rewrite flattenArrays_unfold. cbn [labels] in Hf |- *.
  apply elem_of_cons in Hf as [->|Hf]; [apply list_elem_of_here|].
  apply list_elem_of_further.
  assert (Hmap : f ∈ flat_map labels (List.map _flattenArrays cs)).
  { apply list_elem_of_In, in_flat_map in Hf as (c & Hc & Hf).
    apply list_elem_of_In, in_flat_map. exists (_flattenArrays c).
    split; [by apply in_map|]. apply list_elem_of_In.
    rewrite Forall_forall in IH.
    apply IH; [by apply list_elem_of_In|by apply Hcs|done|by apply list_elem_of_In]. }
  assert (Habs : f ∈ flat_map labels (absorb true (List.map _flattenArrays cs))).
  { pose proof (absorb_keeps_plain (List.map _flattenArrays cs) true) as Hkeep.
    rewrite wrappersApartIn_flattened in Hkeep.
    specialize (Hkeep Hapart f Hplain Hmap).
    destruct (List.map _flattenArrays cs) as [|c rest]; [done|].
    cbn [handedOver] in Hkeep. by rewrite andb_false_r in Hkeep. }
  destruct (List.map _flattenArrays cs) as [|only [|second rest]] eqn:Hflat;
    try exact Habs.
  destruct (isArray only) eqn:Harr; [|exact Habs].
  cbn [flat_map] in Hmap. rewrite app_nil_r, labels_unfold in Hmap.
  apply elem_of_cons in Hmap as [->|Hmap]; [|done].
  unfold plain, isArray in *. congruence.
Qed.

Lemma flattenArrays_keeps_plain_nodes_witness :
  exists provisional,
    provisionalTree sampleDocument {| root := stageWithTasks |}
      (buildState sampleDocument {| root := stageWithTasks |} ∅) = Some provisional
    /\ f_key <$> List.filter (fun f => negb (f_isArray f)) (labels provisional)
       = ["root"; "stage"; "task"; "task"]
    /\ forall f, plain f -> f ∈ labels provisional ->
                 f ∈ labels (_flattenArrays provisional).
Proof.
  eexists. split; [vm_compute; reflexivity|]. split; [reflexivity|].
  apply flattenArrays_keeps_plain_nodes. vm_compute. reflexivity.
Defined.

(** X6. An outline without array wrappers is left as it is by the flatten
    pass. *)
Theorem flattenArrays_fixes_wrapper_free :
  forall node : YamlObjectNode,
    wrapperFree node = true -> _flattenArrays node = node.
Proof. exact flattenArrays_wrapperFree. Qed.

Lemma flattenArrays_fixes_wrapper_free_witness :
  exists provisional,
    provisionalTree sampleDocument {| root := taskWithScript |}
      (buildState sampleDocument {| root := taskWithScript |} ∅) = Some provisional
    /\ f_key <$> labels provisional = ["root"; "task"]
    /\ _flattenArrays provisional = provisional.
Proof.
  eexists. split; [vm_compute; reflexivity|]. split; [reflexivity|].
  apply flattenArrays_fixes_wrapper_free. vm_compute. reflexivity.
Defined.

(** ** More on [getObjectTree] *)

(** The visitor either leaves the state alone or attaches the object made
    from the node visited. *)
Lemma outlineVisitor_made d rootNode r node st :
  outlineVisitor d rootNode r node st = st
  \/ exists f,
       outlineVisitor d rootNode r node st
       = attach r (recognizedAncestor (tempId st) (nodeMap st) r) f st
       /\ madeFrom d rootNode r node f.
Proof.
  destruct node as [[s e ps|s e location items|s e v]|[s e k v]]; simpl; auto.
  - destruct (recognizedLocation location) as [name|] eqn:Hloc; auto.
    right. eexists. split; [reflexivity|]. by exists name.
  - destruct (recognizedKey k) eqn:Hkey; simpl; auto.
    destruct (underTask _ _); auto.
    right. destruct (parentRef r ≫= enclosingObject rootNode) as [o|];
      (eexists; split; [reflexivity|]; split; [done|]; by eexists _, _).
Qed.

Section ObjectsAll.
Context (d : TextDocument) (rootNode : ASTNode) (P : Fields -> Prop).
Hypothesis made_P : forall r node f,
  node_at rootNode r = Some node -> madeFrom d rootNode r node f -> P f.

Lemma outlineVisitor_objectsAll r node st :
  node_at rootNode r = Some node ->
  idsOrdered st -> objectsAll P st ->
  objectsAll P (outlineVisitor d rootNode r node st).
Proof using made_P.
  intros Hr Hids Hall.
  destruct (outlineVisitor_made d rootNode r node st) as [->|(f & -> & Hmade)]; [done|].
  intros id o. rewrite attach_nodeMap_lookup;
    [|by apply idsOrdered_fresh|intros t; apply recognizedAncestor_Some].
  repeat case_decide.
  - intros [= <-]. by apply (made_P r node).
  - intros Ho. apply fmap_Some in Ho as (o' & Ho' & ->). by apply (Hall _ _ Ho').
  - apply Hall.
Qed.

Lemma visit_objectsAll n r st :
  node_at rootNode r = Some (NodeOf n) ->
  idsOrdered st -> objectsAll P st ->
  objectsAll P (visit (outlineVisitor d rootNode) r n st).
Proof using made_P.
  intros Hr Hids Hall.
  apply (visit_rule (outlineVisitor d rootNode) rootNode
           (fun _ s s' => idsOrdered s -> objectsAll P s ->
                          idsOrdered s' /\ objectsAll P s')); auto.
  - intros _ s1 s2 s3 H12 H23 H1 HP1. destruct (H12 H1 HP1). auto.
  - intros r' node s Hr' Hs HPs. split.
    + by apply (outlineVisitor_grows d rootNode r' node s Hr').
    + by apply outlineVisitor_objectsAll.
Qed.
End ObjectsAll.

(** What holds of every object the visitor makes holds of every node below
    the root of the returned outline. *)
Lemma outline_nodes_made d y jsonDocument rest tags tree tags' (P : Fields -> Prop) :
  (forall r node f, node_at (root jsonDocument) r = Some node ->
                    madeFrom d (root jsonDocument) r node f -> P f) ->
  documents y = jsonDocument :: rest ->
  getObjectTree (Some d) y tags = Returns (tree, tags') ->
  forall f, f ∈ below tree -> P f.
Proof.
  intros Hmade Hdocs Hret f Hf.
  destruct (getObjectTree_returns d y jsonDocument rest tags Hdocs)
    as (tree0 & Hret0 & _ & Hbelow).
  rewrite Hret0 in Hret. injection Hret as <- <-.
  destruct (Hbelow f Hf) as (id & o & Ho & <-).
  eapply (visit_objectsAll d (root jsonDocument) P Hmade (root jsonDocument) []
            (initialState tags)); [done|apply initialState_idsOrdered| |exact Ho].
  intros id' o'. simpl. by rewrite lookup_empty.
Qed.

Lemma recognizedKey_vocabulary k :
  recognizedKey k = true -> k ∈ ["stage"; "task"; "script"; "job"; "deployment"].
Proof.
  unfold recognizedKey. rewrite !orb_true_iff, !bool_decide_eq_true.
  intros [[[[->| ->]| ->]| ->]| ->]; set_solver.
Qed.

Lemma recognizedLocation_vocabulary location name :
  recognizedLocation location = Some name -> name ∈ ["stages"; "steps"; "jobs"].
Proof.
  destruct location as [name'|i]; simpl; [|done].
  destruct (bool_decide (name' = "stages") || bool_decide (name' = "steps")
            || bool_decide (name' = "jobs")) eqn:Hin; [|done].
  intros [= <-]. rewrite !orb_true_iff, !bool_decide_eq_true in Hin.
  destruct Hin as [[->| ->]| ->]; set_solver.
Qed.

(** X7. The keys of the outline are of the closed vocabulary: in every
    tree [getObjectTree] returns, whatever tags it found, an array wrapper
    below the root is keyed stages, steps or jobs, and every other node
    below the root stage, task, script, job or deployment. *)
Theorem outline_keys_in_vocabulary :
  forall d y jsonDocument rest tags tree tags',
    documents y = jsonDocument :: rest ->
    getObjectTree (Some d) y tags = Returns (tree, tags') ->
    forall f, f ∈ below tree -> keyInVocabulary f.
Proof.
  intros d y jsonDocument rest tags tree tags'.
  apply outline_nodes_made. intros r node f _.
  destruct node as [[s e ps|s e location items|s e v]|[s e k v]]; simpl; try done.
  - intros (name & Hloc & ->). by apply (recognizedLocation_vocabulary location).
  - intros (Hkey & from & to & _ & ->). by apply recognizedKey_vocabulary.
Qed.

Lemma outline_keys_in_vocabulary_witness :
  exists tree tags',
    getObjectTree (Some sampleDocument) (single twoArrays) ∅ = Returns (tree, tags')
    /\ (f_key <$> below tree) = ["jobs"; "job"; "script"]
    /\ forall f, f ∈ below tree -> keyInVocabulary f.
Proof.
  eexists _, _. split; [vm_compute; reflexivity|]. split; [reflexivity|].
  eapply (outline_keys_in_vocabulary sampleDocument (single twoArrays) _ _ ∅);
    [reflexivity|vm_compute; reflexivity].
Defined.

Lemma property_holder rootNode r p :
  node_at rootNode r = Some (PropOf p) ->
  exists i holder s e ps,
    r = i :: holder
    /\ node_at rootNode holder = Some (NodeOf (ObjectASTNode s e ps))
    /\ ps !! i = Some p.
Proof.
  destruct r as [|i holder]; simpl; [done|].
  destruct (node_at rootNode holder) as [[[s e ps|s e location items|s e v]|[s e k v]]|]
    eqn:Hholder; simpl; try done.
  - destruct (ps !! i) as [p'|] eqn:Hi; simpl; [|done].
    intros [= <-]. by exists i, holder, s, e, ps.
  - by destruct (items !! i).
  - by destruct i.
Qed.

Lemma enclosingObject_here rootNode r s e ps :
  node_at rootNode r = Some (NodeOf (ObjectASTNode s e ps)) ->
  enclosingObject rootNode r = Some (ObjectASTNode s e ps).
Proof.
  intros Hr. destruct r as [|i par].
  - simpl in *. by injection Hr as ->.
  - cbn [enclosingObject]. by rewrite Hr.
Qed.

(** X8. The span of a node made from a property is the span of the Object
    that holds the property, never the property's own: the fall-back of the
    source is not reached for a property of the tree. The span of a wrapper
    is that of its Array. *)
Theorem outline_spans :
  forall d y jsonDocument rest tags tree tags',
    documents y = jsonDocument :: rest ->
    getObjectTree (Some d) y tags = Returns (tree, tags') ->
    forall f, f ∈ below tree -> spanOfHolder d (root jsonDocument) f.
Proof.
  intros d y jsonDocument rest tags tree tags'.
  apply outline_nodes_made. intros r node f Hr.
  destruct node as [[s e ps|s e location items|s e v]|[s e k v]]; simpl; try done.
  - intros (name & Hloc & ->). exists r. split; [done|]. simpl. by eexists _, _, _, _.
  - intros (Hkey & from & to & Hspan & ->). exists r. split; [done|]. simpl.
    destruct (property_holder _ _ _ Hr) as (i & holder & s' & e' & ps & -> & Hholder & _).
    exists i, holder, s', e', ps. split; [done|]. split; [done|].
    change (parentRef (i :: holder) ≫= enclosingObject (root jsonDocument))
      with (enclosingObject (root jsonDocument) holder) in Hspan.
    rewrite (enclosingObject_here _ _ _ _ _ Hholder) in Hspan.
    by injection Hspan as -> ->.
Qed.

Lemma outline_spans_witness :
  exists tree tags',
    getObjectTree (Some sampleDocument) (single stageWithTasks) ∅ = Returns (tree, tags')
    /\ (f_endPosition <$> below tree)
       = [ {| line := 0; character := 60 |}; {| line := 0; character := 30 |};
           {| line := 0; character := 44 |} ]
    /\ forall f, f ∈ below tree -> spanOfHolder sampleDocument stageWithTasks f.
Proof.
  eexists _, _. split; [vm_compute; reflexivity|]. split; [reflexivity|].
  eapply (outline_spans sampleDocument (single stageWithTasks)
            {| root := stageWithTasks |} [] ∅);
    [reflexivity|vm_compute; reflexivity].
Defined.

(** X9. [getObjectTree] throws exactly when the document or the first
    top-level document is missing. In every other case it returns, and the
    top of the tree is the synthetic root: key and value [root], the span
    of the root node of the document, no array wrapper. *)
Theorem getObjectTree_throws_or_roots :
  forall document y tags,
    match getObjectTree document y tags with
    | Throws _ => document = None \/ documents y = []
    | Returns (tree, _) =>
        exists d jsonDocument rest,
          document = Some d /\ documents y = jsonDocument :: rest
          /\ key tree = "root" /\ value tree = VStr "root" /\ isArray tree = false
          /\ startPosition tree = positionAt d (ast_start (root jsonDocument))
          /\ endPosition tree = positionAt d (ast_end (root jsonDocument))
    end.
Proof.
  intros [d|] [[|jsonDocument rest]] tags; simpl; auto.
  destruct (getObjectTree_returns d (mkYAMLDocument (jsonDocument :: rest))
              jsonDocument rest tags eq_refl) as (tree & Hret & Hfields & _).
  simpl in Hret. rewrite Hret. exists d, jsonDocument, rest.
  unfold key, value, isArray, startPosition, endPosition. by rewrite Hfields.
Qed.

Lemma eachChild_unchanged {A St} (f : NodeRef -> A -> St -> St) r l :
  Forall (fun c => forall r s, f r c s = s) l ->
  forall i s, eachChild f r i l s = s.
Proof.
  induction 1 as [|c l Hc _ IH]; intros i s; simpl; [done|]. by rewrite Hc, IH.
Qed.

Lemma Forall_forallb_impl {A} (P : A -> Prop) (t : A -> bool) (l : list A) :
  Forall (fun x => t x = true -> P x) l -> forallb t l = true -> Forall P l.
Proof.
  induction 1 as [|x l Hx _ IH]; simpl; [constructor|].
  intros [Hx' Hl]%andb_true_iff. constructor; auto.
Qed.

Lemma visit_unrecognized_mutual d rootNode :
  (forall n, unrecognized n = true ->
             forall r st, visit (outlineVisitor d rootNode) r n st = st)
  /\ (forall p, unrecognizedProperty p = true ->
                forall r st, visitProperty (outlineVisitor d rootNode) r p st = st).
Proof.
  apply AST_mutual_ind.
  - intros s e ps IH Hun r st. simpl in *.
    apply eachChild_unchanged. by apply (Forall_forallb_impl _ unrecognizedProperty).
  - intros s e location items IH Hun r st. simpl in *.
    apply andb_true_iff in Hun as [Hloc Hitems].
    apply negb_true_iff, bool_decide_eq_false_1 in Hloc.
    destruct (recognizedLocation location); [by destruct Hloc|].
    apply eachChild_unchanged. by apply (Forall_forallb_impl _ unrecognized).
  - done.
  - intros s e k v IH Hun r st. simpl in *.
    apply andb_true_iff in Hun as [Hkey Hv]. rewrite Hkey. simpl. by apply IH.
Qed.

(** X10. For a document with no property of a recognized key and no array
    of a recognized location, [getObjectTree] returns the root without
    children and leaves the tags as it found them. *)
Theorem getObjectTree_nothing_recognized :
  forall d jsonDocument rest tags,
    unrecognized (root jsonDocument) = true ->
    getObjectTree (Some d) {| documents := jsonDocument :: rest |} tags
    = Returns (mkYamlObjectNode (rootFields d (root jsonDocument)) [], tags).
Proof.
  intros d jsonDocument rest tags Hun. unfold getObjectTree. simpl.
  unfold buildState.
  by rewrite (proj1 (visit_unrecognized_mutual d (root jsonDocument)) _ Hun).
Qed.

Lemma getObjectTree_nothing_recognized_witness :
  getObjectTree (Some sampleDocument) (single noSections) ∅
  = Returns (mkYamlObjectNode (rootFields sampleDocument noSections) [], ∅).
Proof.
  apply (getObjectTree_nothing_recognized sampleDocument {| root := noSections |} [] ∅).
  vm_compute. reflexivity.
Defined.

(** X11. [getObjectTree] writes tags only on properties with a recognized
    key and arrays of a recognized location: on every other node of the
    AST the tag after the call is the tag before it. *)
Theorem tags_only_on_recognized_nodes :
  forall d y jsonDocument rest tags tree tags',
    documents y = jsonDocument :: rest ->
    getObjectTree (Some d) y tags = Returns (tree, tags') ->
    forall x, tags' !! x <> tags !! x -> recognizedNode (root jsonDocument) x.
Proof.
  intros d y jsonDocument rest tags tree tags' Hdocs Hret.
  destruct (getObjectTree_returns d y jsonDocument rest tags Hdocs)
    as (tree0 & Hret0 & _).
  rewrite Hret0 in Hret. injection Hret as <- <-.
  apply (visit_rule (outlineVisitor d (root jsonDocument)) (root jsonDocument)
           (fun _ s s' => forall x, tempId s' !! x <> tempId s !! x ->
                                    recognizedNode (root jsonDocument) x)); try done.
  - intros _ s1 s2 s3 H12 H23 x Hx.
    destruct (decide (tempId s2 !! x = tempId s1 !! x)) as [Heq|Hne]; [|by apply H12].
    apply H23. congruence.
  - intros r node s Hr x.
    destruct (outlineVisitor_made d (root jsonDocument) r node s)
      as [->|(f & -> & Hmade)]; [done|].
    simpl. destruct (decide (r = x)) as [<-|Hne];
      [|by rewrite lookup_insert_ne].
    intros _.
    destruct node as [[s0 e ps|s0 e location items|s0 e v]|[s0 e k v]];
      simpl in Hmade; try done.
    + destruct Hmade as (name & Hloc & _). right.
      exists s0, e, location, items. by rewrite Hloc.
    + destruct Hmade as (Hkey & _). left. by exists s0, e, k, v.
Qed.

Lemma tags_only_on_recognized_nodes_witness :
  exists tree tags',
    getObjectTree (Some sampleDocument) (single taskWithInputs) ∅ = Returns (tree, tags')
    /\ dom tags' = {[ [0] ]}
    /\ forall x, tags' !! x <> (∅ : gmap NodeRef nat) !! x -> recognizedNode taskWithInputs x.
Proof.
  eexists _, _. split; [vm_compute; reflexivity|].
  split; [apply (bool_decide_unpack _); vm_compute; exact I|].
  eapply (tags_only_on_recognized_nodes sampleDocument (single taskWithInputs)
            {| root := taskWithInputs |} [] ∅);
    [reflexivity|vm_compute; reflexivity].
Defined.

(** ** Pass 1 by recursion on the AST *)

Lemma mapM_ext_in {A B} (f g : A -> option B) (l : list A) :
  (forall x, x ∈ l -> f x = g x) -> mapM f l = mapM g l.
Proof.
  induction l as [|x l IH]; intros Hfg; [done|].
  cbn [mapM]. rewrite (Hfg x) by apply list_elem_of_here.
  rewrite IH; [done|]. intros y Hy. apply Hfg. by apply list_elem_of_further.
Qed.

(** Reading an object off the store looks only at the objects from it on. *)
Lemma objectTree_agree objects objects' lo hi :
  (forall id, lo <= id < hi -> objects' !! id = objects !! id) ->
  (forall id o c, lo <= id -> objects !! id = Some o -> c ∈ o_children o -> id < c < hi) ->
  forall fuel id, lo <= id < hi ->
    objectTree fuel objects' id = objectTree fuel objects id.
Proof.
  intros Hagree Hkids. induction fuel as [|fuel IH]; intros id Hid; [done|].
  cbn [objectTree]. rewrite (Hagree id Hid).
  destruct (objects !! id) as [o|] eqn:Ho; [|done]. cbn [mbind option_bind].
  rewrite (mapM_ext_in (objectTree fuel objects') (objectTree fuel objects)); [done|].
  intros c Hc. apply IH. pose proof (Hkids id o c (proj1 Hid) Ho Hc). lia.
Qed.

Lemma reads_stable objects objects' lo hi hi' c t :
  (forall id, lo <= id < hi -> objects' !! id = objects !! id) ->
  (forall id o c, lo <= id -> objects !! id = Some o -> c ∈ o_children o -> id < c < hi) ->
  lo <= c < hi -> hi <= hi' ->
  reads objects hi c t -> reads objects' hi' c t.
Proof.
  intros Hagree Hkids Hc Hhi Hreads fuel Hfuel.
  rewrite (objectTree_agree objects objects' lo hi); auto. apply Hreads. lia.
Qed.

Lemma Forall2_impl_elem {A B} (P Q : A -> B -> Prop) l k :
  Forall2 P l k -> (forall x y, x ∈ l -> P x y -> Q x y) -> Forall2 Q l k.
Proof.
  induction 1 as [|x y l k Hxy _ IH]; intros HPQ; constructor.
  - apply HPQ; [apply list_elem_of_here|done].
  - apply IH. intros x' y' Hx'. apply HPQ. by apply list_elem_of_further.
Qed.

Lemma pushAll_nil o : pushAll [] o = o.
Proof. destruct o. unfold pushAll. simpl. by rewrite app_nil_r. Qed.

Lemma pushAll_app top1 top2 o : pushAll top2 (pushAll top1 o) = pushAll (top1 ++ top2) o.
Proof. unfold pushAll. simpl. by rewrite app_assoc. Qed.

Lemma built_refl owner st : built owner st st [] [].
Proof.
  split; try done.
  - intros id _. case_decide; [|done].
    destruct (nodeMap st !! id) as [o|]; [|done]. simpl. by rewrite pushAll_nil.
  - destruct owner; by rewrite app_nil_r.
Qed.

Lemma built_trans owner s1 s2 s3 top1 top2 trees1 trees2 :
  idsOrdered s2 ->
  (forall t, owner = Some t -> t < currentId s1) ->
  built owner s1 s2 top1 trees1 ->
  built owner s2 s3 top2 trees2 ->
  built owner s1 s3 (top1 ++ top2) (trees1 ++ trees2).
Proof.
  intros (Hdom & Hkids & _) Howner [Hc1 Ho1 Hr1 Hn1 Ht1] [Hc2 Ho2 Hr2 Hn2 Ht2].
  split.
  - lia.
  - intros id Hid. rewrite Ho2 by lia. rewrite Ho1 by done.
    case_decide; [|done].
    destruct (nodeMap s1 !! id) as [o|]; [|done]. simpl. by rewrite pushAll_app.
  - rewrite Hr2, Hr1, <- app_assoc. by destruct owner.
  - apply Forall_app. split.
    + eapply Forall_impl; [exact Hn1|]. simpl. lia.
    + eapply Forall_impl; [exact Hn2|]. simpl. lia.
  - apply Forall2_app; [|done].
    rewrite Forall_forall in Hn1.
    eapply Forall2_impl_elem; [exact Ht1|]. simpl. intros c t Hc Hreads.
    specialize (Hn1 c Hc).
    eapply (reads_stable (nodeMap s2) (nodeMap s3) (currentId s1) (currentId s2));
      [| | |done|done]; [| |lia].
    + intros id Hid. rewrite Ho2 by lia. case_decide as Hown; [|done].
      specialize (Howner id Hown). lia.
    + intros id o c' _ Ho Hc'. apply (Hkids id o c' Ho Hc').
Qed.

Lemma ownerAt_head st i j r : ownerAt st (i :: r) = ownerAt st (j :: r).
Proof. reflexivity. Qed.

Lemma ownerAt_untagged st i r :
  tempId st !! r = None -> ownerAt st (i :: r) = ownerAt st r.
Proof.
  unfold ownerAt. cbn [recognizedAncestor]. intros ->. by destruct r.
Qed.

Lemma ownerAt_lt st r t : idsOrdered st -> ownerAt st r = Some t -> t < currentId st.
Proof.
  intros [Hdom _] Ht. apply Hdom. by apply (recognizedAncestor_Some (tempId st) _ r).
Qed.

(** Right after [attach] the walk below [r] hangs its objects onto the new
    object. *)
Lemma ownerAt_attach r parentObject f st i :
  idsOrdered st ->
  (forall t, parentObject = Some t -> is_Some (nodeMap st !! t)) ->
  ownerAt (attach r parentObject f st) (i :: r) = Some (currentId st)
  /\ inTaskAt (attach r parentObject f st) (i :: r) = bool_decide (f_key f = "task").
Proof.
  intros Hids Hparent.
  assert (Hnew : nodeMap (attach r parentObject f st) !! currentId st
                 = Some (mkOutlineObject f [])).
  { rewrite attach_nodeMap_lookup; [|by apply idsOrdered_fresh|done].
    by rewrite decide_True. }
  assert (Howner : ownerAt (attach r parentObject f st) (i :: r) = Some (currentId st)).
  { unfold ownerAt. cbn [recognizedAncestor].
    replace (tempId (attach r parentObject f st) !! r) with (Some (currentId st))
      by (simpl; by rewrite lookup_insert_eq).
    by rewrite Hnew. }
  split; [done|]. unfold inTaskAt. by rewrite Howner, underTask_Some, Hnew.
Qed.

(** An object that is attached and then receives what the walk below it
    makes reads as the node with those trees as children. *)
Lemma built_attach r parentObject f st st' top trees :
  idsOrdered st ->
  (forall t, parentObject = Some t -> is_Some (nodeMap st !! t)) ->
  built (Some (currentId st)) (attach r parentObject f st) st' top trees ->
  built parentObject st st' [currentId st] [mkYamlObjectNode f trees].
Proof.
  intros Hids Hparent [Hc Ho Hr Hn Ht].
  pose proof (idsOrdered_fresh st Hids) as Hfresh.
  pose proof (fun id => attach_nodeMap_lookup r parentObject f st id Hfresh Hparent)
    as Hlook.
  simpl in Hc.
  assert (Hnew : nodeMap st' !! currentId st = Some (mkOutlineObject f top)).
  { rewrite Ho by (simpl; lia). rewrite decide_True by done.
    rewrite Hlook. by case_decide. }
  split.
  - lia.
  - intros id Hid. rewrite Ho by (simpl; lia).
    rewrite decide_False by (intros [= Heq]; lia).
    rewrite Hlook. case_decide; [lia|]. unfold pushAll. done.
  - rewrite Hr, app_nil_r. destruct parentObject; simpl; by rewrite ?app_nil_r.
  - constructor; [lia|constructor].
  - constructor; [|constructor]. intros [|fuel] Hfuel; [lia|].
    cbn [objectTree]. rewrite Hnew. cbn [mbind option_bind o_children o_fields].
    assert (Htrees : mapM (objectTree fuel (nodeMap st')) top = Some trees).
    { apply mapM_Some. rewrite Forall_forall in Hn.
      eapply Forall2_impl_elem; [exact Ht|]. simpl. intros c t Hc' Hreads.
      apply Hreads. specialize (Hn c Hc'). simpl in Hn. lia. }
    by rewrite Htrees.
Qed.

Section Built.
Context {A : Type} (f : NodeRef -> A -> BuildState -> BuildState) (wrap : A -> Node).
Context (rootNode : ASTNode) (g : bool -> NodeRef -> A -> list YamlObjectNode).
Context (r : NodeRef).
Hypothesis f_grows : forall c r s,
  node_at rootNode r = Some (wrap c) -> grows rootNode r s (f r c s).

(** Walking from the child [c] of [r] builds what [g] says. *)
Let builds (c : A) : Prop :=
  forall j s,
    idsOrdered s -> tagsSound s -> untagged (j :: r) s ->
    node_at rootNode (j :: r) = Some (wrap c) ->
    exists top,
      built (ownerAt s (j :: r)) s (f (j :: r) c s) top (g (inTaskAt s (j :: r)) (j :: r) c).

Lemma eachChild_built l :
  Forall builds l ->
  forall k s,
    idsOrdered s -> tagsSound s ->
    (forall j x, k <= j -> (j :: r) `suffix_of` x -> tempId s !! x = None) ->
    (forall j c, l !! j = Some c -> node_at rootNode (k + j :: r) = Some (wrap c)) ->
    exists top,
      built (ownerAt s (k :: r)) s (eachChild f r k l s) top
            (gatherChildren (g (inTaskAt s (k :: r))) r k l).
Proof using f_grows.
  induction 1 as [|c l Hc _ IH]; intros k s Hids Hsound Hfresh Hnodes.
  { exists []. apply built_refl. }
  assert (Hck : node_at rootNode (k :: r) = Some (wrap c)).
  { specialize (Hnodes 0 c eq_refl). by rewrite Nat.add_0_r in Hnodes. }
  destruct (Hc k s Hids Hsound) as [top1 Hbuilt1]; [|done|].
  { intros x Hx. by apply (Hfresh k). }
  pose proof (f_grows c (k :: r) s Hck Hids) as Hstep.
  set (s1 := f (k :: r) c s) in *.
  assert (Htags : forall x, x `suffix_of` r -> tempId s1 !! x = tempId s !! x).
  { intros x Hx. apply (grown_tagged _ _ _ _ Hstep). by apply suffix_not_child. }
  assert (Howner : ownerAt s1 (S k :: r) = ownerAt s (k :: r)).
  { rewrite (ownerAt_head s k (S k)). unfold ownerAt.
    apply recognizedAncestor_stable; [|done|apply Hstep].
    intros x Hx Hne. apply Htags.
    destruct Hx as [[|i pre] Hx]; simpl in Hx; [congruence|].
    injection Hx as _ ->. by apply suffix_app_r. }
  assert (Htask : inTaskAt s1 (S k :: r) = inTaskAt s (k :: r)).
  { unfold inTaskAt. rewrite Howner.
    apply underTask_kept; [|apply Hstep]. intros t. apply recognizedAncestor_Some. }
  destruct (IH (S k) s1) as [top2 Hbuilt2].
  - apply Hstep.
  - by apply (grown_sound _ _ _ _ Hstep).
  - intros j x Hj Hx. rewrite (grown_tagged _ _ _ _ Hstep); [apply (Hfresh j); [lia|done]|].
    intros Hsuf. pose proof (suffix_sibling _ _ _ _ Hx Hsuf). lia.
  - intros j c' Hj. specialize (Hnodes (S j) c' Hj).
    by replace (k + S j) with (S k + j) in Hnodes by lia.
  - rewrite Howner, Htask in Hbuilt2.
    exists (top1 ++ top2). cbn [eachChild gatherChildren].
    eapply built_trans; [apply Hstep| |exact Hbuilt1|exact Hbuilt2].
    intros t. by apply ownerAt_lt.
Qed.
End Built.

Lemma inTaskAt_untagged st i r :
  tempId st !! r = None -> inTaskAt st (i :: r) = inTaskAt st r.
Proof. intros Hr. unfold inTaskAt. by rewrite ownerAt_untagged. Qed.

Lemma recognizedLocation_not_task location name :
  recognizedLocation location = Some name -> bool_decide (name = "task") = false.
Proof.
  intros Hloc. apply recognizedLocation_vocabulary in Hloc.
  apply bool_decide_eq_false_2. intros ->.
  repeat (apply elem_of_cons in Hloc as [Hloc|Hloc]; [discriminate Hloc|]).
  by apply elem_of_nil in Hloc.
Qed.

Lemma untagged_here r st : untagged r st -> tempId st !! r = None.
Proof. intros Hr. by apply Hr. Qed.

Lemma untagged_children r st :
  untagged r st ->
  forall j x, 0 <= j -> (j :: r) `suffix_of` x -> tempId st !! x = None.
Proof. intros Hr j x _ Hx. apply Hr. by eapply suffix_cons_l. Qed.

Lemma attach_untagged_children r parentObject f st :
  untagged r st ->
  forall j x, 0 <= j -> (j :: r) `suffix_of` x ->
    tempId (attach r parentObject f st) !! x = None.
Proof.
  intros Hr j x _ Hx. simpl. rewrite lookup_insert_ne.
  - apply Hr. by eapply suffix_cons_l.
  - intros ->. by apply suffix_cons_not in Hx.
Qed.

Lemma outlineVisitor_property_pass d rootNode r s0 e0 k v st :
  recognizedKey k && negb (inTaskAt st r) = false ->
  outlineVisitor d rootNode r (PropOf (Property s0 e0 k v)) st = st.
Proof.
  intros Hpass. cbn [outlineVisitor]. destruct (recognizedKey k); [|done].
  simpl in Hpass. apply negb_false_iff in Hpass. unfold inTaskAt, ownerAt in Hpass.
  cbn [negb]. by rewrite Hpass.
Qed.

Lemma outlineVisitor_property_attach d rootNode i holder hs he ps s0 e0 k v st :
  node_at rootNode holder = Some (NodeOf (ObjectASTNode hs he ps)) ->
  recognizedKey k = true ->
  inTaskAt st (i :: holder) = false ->
  outlineVisitor d rootNode (i :: holder) (PropOf (Property s0 e0 k v)) st
  = attach (i :: holder) (ownerAt st (i :: holder))
      {| origin := Some (i :: holder);
         f_key := k;
         f_value := getValue v;
         f_startPosition := positionAt d hs;
         f_endPosition := positionAt d he;
         f_isArray := false |} st.
Proof.
  intros Hholder Hkey Hin. cbn [outlineVisitor]. rewrite Hkey. cbn [negb].
  unfold inTaskAt, ownerAt in Hin. rewrite Hin.
  change (parentRef (i :: holder) ≫= enclosingObject rootNode)
    with (enclosingObject rootNode holder).
  by rewrite (enclosingObject_here _ _ _ _ _ Hholder).
Qed.

(** Pass 1 builds what [sections] says. *)
Lemma sections_built_mutual d rootNode :
  (forall n r s,
      idsOrdered s -> tagsSound s -> untagged r s ->
      node_at rootNode r = Some (NodeOf n) ->
      exists top,
        built (ownerAt s r) s (visit (outlineVisitor d rootNode) r n s) top
              (sections d (inTaskAt s r) r n))
  /\ (forall p i holder hs he ps s,
        idsOrdered s -> tagsSound s -> untagged (i :: holder) s ->
        node_at rootNode holder = Some (NodeOf (ObjectASTNode hs he ps)) ->
        ps !! i = Some p ->
        exists top,
          built (ownerAt s (i :: holder)) s
                (visitProperty (outlineVisitor d rootNode) (i :: holder) p s) top
                (sectionsOfProperty d (inTaskAt s (i :: holder)) hs he (i :: holder) p)).
Proof.
  apply AST_mutual_ind.
  - (* Object *)
    intros s0 e0 ps IH r s Hids Hsound Hfresh Hr.
    pose proof (untagged_here r s Hfresh) as Hhere.
    rewrite <- (ownerAt_untagged s 0 r Hhere), <- (inTaskAt_untagged s 0 r Hhere).
    apply (eachChild_built (visitProperty (outlineVisitor d rootNode)) PropOf rootNode
             (fun inTask r' p => sectionsOfProperty d inTask s0 e0 r' p) r
             (visitProperty_grows d rootNode) ps); try done.
    + eapply Forall_impl; [exact IH|]. simpl. intros p Hp j s' Hids' Hsound' Hfresh' Hj.
      apply (Hp j r s0 e0 ps s'); try done.
      simpl in Hj. rewrite Hr in Hj. simpl in Hj.
      destruct (ps !! j) as [p'|]; [|done]. by injection Hj as ->.
    + by apply untagged_children.
    + intros j p Hj. simpl. rewrite Hr. simpl. by rewrite Hj.
  - (* Array *)
    intros s0 e0 location items IH r s Hids Hsound Hfresh Hr.
    pose proof (untagged_here r s Hfresh) as Hhere.
    assert (Hitems : Forall (fun c => forall j s',
              idsOrdered s' -> tagsSound s' -> untagged (j :: r) s' ->
              node_at rootNode (j :: r) = Some (NodeOf c) ->
              exists top,
                built (ownerAt s' (j :: r)) s'
                      (visit (outlineVisitor d rootNode) (j :: r) c s') top
                      (sections d (inTaskAt s' (j :: r)) (j :: r) c)) items).
    { eapply Forall_impl; [exact IH|]. simpl. intros c Hc j s'. apply Hc. }
    assert (Hnodes : forall j c, items !! j = Some c ->
                                 node_at rootNode (0 + j :: r) = Some (NodeOf c)).
    { intros j c Hj. simpl. rewrite Hr. simpl. by rewrite Hj. }
    change (visit (outlineVisitor d rootNode) r (ArrayASTNode s0 e0 location items) s)
      with (eachChild (visit (outlineVisitor d rootNode)) r 0 items
              (outlineVisitor d rootNode r (NodeOf (ArrayASTNode s0 e0 location items)) s)).
    pose proof (outlineVisitor_grows d rootNode r _ s Hr Hids) as Hstep.
    cbn [sections]. cbn [outlineVisitor] in Hstep |- *.
    destruct (recognizedLocation location) as [name|] eqn:Hloc.
    + fold (ownerAt s r) in Hstep |- *.
      destruct (ownerAt_attach r (ownerAt s r)
                  {| origin := Some r; f_key := name; f_value := VNull;
                     f_startPosition := positionAt d s0;
                     f_endPosition := positionAt d e0; f_isArray := true |} s 0 Hids)
        as [Howner Htask].
      { intros t. apply recognizedAncestor_Some. }
      cbn [f_key] in Htask. rewrite (recognizedLocation_not_task _ _ Hloc) in Htask.
      edestruct (eachChild_built (visit (outlineVisitor d rootNode)) NodeOf rootNode
                   (sections d) r (visit_grows d rootNode) items Hitems 0)
        as [top Hbuilt]; [apply Hstep|by apply (grown_sound _ _ _ _ Hstep)
                          |by apply attach_untagged_children|exact Hnodes|].
      rewrite Howner, Htask in Hbuilt.
      eexists. eapply built_attach; [done| |exact Hbuilt].
      intros t. apply recognizedAncestor_Some.
    + rewrite <- (ownerAt_untagged s 0 r Hhere), <- (inTaskAt_untagged s 0 r Hhere).
      apply (eachChild_built (visit (outlineVisitor d rootNode)) NodeOf rootNode
               (sections d) r (visit_grows d rootNode) items); try done.
      by apply untagged_children.
  - (* Value *)
    intros s0 e0 v r s _ _ _ _. exists []. apply built_refl.
  - (* Property *)
    intros s0 e0 k v IH i holder hs he ps s Hids Hsound Hfresh Hholder Hi.
    assert (Hr : node_at rootNode (i :: holder) = Some (PropOf (Property s0 e0 k v))).
    { simpl. rewrite Hholder. simpl. by rewrite Hi. }
    assert (Hv : node_at rootNode (0 :: i :: holder) = Some (NodeOf v)).
    { change (node_at rootNode (i :: holder) ≫= (fun n => child n 0) = Some (NodeOf v)).
      by rewrite Hr. }
    pose proof (untagged_here _ s Hfresh) as Hhere.
    change (visitProperty (outlineVisitor d rootNode) (i :: holder) (Property s0 e0 k v) s)
      with (visit (outlineVisitor d rootNode) (0 :: i :: holder) v
              (outlineVisitor d rootNode (i :: holder) (PropOf (Property s0 e0 k v)) s)).
    pose proof (outlineVisitor_grows d rootNode (i :: holder) _ s Hr Hids) as Hstep.
    cbn [sectionsOfProperty].
    destruct (recognizedKey k && negb (inTaskAt s (i :: holder))) eqn:Haccept.
    + apply andb_true_iff in Haccept as [Hkey Hin]. apply negb_true_iff in Hin.
      rewrite (outlineVisitor_property_attach d rootNode i holder hs he ps s0 e0 k v s)
        in Hstep |- *; try done.
      destruct (ownerAt_attach (i :: holder) (ownerAt s (i :: holder))
                  {| origin := Some (i :: holder); f_key := k; f_value := getValue v;
                     f_startPosition := positionAt d hs;
                     f_endPosition := positionAt d he; f_isArray := false |} s 0 Hids)
        as [Howner Htask].
      { intros t. apply recognizedAncestor_Some. }
      cbn [f_key] in Htask.
      edestruct (IH (0 :: i :: holder)) as [top Hbuilt];
        [apply Hstep|by apply (grown_sound _ _ _ _ Hstep)| |exact Hv|].
      { intros x Hx. by apply (attach_untagged_children (i :: holder) _ _ s Hfresh 0 x). }
      rewrite Howner, Htask in Hbuilt.
      eexists. eapply built_attach; [done| |exact Hbuilt].
      intros t. apply recognizedAncestor_Some.
    + rewrite (outlineVisitor_property_pass d rootNode (i :: holder) s0 e0 k v s Haccept).
      rewrite <- (ownerAt_untagged s 0 _ Hhere), <- (inTaskAt_untagged s 0 _ Hhere).
      apply IH; try done. intros x Hx. apply Hfresh. by eapply suffix_cons_l.
Qed.

Lemma provisionalTree_sections d jsonDocument :
  provisionalTree d jsonDocument (buildState d jsonDocument ∅)
  = Some (mkYamlObjectNode (rootFields d (root jsonDocument))
            (sections d false [] (root jsonDocument))).
Proof.
  destruct (proj1 (sections_built_mutual d (root jsonDocument)) (root jsonDocument) []
              (initialState ∅)) as [top [_ _ Hroot Hnew Htrees]]; try done.
  { apply initialState_idsOrdered. }
  fold (buildState d jsonDocument ∅) in Hroot, Hnew, Htrees.
  change (rootChildren (buildState d jsonDocument ∅) = top) in Hroot.
  change (inTaskAt (initialState ∅) []) with false in Htrees.
  unfold provisionalTree. rewrite Hroot.
  assert (Hread : mapM (objectTree (S (currentId (buildState d jsonDocument ∅)))
                          (nodeMap (buildState d jsonDocument ∅))) top
                  = Some (sections d false [] (root jsonDocument))).
  { apply mapM_Some. eapply Forall2_impl_elem; [exact Htrees|].
    intros c t _ Hreads. apply Hreads. lia. }
  by rewrite Hread.
Qed.

(** X12. On a tree fresh from the parser, the outline [getObjectTree]
    returns is the flatten pass applied to the root with the children
    [sections] lists: pass 1, with its ancestor walks over tags and its
    pushes onto shared objects, builds the nodes the recursion on the AST
    names, in document order. *)
Theorem getObjectTree_sections :
  forall d jsonDocument rest,
    exists tags',
      getObjectTree (Some d) {| documents := jsonDocument :: rest |} ∅
      = Returns (_flattenArrays
                   (mkYamlObjectNode (rootFields d (root jsonDocument))
                      (sections d false [] (root jsonDocument))),
                 tags').
Proof.
  intros d jsonDocument rest. eexists. unfold getObjectTree. simpl.
  by rewrite provisionalTree_sections.
Qed.

(** ** One outline node for an AST node *)

Lemma originsBelow_nil r : originsBelow r [].
Proof. split; constructor. Qed.

Lemma originsBelow_lift i r trees : originsBelow (i :: r) trees -> originsBelow r trees.
Proof.
  intros [Hnodup Hall]. split; [done|].
  eapply Forall_impl; [exact Hall|]. simpl. intros o (x & -> & Hx).
  exists x. split; [done|]. by eapply suffix_cons_l.
Qed.

Lemma gatherChildren_origins {A} (g : NodeRef -> A -> list YamlObjectNode) r l :
  Forall (fun c => forall j, originsBelow (j :: r) (g (j :: r) c)) l ->
  forall k,
    NoDup (origin <$> flat_map labels (gatherChildren g r k l))
    /\ Forall (fun o => exists x j, k <= j /\ o = Some x /\ (j :: r) `suffix_of` x)
              (origin <$> flat_map labels (gatherChildren g r k l)).
Proof.
  induction 1 as [|c l Hc _ IH]; intros k; cbn [gatherChildren].
  { split; constructor. }
  destruct (Hc k) as [Hnodup Hall]. destruct (IH (S k)) as [Hnodup' Hall'].
  rewrite flat_map_app, fmap_app. split.
  - apply NoDup_app. split; [done|]. split; [|done].
    intros o Ho Ho'. rewrite Forall_forall in Hall, Hall'.
    destruct (Hall o Ho) as (x & -> & Hx).
    destruct (Hall' _ Ho') as (x' & j & Hj & [= <-] & Hx').
    pose proof (suffix_sibling _ _ _ _ Hx Hx'). lia.
  - apply Forall_app. split.
    + eapply Forall_impl; [exact Hall|]. simpl. intros o (x & -> & Hx).
      exists x, k. split; [lia|done].
    + eapply Forall_impl; [exact Hall'|]. simpl. intros o (x & j & Hj & -> & Hx).
      exists x, j. split; [lia|done].
Qed.

Lemma gatherChildren_originsBelow {A} (g : NodeRef -> A -> list YamlObjectNode) r l k :
  Forall (fun c => forall j, originsBelow (j :: r) (g (j :: r) c)) l ->
  originsBelow r (gatherChildren g r k l)
  /\ Some r ∉ origin <$> flat_map labels (gatherChildren g r k l).
Proof.
  intros Hl. destruct (gatherChildren_origins g r l Hl k) as [Hnodup Hall].
  rewrite Forall_forall in Hall. split; [split; [done|]|].
  - apply Forall_forall. intros o Ho. destruct (Hall o Ho) as (x & j & _ & -> & Hx).
    exists x. split; [done|]. by eapply suffix_cons_l.
  - intros Hr. destruct (Hall _ Hr) as (x & j & _ & [= <-] & Hx).
    by apply suffix_cons_not in Hx.
Qed.

(** A node made from the AST node at [r] above trees from below [r]. *)
Lemma originsBelow_node r f trees :
  origin f = Some r ->
  originsBelow r trees ->
  Some r ∉ origin <$> flat_map labels trees ->
  originsBelow r [mkYamlObjectNode f trees].
Proof.
  intros Hf [Hnodup Hall] Hr. unfold originsBelow.
  cbn [flat_map labels]. rewrite app_nil_r, fmap_cons, Hf. split.
  - by apply NoDup_cons.
  - constructor; [by exists r|done].
Qed.

Lemma sections_originsBelow_mutual d :
  (forall n inTask r, originsBelow r (sections d inTask r n))
  /\ (forall p inTask from to r,
        originsBelow r (sectionsOfProperty d inTask from to r p)).
Proof.
  apply AST_mutual_ind.
  - intros s e ps IH inTask r. cbn [sections].
    apply gatherChildren_originsBelow.
    eapply Forall_impl; [exact IH|]. simpl. intros p Hp j. apply Hp.
  - intros s e location items IH inTask r. cbn [sections].
    assert (Hitems : forall ctx,
              Forall (fun c => forall j, originsBelow (j :: r) (sections d ctx (j :: r) c))
                     items).
    { intros ctx. eapply Forall_impl; [exact IH|]. simpl. intros c Hc j. apply Hc. }
    destruct (recognizedLocation location).
    + destruct (gatherChildren_originsBelow (sections d false) r items 0 (Hitems false)).
      by apply originsBelow_node.
    + by apply gatherChildren_originsBelow.
  - intros s e v inTask r. apply originsBelow_nil.
  - intros s e k v IH inTask from to r. cbn [sectionsOfProperty].
    destruct (recognizedKey k && negb inTask).
    + apply originsBelow_node; [done|by apply (originsBelow_lift 0)|].
      destruct (IH (bool_decide (k = "task")) (0 :: r)) as [_ Hall].
      rewrite Forall_forall in Hall. intros Hr.
      destruct (Hall _ Hr) as (x & [= <-] & Hx). by apply suffix_cons_not in Hx.
    + by apply (originsBelow_lift 0).
Qed.

(** X13. No AST node has two nodes in the outline: the nodes of the tree
    [getObjectTree] returns for a tree fresh from the parser come from
    pairwise distinct AST nodes (the root from none). *)
Theorem outline_origins_distinct :
  forall d jsonDocument rest tree tags',
    getObjectTree (Some d) {| documents := jsonDocument :: rest |} ∅
    = Returns (tree, tags') ->
    NoDup (origin <$> labels tree).
Proof.
  intros d jsonDocument rest tree tags' Hret.
  unfold getObjectTree in Hret. simpl in Hret.
  rewrite provisionalTree_sections in Hret. injection Hret as <- _.
  eapply NoDup_submseteq_inv;
    [apply fmap_submseteq,
       (flattenArrays_submseteq
          (mkYamlObjectNode (rootFields d (root jsonDocument))
             (sections d false [] (root jsonDocument))))|].
  cbn [labels]. rewrite fmap_cons.
  destruct (proj1 (sections_originsBelow_mutual d) (root jsonDocument) false [])
    as [Hnodup Hall].
  apply NoDup_cons. split; [|done]. simpl.
  rewrite Forall_forall in Hall. intros Hnone.
  by destruct (Hall _ Hnone) as (x & [=] & _).
Qed.

Lemma outline_origins_distinct_witness :
  exists tree tags',
    getObjectTree (Some sampleDocument) (single stageWithTasks) ∅ = Returns (tree, tags')
    /\ origin <$> labels tree
       = [None; Some [0]; Some [0; 0; 0; 1]; Some [0; 1; 0; 1]]
    /\ NoDup (origin <$> labels tree).
Proof.
  eexists _, _. split; [vm_compute; reflexivity|]. split; [reflexivity|].
  eapply (outline_origins_distinct sampleDocument {| root := stageWithTasks |} []).
  vm_compute. reflexivity.
Defined.

(** ** The Object [getNodePropertyValues] reads *)

(** X14. A mapping comes only from the nearest Object: when
    [getNodePropertyValues] returns a mapping and not the absent map, the
    cursor is on a node of the first top-level document, the nearest Object
    at or above that node has exactly one property named [propertyName], and
    the mapping is the one collected from the properties of that property's
    value (empty when the value is no Object). No Object further up is
    consulted. *)
Theorem getNodePropertyValues_reads_nearest_object :
  forall document y position propertyName valueMap,
    values (getNodePropertyValues document y position propertyName) = Some valueMap ->
    exists d jsonDocument rest r holder s e ps p,
      document = Some d
      /\ documents y = jsonDocument :: rest
      /\ getNodeFromOffset jsonDocument (offsetAt d position) = Some r
      /\ nearestObject (root jsonDocument) r holder
      /\ node_at (root jsonDocument) holder = Some (NodeOf (ObjectASTNode s e ps))
      /\ List.filter (hasKey propertyName) ps = [p]
      /\ valueMap = collectValues (default [] (propertiesOf (prop_value p))).
Proof.
  intros [d|] [[|jsonDocument rest]] position propertyName valueMap; try done.
  unfold getNodePropertyValues. cbn [documents].
  destruct (getNodeFromOffset jsonDocument (offsetAt d position)) as [r|] eqn:Hr;
    [|done].
  cbn [mbind option_bind].
  pose proof (enclosingObject_nearest (root jsonDocument) r) as Hnearest.
  destruct (enclosingObject (root jsonDocument) r) as [node|]; [|done].
  destruct Hnearest as (holder & Hnearest & Hnode).
  destruct (proj1 (proj2 Hnearest)) as (s & e & ps & Hobj).
  assert (node = ObjectASTNode s e ps) as -> by congruence.
  cbn [propertiesOf default id].
  destruct (List.filter (hasKey propertyName) ps) as [|p [|p' l]] eqn:Hone; try done.
  cbn [values]. intros [= <-].
  exists d, jsonDocument, rest, r, holder, s, e, ps, p.
  repeat (split; [done|]).
  by destruct (propertiesOf (prop_value p)).
Qed.

Lemma getNodePropertyValues_reads_nearest_object_witness :
  exists valueMap,
    values (getNodePropertyValues (Some sampleDocument) (single taskWithInputs)
              {| line := 0; character := 3 |} "inputs") = Some valueMap
    /\ exists d jsonDocument rest r holder s e ps p,
         Some sampleDocument = Some d
         /\ documents (single taskWithInputs) = jsonDocument :: rest
         /\ getNodeFromOffset jsonDocument (offsetAt d {| line := 0; character := 3 |})
            = Some r
         /\ nearestObject (root jsonDocument) r holder
         /\ node_at (root jsonDocument) holder = Some (NodeOf (ObjectASTNode s e ps))
         /\ List.filter (hasKey "inputs") ps = [p]
         /\ valueMap = collectValues (default [] (propertiesOf (prop_value p))).
Proof.
  eexists. split; [vm_compute; reflexivity|].
  apply (getNodePropertyValues_reads_nearest_object (Some sampleDocument)
           (single taskWithInputs) {| line := 0; character := 3 |} "inputs").
  vm_compute. reflexivity.
Defined.

(** X15. Under every name but [__proto__] the last property wins: when the
    single matched property of the nearest Object has an Object value, the
    mapping binds each such key among the value's properties, and no other
    such name, to the read-out of the last property carrying it. *)
Theorem getNodePropertyValues_last_wins_except_proto :
  forall d y jsonDocument rest position propertyName r holder s e ps p s' e' qs,
    documents y = jsonDocument :: rest ->
    getNodeFromOffset jsonDocument (offsetAt d position) = Some r ->
    nearestObject (root jsonDocument) r holder ->
    node_at (root jsonDocument) holder = Some (NodeOf (ObjectASTNode s e ps)) ->
    List.filter (hasKey propertyName) ps = [p] ->
    prop_value p = ObjectASTNode s' e' qs ->
    exists valueMap : JSObject,
      values (getNodePropertyValues (Some d) y position propertyName) = Some valueMap
      /\ forall k, k <> "__proto__" ->
           own valueMap !! k
           = (fun q => getValue (prop_value q)) <$> last (List.filter (hasKey k) qs)
           /\ (is_Some (own valueMap !! k) <-> k ∈ prop_key <$> qs).
Proof.
  intros d y jsonDocument rest position propertyName r holder s e ps p s' e' qs
    Hdocs Hr Hnearest Hnode Hone Hval.
  exists (collectValues qs).
  rewrite (getNodePropertyValues_at_nearest _ _ _ _ _ _ _ _ _ _ _
             Hdocs Hr Hnearest Hnode), Hone, Hval.
  split; [done|]. intros k Hk.
  rewrite (collectValues_lookup qs k Hk). split; [done|].
  rewrite fmap_is_Some, list_elem_of_fmap. split.
  - intros [q Hq]. exists q.
    assert (Hin : q ∈ List.filter (hasKey k) qs).
    { apply last_Some in Hq as [l ->]. apply elem_of_app. right. apply list_elem_of_here. }
    apply list_elem_of_In, filter_In in Hin as [Hin Hkey].
    split; [|by apply list_elem_of_In].
    symmetry. by apply bool_decide_eq_true_1 in Hkey.
  - intros (q & -> & Hq).
    assert (Hin : q ∈ List.filter (hasKey (prop_key q)) qs).
    { apply list_elem_of_In, filter_In. split; [by apply list_elem_of_In|].
      by apply bool_decide_eq_true_2. }
    destruct (List.filter (hasKey (prop_key q)) qs) as [|q' l] using rev_ind.
    + by apply elem_of_nil in Hin.
    + rewrite last_snoc. by eexists.
Qed.

Lemma getNodePropertyValues_last_wins_except_proto_witness :
  exists valueMap : JSObject,
    values (getNodePropertyValues (Some sampleDocument) (single taskWithInputs)
              {| line := 0; character := 3 |} "inputs") = Some valueMap
    /\ own valueMap !! "a" = Some (VNum 3)
    /\ own valueMap !! "b" = Some (VNum 2)
    /\ own valueMap !! "c" = None.
Proof.
  assert (Hnearest : nearestObject taskWithInputs [0] []).
  { split; [by exists [0]|]. split; [by eexists _, _, _|].
    intros x Hx Hlen (s & e & ps & Hobj).
    apply suffix_cons_cases in Hx as [->|Hx]; [discriminate Hobj|].
    apply suffix_nil_inv in Hx as ->. simpl in Hlen. lia. }
  destruct (getNodePropertyValues_last_wins_except_proto sampleDocument (single taskWithInputs)
              _ _ {| line := 0; character := 3 |} "inputs" _ _ _ _ _ _ _ _ _
              eq_refl eq_refl Hnearest eq_refl eq_refl eq_refl)
    as (valueMap & Hres & Hlook).
  exists valueMap. split; [exact Hres|].
  split; [exact (proj1 (Hlook "a" ltac:(discriminate)))|].
  split; [exact (proj1 (Hlook "b" ltac:(discriminate)))|].
  exact (proj1 (Hlook "c" ltac:(discriminate))).
Defined.

(** X16. A property named [__proto__] whose value reads out as a boolean, a
    number or a string leaves no trace: when all properties of that name
    among those of the matched property's Object value are such, the mapping
    is the one the other properties alone give, it has no entry under
    [__proto__], and its prototype is still [Object.prototype]. *)
Theorem getNodePropertyValues_scalar_proto_ignored :
  forall d y jsonDocument rest position propertyName r holder s e ps p s' e' qs,
    documents y = jsonDocument :: rest ->
    getNodeFromOffset jsonDocument (offsetAt d position) = Some r ->
    nearestObject (root jsonDocument) r holder ->
    node_at (root jsonDocument) holder = Some (NodeOf (ObjectASTNode s e ps)) ->
    List.filter (hasKey propertyName) ps = [p] ->
    prop_value p = ObjectASTNode s' e' qs ->
    Forall (fun q => prop_key q = "__proto__" ->
                     isObjectOrNull (getValue (prop_value q)) = false) qs ->
    exists valueMap : JSObject,
      values (getNodePropertyValues (Some d) y position propertyName) = Some valueMap
      /\ valueMap = collectValues (List.filter (fun q => negb (hasKey "__proto__" q)) qs)
      /\ own valueMap !! "__proto__" = None
      /\ prototype valueMap = ObjectPrototype.
Proof.
  intros d y jsonDocument rest position propertyName r holder s e ps p s' e' qs
    Hdocs Hr Hnearest Hnode Hone Hval Hscalar.
  exists (collectValues qs).
  rewrite (getNodePropertyValues_at_nearest _ _ _ _ _ _ _ _ _ _ _
             Hdocs Hr Hnearest Hnode), Hone, Hval.
  destruct (collectValues_scalar_proto qs Hscalar) as (Hproto & Hown & Heq).
  by repeat split.
Qed.

Lemma getNodePropertyValues_scalar_proto_ignored_witness :
  exists valueMap : JSObject,
    values (getNodePropertyValues (Some sampleDocument) (single taskProtoInputs)
              {| line := 0; character := 3 |} "inputs") = Some valueMap
    /\ valueMap = collectValues [Property 30 34 "a" (ValueASTNode 33 34 (VNum 1))]
    /\ own valueMap !! "__proto__" = None
    /\ prototype valueMap = ObjectPrototype.
Proof.
  assert (Hnearest : nearestObject taskProtoInputs [0] []).
  { split; [by exists [0]|]. split; [by eexists _, _, _|].
    intros x Hx Hlen (s & e & ps & Hobj).
    apply suffix_cons_cases in Hx as [->|Hx]; [discriminate Hobj|].
    apply suffix_nil_inv in Hx as ->. simpl in Hlen. lia. }
  apply (getNodePropertyValues_scalar_proto_ignored sampleDocument
           (single taskProtoInputs) _ _ {| line := 0; character := 3 |} "inputs"
           _ _ _ _ _ _ _ _ _ eq_refl eq_refl Hnearest eq_refl eq_refl eq_refl).
  repeat constructor; discriminate.
Defined.
